(** * goli: pairwise graph distances with caching, and NaN-tolerant losses

    A shallow embedding of
    - [goli/features/graphormer.py] ([compute_graphormer_distances]), and
    - [goli/ipu/ipu_metrics.py] (the [*LossIPU] layers and the [*_ipu] metrics),
    together with the properties their specification states about them.

    Python objects that are shared and mutated (the cache dictionary, numpy
    arrays, torch tensors, a layer's [weight] attribute) live in an explicit
    store and are passed around by location; every operation is a function
    from stores to a result (a value or a raised exception) and a store. *)

From Stdlib Require Import ZArith QArith Qabs Lia Lqa List Bool.
From stdpp Require Import gmap strings list fin_maps.

(** ** Results of Python calls: a value, or a raised exception *)

(** The last two are not Python's: [FuelExhausted] is a loop that was given
    too few rounds, [BadReference] a location that holds no object. Neither
    is ever raised on a store the caller can build: the search is proved to
    end within its rounds, and every theorem is about locations that hold
    an object. *)
Inductive exn :=
| KeyError | IndexError | ValueError | RuntimeError | AttributeError
| NetworkXError | FuelExhausted | BadReference.

Inductive res (A : Type) :=
| Ok (a : A)
| Raise (e : exn).
Arguments Ok {A} a.
Arguments Raise {A} e.

#[global] Instance res_ret : MRet res := λ A a, Ok a.
#[global] Instance res_bind : MBind res := λ A B f r,
  match r with Ok a => f a | Raise e => Raise e end.

(** [for x in xs: ...] collecting results, stopping at the first exception. *)
Fixpoint res_mapM {A B} (f : A → res B) (xs : list A) : res (list B) :=
  match xs with
  | [] => Ok []
  | x :: xs' =>
      y ← f x; ys ← res_mapM f xs'; Ok (y :: ys)
  end.

(** ** Calls that read and change a store of type [S] *)

Definition eff (S A : Type) : Type := S → res A * S.

#[global] Instance eff_ret {S} : MRet (eff S) := λ A a s, (Ok a, s).
#[global] Instance eff_bind {S} : MBind (eff S) := λ A B f m s,
  match m s with
  | (Ok a, s') => f a s'
  | (Raise e, s') => (Raise e, s')
  end.

(** A computation that leaves the store alone. *)
Definition lift {S A} (r : res A) : eff S A := λ s, (r, s).

(** * Part I: [goli/features/graphormer.py] *)

Module Graphormer.

(** ** Data *)

(** A dense 2-D array of integers, row by row. *)
Abbreviation matrix := (list (list Z)).

Abbreviation loc := nat (only parsing).

(** What the store holds: dictionaries (values are references) and arrays. *)
Inductive obj :=
| ODict (d : gmap string loc)
| ONdarray (m : matrix).

(** The store, and a count of the calls made to the all-pairs search (what a
    spy on [nx.all_pairs_shortest_path] would record). *)
Record state := mkState { heap : list obj; sp_calls : nat }.

Abbreviation M := (eff state).

(** [np.asarray(...)]: a fresh array object. *)
Definition alloc (o : obj) : M loc :=
  λ s, (Ok (length (heap s)), mkState (heap s ++ [o]) (sp_calls s)).

(** [cache.keys()] / [cache[k]]: the dictionary behind a reference. *)
Definition get_dict (c : loc) : M (gmap string loc) :=
  λ s, match heap s !! c with
       | Some (ODict d) => (Ok d, s)
       | _ => (Raise AttributeError, s)
       end.

(** [cache[k] = v], in place. *)
Definition dict_setitem (c : loc) (k : string) (v : loc) : M unit :=
  λ s, match heap s !! c with
       | Some (ODict d) =>
           (Ok tt, mkState (<[c := ODict (<[k := v]> d)]> (heap s)) (sp_calls s))
       | _ => (Raise AttributeError, s)
       end.

Definition count_sp_call : M unit :=
  λ s, (Ok tt, mkState (heap s) (S (sp_calls s))).

(** ** [networkx]: graphs from adjacency matrices, breadth-first paths *)

(** [A[u][v]], zero outside the array. *)
Definition entry (adj : matrix) (u v : nat) : Z :=
  default 0%Z (adj !! u ≫= λ row, row !! v).

(** [nx.from_numpy_array] into an undirected [nx.Graph]: every nonzero
    [A[u][v]] is an edge between [u] and [v], whichever way round. *)
Definition edgeb (adj : matrix) (u v : nat) : bool :=
  negb (entry adj u v =? 0)%Z || negb (entry adj v u =? 0)%Z.

(** A graph on the nodes [0 .. n-1] is its list of adjacency lists. *)
Abbreviation graph := (list (list nat)).

Definition G_adj (G : graph) (v : nat) : list nat := default [] (G !! v).

(** The matrix has to be square. The order in which a node's neighbours are
    listed decides which shortest path the search records, never its length;
    neighbours are listed in increasing order here. *)
Definition from_numpy_array (adj : matrix) : res graph :=
  let n := length adj in
  if forallb (λ row, length row =? n) adj
  then Ok ((λ u, filter (λ v, edgeb adj u v = true) (seq 0 n)) <$> seq 0 n)
  else Raise NetworkXError.

Abbreviation paths_t := (gmap nat (list nat)).

(** The body of the inner loop of [_single_shortest_path]:
    [if w not in paths: paths[w] = paths[v] + [w]; nextlevel[w] = 1]. *)
Definition visit (v : nat) (acc : paths_t * list nat) (w : nat)
  : paths_t * list nat :=
  match acc.1 !! w with
  | None => (<[w := default [] (acc.1 !! v) ++ [w]]> acc.1, acc.2 ++ [w])
  | Some _ => acc
  end.

(** One round of the [while] loop: [for v in thislevel: for w in adj[v]: ...],
    starting from an empty [nextlevel]. *)
Definition expand_level (G : graph) (thislevel : list nat) (paths : paths_t)
  : paths_t * list nat :=
  fold_left (λ acc v, fold_left (visit v) (G_adj G v) acc) thislevel (paths, []).

(** [while nextlevel: ...] (the cutoff is infinite), with a bound on the
    number of rounds; [None] when the bound is hit. *)
Fixpoint single_shortest_path (fuel : nat) (G : graph)
  (nextlevel : list nat) (paths : paths_t) : option paths_t :=
  match nextlevel with
  | [] => Some paths
  | _ :: _ =>
      match fuel with
      | 0 => None
      | S fuel' =>
          let r := expand_level G nextlevel paths in
          single_shortest_path fuel' G r.2 r.1
      end
  end.

(** [nx.single_source_shortest_path(G, source)]; as many rounds as there are
    nodes always suffice ([single_source_shortest_path_total] below). *)
Definition single_source_shortest_path (G : graph) (source : nat)
  : option paths_t :=
  single_shortest_path (length G) G [source] {[source := [source]]}.

(** [nx.all_pairs_shortest_path(G)]: one search from every node, in order. *)
Definition all_pairs_shortest_path (G : graph) : res (list (nat * paths_t)) :=
  res_mapM (λ n, match single_source_shortest_path G n with
                 | Some paths => Ok (n, paths)
                 | None => Raise FuelExhausted
                 end) (seq 0 (length G)).

(** ** [compute_graphormer_distances] *)

(** [{i: {j: len(path)-1 for j, path in paths_from_i.items()} for ...}] *)
Definition dist_dict_of (paths : list (nat * paths_t)) : gmap nat (gmap nat Z) :=
  list_to_map
    ((λ ip : nat * paths_t,
        (ip.1, (λ path : list nat, Z.of_nat (length path) - 1)%Z <$> ip.2))
     <$> paths).

(** [d[k]] on a dictionary held by value: a missing key raises [KeyError]. *)
Definition getitem {V} (d : gmap nat V) (k : nat) : res V :=
  match d !! k with Some v => Ok v | None => Raise KeyError end.

(** [range(num_nodes)]; empty when [num_nodes] is not positive. *)
Definition range (n : Z) : list nat := seq 0 (Z.to_nat n).

(** [[[dist_dict[i][j] for j in range(num_nodes)] for i in range(num_nodes)]] *)
Definition dist_rows (dist_dict : gmap nat (gmap nat Z)) (num_nodes : Z)
  : res matrix :=
  res_mapM (λ i, res_mapM (λ j, di ← getitem dist_dict i; getitem di j)
                   (range num_nodes))
           (range num_nodes).

Definition graphormer_key : string := "graphormer".

(** The function of the source. [adj] is taken dense (a sparse matrix is
    densified first, which changes no entry). Returns the reference of the
    distance array, the level tag, and the reference of the cache it was
    given. *)
Definition compute_graphormer_distances (adj : matrix) (num_nodes : Z)
  (cache : loc) : M (loc * string * loc) :=
  let base_level := "pair"%string in
  d ← get_dict cache;
  match d !! graphormer_key with
  | Some dist => mret (dist, base_level, cache)
  | None =>
      G ← lift (from_numpy_array adj);
      count_sp_call;;
      paths ← lift (all_pairs_shortest_path G);
      let dist_dict := dist_dict_of paths in
      rows ← lift (dist_rows dist_dict num_nodes);
      dist ← alloc (ONdarray rows);
      dict_setitem cache graphormer_key dist;;
      mret (dist, base_level, cache)
  end.

(** ** Shortest paths, as the specification speaks of them *)

(** There is an edge between two nodes of the graph of [adj]. *)
Definition edge (adj : matrix) (u v : nat) : Prop :=
  u < length adj ∧ v < length adj ∧ edgeb adj u v = true.

(** [walk n R u v k]: [k] steps of [R] lead from node [u] to node [v]. *)
Inductive walk (n : nat) (R : nat → nat → Prop) (u : nat) : nat → nat → Prop :=
| walk_here : u < n → walk n R u u 0
| walk_step v w k : walk n R u v k → R v w → walk n R u w (S k).

(** [d] is the number of edges on a shortest path between [u] and [v]. *)
Definition shortest (n : nat) (R : nat → nat → Prop) (u v d : nat) : Prop :=
  walk n R u v d ∧ ∀ k, walk n R u v k → d ≤ k.

Definition adj_walk (adj : matrix) := walk (length adj) (edge adj).
Definition adj_shortest (adj : matrix) := shortest (length adj) (edge adj).

(** Every node can be reached from every node. *)
Definition connected (adj : matrix) : Prop :=
  ∀ u v, u < length adj → v < length adj → ∃ k, adj_walk adj u v k.

(** A [num_nodes]-by-[num_nodes] array. *)
Definition square (adj : matrix) : Prop :=
  Forall (λ row, length row = length adj) adj.

(** [m[i][j]] of an array, when in range. *)
Definition at2 (m : matrix) (i j : nat) : option Z := m !! i ≫= λ row, row !! j.

(** ** Facts about walks *)

Lemma walk_iff n R R' u v k :
  (∀ a b, R a b ↔ R' a b) → walk n R u v k → walk n R' u v k.
Proof.
  intros HR. induction 1 as [|v w k _ IH Hvw]; [by constructor|].
  econstructor; [exact IH|]. by apply HR.
Qed.

Lemma walk_start_lt n R u v k : walk n R u v k → u < n.
Proof. by induction 1. Qed.

Lemma walk_zero_inv n R u v : walk n R u v 0 → v = u.
Proof. by inversion 1. Qed.

Lemma walk_succ_inv n R u w k :
  walk n R u w (S k) → ∃ v, walk n R u v k ∧ R v w.
Proof. inversion 1; subst; eauto. Qed.

(** Walks compose, and over a symmetric relation they reverse. *)
Lemma walk_app n R u v w j k :
  walk n R u v j → walk n R v w k → walk n R u w (j + k).
Proof.
  intros Huv. induction 1 as [|x y k _ IH Hxy].
  - by rewrite Nat.add_0_r.
  - rewrite Nat.add_succ_r. by econstructor.
Qed.

Lemma walk_end_lt n R u v k :
  (∀ a b, R a b → b < n) → walk n R u v k → v < n.
Proof. intros HR. destruct 1; eauto. Qed.

Lemma walk_rev n R u v k :
  (∀ a b, R a b → R b a) → (∀ a b, R a b → b < n) →
  walk n R u v k → walk n R v u k.
Proof.
  intros Hsym Hlt. induction 1 as [|x y k Hux IH Hxy]; [by constructor|].
  replace (S k) with (1 + k) by done.
  apply walk_app with x; [|done].
  apply walk_step with y; [constructor; eauto|by apply Hsym].
Qed.

Lemma shortest_unique n R u v d d' :
  shortest n R u v d → shortest n R u v d' → d = d'.
Proof. intros [H1 H2] [H3 H4]. apply H2 in H3. apply H4 in H1. lia. Qed.

Lemma edgeb_sym adj u v : edgeb adj u v = edgeb adj v u.
Proof. unfold edgeb. apply orb_comm. Qed.

Lemma edge_sym adj u v : edge adj u v → edge adj v u.
Proof. unfold edge. rewrite (edgeb_sym adj u v). tauto. Qed.

Lemma edge_lt adj u v : edge adj u v → v < length adj.
Proof. unfold edge. tauto. Qed.

(** In an undirected graph shortest distances are symmetric. *)
Lemma adj_shortest_sym adj u v d : adj_shortest adj u v d → adj_shortest adj v u d.
Proof.
  intros [Hw Hmin]. split.
  - apply walk_rev; eauto using edge_sym, edge_lt.
  - intros k Hk. apply Hmin. apply walk_rev; eauto using edge_sym, edge_lt.
Qed.

Lemma adj_shortest_refl adj u : u < length adj → adj_shortest adj u u 0.
Proof. intros Hu. split; [by constructor|lia]. Qed.

(** ** The graph built from the array *)

Lemma from_numpy_array_length adj G :
  from_numpy_array adj = Ok G → length G = length adj.
Proof.
  unfold from_numpy_array. case_match; [|done]. intros [= <-].
  by rewrite length_fmap, length_seq.
Qed.

Lemma from_numpy_array_adj adj G v w :
  from_numpy_array adj = Ok G → w ∈ G_adj G v ↔ edge adj v w.
Proof.
  unfold from_numpy_array. case_match; [|done]. intros [= <-].
  unfold G_adj, edge. rewrite list_lookup_fmap.
  destruct (decide (v < length adj)) as [Hv|Hv].
  - rewrite lookup_seq_lt by done. simpl.
    rewrite list_elem_of_filter, elem_of_seq. intuition lia.
  - rewrite lookup_seq_ge by lia. simpl.
    split; [by intros ?%not_elem_of_nil|lia].
Qed.

Lemma from_numpy_array_square adj :
  square adj → ∃ G, from_numpy_array adj = Ok G.
Proof.
  intros Hsq. unfold from_numpy_array.
  assert (forallb (λ row, length row =? length adj) adj = true) as ->; [|eauto].
  apply forallb_forall. intros row Hrow%list_elem_of_In.
  apply Nat.eqb_eq. by eapply (proj1 (Forall_forall _ _) Hsq).
Qed.

(** ** The breadth-first search finds shortest paths *)

Section bfs.
Variable G : graph.
Variable source : nat.
Hypothesis G_closed : ∀ v w, w ∈ G_adj G v → w < length G.
Hypothesis source_lt : source < length G.

Local Abbreviation E := (λ v w, w ∈ G_adj G v).
Local Abbreviation W := (walk (length G) E source).

(** What holds of the accumulator while one level is expanded: [P0] and the
    level [F] (all at depth [L]) are what the round started from. *)
Definition step_inv (P0 : paths_t) (F : list nat) (L : nat)
  (acc : paths_t * list nat) : Prop :=
  P0 ⊆ acc.1 ∧
  (∀ w p, P0 !! w = None → acc.1 !! w = Some p →
     length p = S (S L) ∧ ∃ v, v ∈ F ∧ w ∈ G_adj G v) ∧
  (∀ w, w ∈ acc.2 ↔ P0 !! w = None ∧ is_Some (acc.1 !! w)) ∧
  size acc.1 = size P0 + length acc.2.

Lemma visit_mono v acc w x :
  is_Some (acc.1 !! x) → is_Some ((visit v acc w).1 !! x).
Proof.
  unfold visit. destruct (acc.1 !! w) eqn:Hw; [done|]. simpl.
  destruct (decide (w = x)) as [->|Hne].
  - rewrite lookup_insert_eq. eauto.
  - by rewrite lookup_insert_ne.
Qed.

Lemma visit_covers v acc w : is_Some ((visit v acc w).1 !! w).
Proof.
  unfold visit. destruct (acc.1 !! w) eqn:Hw; [by rewrite Hw; eauto|].
  simpl. rewrite lookup_insert_eq. eauto.
Qed.

Lemma visit_inv P0 F L v acc w :
  (∀ v, v ∈ F → ∃ p, P0 !! v = Some p ∧ length p = S L) →
  v ∈ F → w ∈ G_adj G v →
  step_inv P0 F L acc → step_inv P0 F L (visit v acc w).
Proof.
  intros HF Hv Hvw (Hsub & Hnew & Hnext & Hsize).
  unfold visit. destruct (acc.1 !! w) eqn:Hw; [done|].
  destruct (HF v Hv) as (pv & Hpv & Hlen).
  assert (acc.1 !! v = Some pv) as -> by (by eapply lookup_weaken).
  assert (P0 !! w = None) as Hw0.
  { destruct (P0 !! w) eqn:H0; [|done].
    eapply lookup_weaken in H0; [|done]. congruence. }
  split_and!; simpl.
  - etrans; [done|]. by apply insert_subseteq.
  - intros x p Hx0. destruct (decide (w = x)) as [->|Hne].
    + rewrite lookup_insert_eq. intros [= <-].
      rewrite length_app. simpl. split; [lia|eauto].
    + rewrite lookup_insert_ne by done. by apply Hnew.
  - intros x. rewrite elem_of_app, list_elem_of_singleton, Hnext.
    destruct (decide (w = x)) as [->|Hne].
    + rewrite lookup_insert_eq. intuition eauto.
    + rewrite lookup_insert_ne by done. intuition congruence.
  - rewrite map_size_insert_None, length_app by done. simpl. lia.
Qed.

(** The inner loop, over the neighbours of one node of the level. *)
Lemma visit_loop P0 F L v ws acc :
  (∀ v, v ∈ F → ∃ p, P0 !! v = Some p ∧ length p = S L) →
  v ∈ F → (∀ w, w ∈ ws → w ∈ G_adj G v) →
  step_inv P0 F L acc →
  step_inv P0 F L (fold_left (visit v) ws acc) ∧
  (∀ x, is_Some (acc.1 !! x) → is_Some ((fold_left (visit v) ws acc).1 !! x)) ∧
  (∀ w, w ∈ ws → is_Some ((fold_left (visit v) ws acc).1 !! w)).
Proof.
  intros HF Hv. revert acc. induction ws as [|w ws IH]; intros acc Hws Hinv; simpl.
  - split_and!; [done|done|]. by intros w ?%not_elem_of_nil.
  - destruct (IH (visit v acc w)) as (IH1 & IH2 & IH3).
    { intros x Hx. apply Hws. by right. }
    { apply visit_inv; [done|done| |done]. apply Hws. by left. }
    split_and!; [done| |].
    + intros x Hx. by apply IH2, visit_mono.
    + intros x [->|Hx]%elem_of_cons; [|by apply IH3].
      apply IH2, visit_covers.
Qed.

(** The outer loop, over the nodes of the level. *)
Lemma level_loop P0 F L vs acc :
  (∀ v, v ∈ F → ∃ p, P0 !! v = Some p ∧ length p = S L) →
  (∀ v, v ∈ vs → v ∈ F) →
  step_inv P0 F L acc →
  let acc' := fold_left (λ acc v, fold_left (visit v) (G_adj G v) acc) vs acc in
  step_inv P0 F L acc' ∧
  (∀ x, is_Some (acc.1 !! x) → is_Some (acc'.1 !! x)) ∧
  (∀ v w, v ∈ vs → w ∈ G_adj G v → is_Some (acc'.1 !! w)).
Proof.
  intros HF. revert acc. induction vs as [|v vs IH]; intros acc Hvs Hinv; simpl.
  - split_and!; [done|done|]. by intros v w ?%not_elem_of_nil.
  - destruct (visit_loop P0 F L v (G_adj G v) acc) as (V1 & V2 & V3);
      [done|apply Hvs; by left|done|done|].
    destruct (IH (fold_left (visit v) (G_adj G v) acc)) as (IH1 & IH2 & IH3);
      [intros x Hx; apply Hvs; by right|done|].
    split_and!; [done| |].
    + intros x Hx. by apply IH2, V2.
    + intros x w [->|Hx]%elem_of_cons Hw; [|by eapply IH3].
      by apply IH2, V3.
Qed.

Lemma step_inv_init P0 F L : step_inv P0 F L (P0, []).
Proof.
  split_and!; simpl; [done| | |lia].
  - intros w p -> ?. done.
  - intros w. split; [by intros ?%not_elem_of_nil|].
    intros [-> [? ?]]. done.
Qed.

(** What holds at the head of the [while] loop after [L] rounds. *)
Definition bfs_inv (L : nat) (F : list nat) (P : paths_t) : Prop :=
  (∀ w p, P !! w = Some p →
     ∃ d, length p = S d ∧ d ≤ L ∧ shortest (length G) E source w d) ∧
  (∀ w k, W w k → k ≤ L → is_Some (P !! w)) ∧
  (∀ w, w ∈ F ↔ ∃ p, P !! w = Some p ∧ length p = S L).

Lemma bfs_inv_init : bfs_inv 0 [source] {[source := [source]]}.
Proof.
  split_and!.
  - intros w p [<- <-]%lookup_singleton_Some. exists 0.
    split_and!; [done|done|]. split; [by constructor|lia].
  - intros w k Hw Hk. assert (k = 0) as -> by lia.
    apply walk_zero_inv in Hw as ->. rewrite lookup_singleton_eq. eauto.
  - intros w. rewrite list_elem_of_singleton. split.
    + intros ->. exists [source]. by rewrite lookup_singleton_eq.
    + intros (p & [<- _]%lookup_singleton_Some & _). done.
Qed.

Lemma bfs_inv_step L F P :
  bfs_inv L F P →
  bfs_inv (S L) (expand_level G F P).2 (expand_level G F P).1 ∧
  size (expand_level G F P).1 = size P + length (expand_level G F P).2.
Proof.
  intros (I1 & I2 & I3).
  assert (∀ v, v ∈ F → ∃ p, P !! v = Some p ∧ length p = S L) as HF
    by (intros v; apply I3).
  destruct (level_loop P F L F (P, []) HF) as (S1 & _ & S3);
    [done|apply step_inv_init|].
  fold (expand_level G F P) in S1, S3.
  destruct S1 as (Hsub & Hnew & Hnext & Hsize).
  split; [|done]. split_and!.
  - intros w p Hp. destruct (P !! w) as [p0|] eqn:Hw.
    + eapply lookup_weaken in Hw as Hw'; [|done].
      assert (p0 = p) as -> by congruence.
      destruct (I1 w p Hw) as (d & ? & ? & ?). exists d. split_and!; [done|lia|done].
    + destruct (Hnew w p Hw Hp) as (Hlen & v & Hv & Hvw).
      exists (S L). split_and!; [done|done|].
      destruct (HF v Hv) as (pv & Hpv & Hlv).
      destruct (I1 v pv Hpv) as (d & Hd & _ & Hwalk & _).
      assert (d = L) as -> by lia.
      split; [by econstructor|].
      intros k Hk. destruct (decide (k ≤ L)) as [Hle|]; [|lia].
      destruct (I2 w k Hk Hle) as [? ?]. congruence.
  - intros w k Hw Hk. destruct (decide (k ≤ L)) as [Hle|Hgt].
    { destruct (I2 w k Hw Hle) as [p Hp]. exists p. by eapply lookup_weaken. }
    assert (k = S L) as -> by lia.
    apply walk_succ_inv in Hw as (v & Hv & Hvw).
    destruct (I2 v L Hv) as [pv Hpv]; [done|].
    destruct (I1 v pv Hpv) as (d & Hd & HdL & Hwalk & _).
    destruct (decide (d = L)) as [->|Hne].
    + eapply S3; [|done]. apply I3. eauto.
    + destruct (I2 w (S d)) as [p Hp]; [by econstructor|lia|].
      exists p. by eapply lookup_weaken.
  - intros w. rewrite Hnext. split.
    + intros [Hw [p Hp]]. exists p. split; [done|]. by apply (Hnew w p).
    + intros (p & Hp & Hlen). split; [|by eauto].
      destruct (P !! w) as [p0|] eqn:Hw; [|done].
      eapply lookup_weaken in Hw as Hw'; [|done].
      assert (p0 = p) as -> by congruence.
      destruct (I1 w p Hw) as (d & ? & ? & _). lia.
Qed.

(** When the level is empty, every node that can be reached has its path. *)
Lemma bfs_inv_done L P w k : bfs_inv L [] P → W w k → is_Some (P !! w).
Proof.
  intros (I1 & I2 & I3). induction 1 as [|v w k Hv IH Hvw].
  - apply (I2 source 0); [by constructor|lia].
  - destruct IH as [pv Hpv].
    destruct (I1 v pv Hpv) as (d & Hd & HdL & Hwalk & _).
    destruct (decide (d = L)) as [->|Hne].
    + exfalso. eapply not_elem_of_nil, I3. eauto.
    + apply (I2 w (S d)); [by econstructor|lia].
Qed.

Lemma bfs_inv_size L F P : bfs_inv L F P → size P ≤ length G.
Proof.
  intros (I1 & _ & _).
  rewrite <-(size_dom (D:=gset nat)), <-(size_set_seq (C:=gset nat) 0 (length G)).
  apply subseteq_size. intros w [p Hp]%elem_of_dom.
  apply elem_of_set_seq. split; [lia|]. simpl.
  destruct (I1 w p Hp) as (d & _ & _ & Hwalk & _).
  eapply walk_end_lt; [|done]. intros a b. apply G_closed.
Qed.

(** The paths the search ends with: one per reachable node, each as long as
    the shortest distance. *)
Definition bfs_result (P : paths_t) : Prop :=
  (∀ w p, P !! w = Some p →
     ∃ d, length p = S d ∧ shortest (length G) E source w d) ∧
  (∀ w k, W w k → is_Some (P !! w)).

(** The loop ends within the rounds it is given. *)
Lemma single_shortest_path_run fuel : ∀ L F P,
  bfs_inv L F P →
  F = [] ∨ length G + 1 ≤ fuel + size P →
  ∃ P', single_shortest_path fuel G F P = Some P' ∧ bfs_result P'.
Proof.
  assert (∀ fuel L P, bfs_inv L [] P →
    ∃ P', single_shortest_path fuel G [] P = Some P' ∧ bfs_result P') as Hdone.
  { intros f L P Hinv. exists P. split; [by destruct f|]. split.
    - intros w p Hp. destruct Hinv as (I1 & _).
      destruct (I1 w p Hp) as (d & ? & _ & ?). eauto.
    - intros w k. by apply bfs_inv_done with L. }
  induction fuel as [|fuel IH]; intros L F P Hinv Hfuel.
  - destruct F as [|v F]; [by eapply Hdone|].
    apply bfs_inv_size in Hinv. destruct Hfuel as [?|?]; [done|lia].
  - destruct F as [|v F]; [by eapply Hdone|]. simpl.
    destruct (bfs_inv_step L (v :: F) P Hinv) as [Hinv' Hsize].
    apply (IH (S L)); [done|].
    apply bfs_inv_size in Hinv.
    destruct (expand_level G (v :: F) P).2 as [|? ?]; [by left|right].
    destruct Hfuel as [?|?]; [done|]. simpl in Hsize. lia.
Qed.

Lemma single_source_shortest_path_total :
  ∃ P, single_source_shortest_path G source = Some P ∧ bfs_result P.
Proof.
  apply (single_shortest_path_run _ 0); [apply bfs_inv_init|].
  right. rewrite map_size_singleton. lia.
Qed.

End bfs.

(** ** From the paths to the array of distances *)

Lemma res_mapM_fmap {A B} (f : A → res B) (g : A → B) (xs : list A) :
  (∀ x, x ∈ xs → f x = Ok (g x)) → res_mapM f xs = Ok (g <$> xs).
Proof.
  induction xs as [|x xs IH]; intros Hf; simpl; [done|].
  rewrite Hf by (by left). simpl. rewrite IH; [done|].
  intros y Hy. apply Hf. by right.
Qed.

Lemma list_to_map_tabulate {V} (h : nat → V) (xs : list nat) (i : nat) :
  (list_to_map ((λ x, (x, h x)) <$> xs) : gmap nat V) !! i
  = if decide (i ∈ xs) then Some (h i) else None.
Proof.
  induction xs as [|x xs IH].
  - simpl. by rewrite lookup_empty.
  - rewrite fmap_cons, list_to_map_cons. cbn [fst snd].
    destruct (decide (x = i)) as [->|Hne].
    + rewrite lookup_insert_eq. by rewrite decide_True by left.
    + rewrite lookup_insert_ne, IH by done.
      destruct (decide (i ∈ xs)) as [Hi|Hi].
      * by rewrite decide_True by (by right).
      * rewrite decide_False; [done|]. intros [->|?]%elem_of_cons; done.
Qed.

(** The paths of the search from [u], none when it has no result. *)
Definition paths_from (G : graph) (u : nat) : paths_t :=
  default ∅ (single_source_shortest_path G u).

(** The distance the source reads off them: [len(path) - 1]. *)
Definition hops (G : graph) (u v : nat) : Z :=
  (Z.of_nat (length (default [] (paths_from G u !! v))) - 1)%Z.

Section distances.
Variable adj : matrix.
Variable G : graph.
Hypothesis G_from : from_numpy_array adj = Ok G.

Lemma G_closed v w : w ∈ G_adj G v → w < length G.
Proof.
  rewrite (from_numpy_array_length _ _ G_from).
  intros H%(from_numpy_array_adj _ _ _ _ G_from). by eapply edge_lt.
Qed.

Lemma paths_from_result u :
  u < length G →
  single_source_shortest_path G u = Some (paths_from G u) ∧
  bfs_result G u (paths_from G u).
Proof.
  intros Hu. unfold paths_from.
  destruct (single_source_shortest_path_total G u G_closed Hu) as (P & -> & HP).
  done.
Qed.

Lemma all_pairs_shortest_path_total :
  all_pairs_shortest_path G
  = Ok ((λ u, (u, paths_from G u)) <$> seq 0 (length G)).
Proof.
  apply res_mapM_fmap. intros u [_ Hu]%elem_of_seq.
  by destruct (paths_from_result u) as [-> _].
Qed.

Lemma walk_G u v k :
  walk (length G) (λ v w, w ∈ G_adj G v) u v k ↔ adj_walk adj u v k.
Proof.
  unfold adj_walk. rewrite <-(from_numpy_array_length _ _ G_from).
  split; apply walk_iff; intros a b;
    by rewrite (from_numpy_array_adj _ _ _ _ G_from).
Qed.

(** A node that can be reached has a path, as long as the distance. *)
Lemma hops_shortest u v k :
  adj_walk adj u v k → ∃ d, hops G u v = Z.of_nat d ∧ adj_shortest adj u v d.
Proof.
  intros Hk. assert (u < length G) as Hu.
  { rewrite (from_numpy_array_length _ _ G_from). by eapply walk_start_lt. }
  destruct (paths_from_result u Hu) as [_ [Hlen Hall]].
  destruct (Hall v k) as [p Hp]; [by apply walk_G|].
  destruct (Hlen v p Hp) as (d & Hd & Hwalk & Hmin).
  exists d. split.
  - unfold hops. rewrite Hp. simpl. lia.
  - split; [by apply walk_G|]. intros k' ?. by apply Hmin, walk_G.
Qed.

Lemma paths_from_reached u v k :
  adj_walk adj u v k → is_Some (paths_from G u !! v).
Proof.
  intros Hk. assert (u < length G) as Hu.
  { rewrite (from_numpy_array_length _ _ G_from). by eapply walk_start_lt. }
  destruct (paths_from_result u Hu) as [_ [_ Hall]].
  apply (Hall v k). by apply walk_G.
Qed.

Lemma dist_dict_lookup u :
  dist_dict_of ((λ u, (u, paths_from G u)) <$> seq 0 (length G)) !! u
  = if decide (u < length G)
    then Some ((λ path : list nat, Z.of_nat (length path) - 1)%Z <$> paths_from G u)
    else None.
Proof.
  unfold dist_dict_of. rewrite <-list_fmap_compose.
  pose proof (list_to_map_tabulate
    (λ u, (λ path : list nat, Z.of_nat (length path) - 1)%Z <$> paths_from G u)
    (seq 0 (length G)) u) as Hlookup.
  etrans; [exact Hlookup|]. clear Hlookup.
  destruct (decide (u < length G)).
  - rewrite decide_True; [done|]. apply elem_of_seq. lia.
  - rewrite decide_False; [done|]. rewrite elem_of_seq. lia.
Qed.

(** On a connected graph no lookup fails, and the rows are the distances. *)
Lemma dist_rows_connected :
  connected adj →
  dist_rows (dist_dict_of ((λ u, (u, paths_from G u)) <$> seq 0 (length G)))
            (Z.of_nat (length adj))
  = Ok ((λ i, (λ j, hops G i j) <$> seq 0 (length adj)) <$> seq 0 (length adj)).
Proof.
  intros Hconn. unfold dist_rows, range. rewrite Nat2Z.id.
  apply res_mapM_fmap. intros i [_ Hi]%elem_of_seq. simpl in Hi.
  apply res_mapM_fmap. intros j [_ Hj]%elem_of_seq. simpl in Hj.
  unfold getitem. rewrite dist_dict_lookup.
  rewrite decide_True by (by rewrite (from_numpy_array_length _ _ G_from)).
  simpl. rewrite lookup_fmap.
  destruct (Hconn i j Hi Hj) as [k Hk].
  destruct (paths_from_reached i j k Hk) as [p Hp].
  unfold hops. by rewrite Hp.
Qed.

End distances.

Lemma at2_tabulate (h : nat → nat → Z) n i j :
  i < n → j < n →
  at2 ((λ i, (λ j, h i j) <$> seq 0 n) <$> seq 0 n) i j = Some (h i j).
Proof.
  intros Hi Hj. unfold at2.
  rewrite list_lookup_fmap, lookup_seq_lt by done. simpl.
  by rewrite list_lookup_fmap, lookup_seq_lt.
Qed.

(** A check of connectedness by running the searches. *)
Definition connectedb (adj : matrix) : bool :=
  match from_numpy_array adj with
  | Ok G =>
      forallb (λ u, forallb (λ v, bool_decide (is_Some (paths_from G u !! v)))
                      (seq 0 (length adj)))
              (seq 0 (length adj))
  | Raise _ => false
  end.

Lemma connectedb_sound adj : connectedb adj = true → connected adj.
Proof.
  unfold connectedb. destruct (from_numpy_array adj) as [G|e] eqn:HG; [|done].
  intros Hall u v Hu Hv.
  rewrite forallb_forall in Hall.
  specialize (Hall u). rewrite forallb_forall in Hall.
  assert (is_Some (paths_from G u !! v)) as [p Hp].
  { eapply bool_decide_eq_true_1, Hall; apply in_seq; lia. }
  assert (u < length G) as HuG by (by rewrite (from_numpy_array_length _ _ HG)).
  destruct (paths_from_result adj G HG u HuG) as [_ [Hlen _]].
  destruct (Hlen v p Hp) as (k & _ & Hwalk & _).
  exists k. by apply (walk_G adj G HG).
Qed.

(** ** What a caller sees *)

(** What [cache['graphormer']] holds, read through the cache. *)
Definition cached (c : loc) (s : state) : option obj :=
  match heap s !! c with
  | Some (ODict d) => d !! graphormer_key ≫= λ l, heap s !! l
  | _ => None
  end.

(** [a[i][j] = v] done by a caller on an array it was handed, in place. *)
Definition ndarray_setitem (a : loc) (i j : nat) (v : Z) : M unit :=
  λ s, match heap s !! a with
       | Some (ONdarray m) =>
           match m !! i with
           | Some row =>
               if decide (j < length row)
               then (Ok tt, mkState (<[a := ONdarray (<[i := <[j := v]> row]> m)]> (heap s))
                                    (sp_calls s))
               else (Raise IndexError, s)
           | None => (Raise IndexError, s)
           end
       | _ => (Raise AttributeError, s)
       end.

(** The claim that the returned array is never the cached object: whatever a
    caller writes into the array it got back, the cache still reads the same. *)
Definition never_aliases_cache : Prop :=
  ∀ adj num_nodes cache s dist lvl c' s' i j v s'',
    compute_graphormer_distances adj num_nodes cache s = (Ok (dist, lvl, c'), s') →
    ndarray_setitem dist i j v s' = (Ok tt, s'') →
    cached c' s'' = cached c' s'.

(** A path graph on two nodes, and a store holding one empty cache. *)
Definition path2 : matrix := [[0;1];[1;0]]%Z.
Definition cycle4 : matrix := [[0;1;0;1];[1;0;1;0];[0;1;0;1];[1;0;1;0]]%Z.
Definition empty_cache_state : state := mkState [ODict ∅] 0.

(** ** The two branches of [compute_graphormer_distances] *)

Lemma compute_hit adj num_nodes cache s d dist :
  heap s !! cache = Some (ODict d) → d !! graphormer_key = Some dist →
  compute_graphormer_distances adj num_nodes cache s
  = (Ok (dist, "pair"%string, cache), s).
Proof.
  intros Hc Hd. unfold compute_graphormer_distances, mbind, eff_bind, get_dict.
  by rewrite Hc, Hd.
Qed.

(** The state after a miss that computed [rows]. *)
Definition filled (cache : loc) (d : gmap string loc) (rows : matrix)
  (s : state) : state :=
  mkState (<[cache := ODict (<[graphormer_key := length (heap s)]> d)]>
             (heap s ++ [ONdarray rows]))
          (S (sp_calls s)).

Lemma compute_miss adj num_nodes cache s d :
  heap s !! cache = Some (ODict d) → d !! graphormer_key = None →
  compute_graphormer_distances adj num_nodes cache s
  = match from_numpy_array adj with
    | Raise e => (Raise e, s)
    | Ok G =>
        match all_pairs_shortest_path G
                ≫= λ paths, dist_rows (dist_dict_of paths) num_nodes with
        | Raise e => (Raise e, mkState (heap s) (S (sp_calls s)))
        | Ok rows => (Ok (length (heap s), "pair"%string, cache), filled cache d rows s)
        end
    end.
Proof.
  intros Hc Hd.
  unfold compute_graphormer_distances, mbind, eff_bind, get_dict, lift,
    count_sp_call, alloc, dict_setitem, mret, eff_ret, filled.
  rewrite Hc, Hd. destruct (from_numpy_array adj) as [G|e]; [|done].
  destruct (all_pairs_shortest_path G) as [paths|e]; [|done]. simpl.
  destruct (dist_rows (dist_dict_of paths) num_nodes) as [rows|e]; [|done].
  simpl. rewrite lookup_app_l by (by eapply lookup_lt_Some).
  by rewrite Hc.
Qed.

Lemma compute_ok_inv adj num_nodes cache s r s' :
  compute_graphormer_distances adj num_nodes cache s = (Ok r, s') →
  ∃ d, heap s !! cache = Some (ODict d) ∧
    ((∃ dist, d !! graphormer_key = Some dist ∧
        r = (dist, "pair"%string, cache) ∧ s' = s) ∨
     (∃ rows, d !! graphormer_key = None ∧
        r = (length (heap s), "pair"%string, cache) ∧ s' = filled cache d rows s)).
Proof.
  intros Hrun.
  destruct (heap s !! cache) as [[d|m]|] eqn:Hc;
    [|by unfold compute_graphormer_distances, mbind, eff_bind, get_dict in Hrun;
        rewrite Hc in Hrun..].
  exists d. split; [done|].
  destruct (d !! graphormer_key) as [dist|] eqn:Hd.
  - left. exists dist. rewrite (compute_hit _ _ _ _ d dist) in Hrun by done.
    by injection Hrun as <- <-.
  - right. rewrite (compute_miss _ _ _ _ d) in Hrun by done.
    destruct (from_numpy_array adj) as [G|e]; [|done].
    destruct (all_pairs_shortest_path G ≫= _) as [rows|e]; [|done].
    exists rows. by injection Hrun as <- <-.
Qed.

Lemma filled_cache cache d rows s :
  heap s !! cache = Some (ODict d) →
  heap (filled cache d rows s) !! cache
  = Some (ODict (<[graphormer_key := length (heap s)]> d)).
Proof.
  intros Hc. simpl. apply list_lookup_insert_eq.
  rewrite length_app. apply lookup_lt_Some in Hc. lia.
Qed.

Lemma filled_dist cache d rows s :
  heap s !! cache = Some (ODict d) →
  heap (filled cache d rows s) !! length (heap s) = Some (ONdarray rows).
Proof.
  intros Hc%lookup_lt_Some. simpl.
  rewrite list_lookup_insert_ne by lia. by apply list_lookup_middle.
Qed.

Lemma filled_frame cache d rows s l :
  l ≠ cache → l < length (heap s) →
  heap (filled cache d rows s) !! l = heap s !! l.
Proof.
  intros Hne Hl. simpl. rewrite list_lookup_insert_ne by done.
  by apply lookup_app_l.
Qed.

(** What the [else] branch computes before it touches the cache (lines 36
    to 40): the graph, the paths of the all-pairs search, the array of their
    lengths. *)
Definition distance_matrix (adj : matrix) (num_nodes : Z) : res matrix :=
  G ← from_numpy_array adj;
  paths ← all_pairs_shortest_path G;
  dist_rows (dist_dict_of paths) num_nodes.

(** A miss returns exactly when that computation does, and caches its
    result; when it raises, the store is left as it was. *)
Lemma compute_miss_matrix adj num_nodes cache s d :
  heap s !! cache = Some (ODict d) → d !! graphormer_key = None →
  match distance_matrix adj num_nodes with
  | Ok rows =>
      compute_graphormer_distances adj num_nodes cache s
      = (Ok (length (heap s), "pair"%string, cache), filled cache d rows s)
  | Raise e =>
      ∃ s', compute_graphormer_distances adj num_nodes cache s = (Raise e, s') ∧
            heap s' = heap s
  end.
Proof.
  intros Hc Hd. rewrite (compute_miss _ _ _ _ d) by done.
  unfold distance_matrix.
  destruct (from_numpy_array adj) as [G|e]; simpl; [|by eauto].
  destruct (all_pairs_shortest_path G ≫= _) as [rows|e]; [done|by eauto].
Qed.

Lemma distance_matrix_connected adj G :
  from_numpy_array adj = Ok G → connected adj →
  distance_matrix adj (Z.of_nat (length adj))
  = Ok ((λ i, (λ j, hops G i j) <$> seq 0 (length adj)) <$> seq 0 (length adj)).
Proof.
  intros HG Hconn. unfold distance_matrix. rewrite HG. simpl.
  rewrite (all_pairs_shortest_path_total adj G HG). simpl.
  by apply dist_rows_connected.
Qed.

(** ** The properties of [compute_graphormer_distances] *)

(** C2. Whatever the adjacency matrix, the node count and the cache. When the
    cache has an entry under the key ["graphormer"], that entry is returned as
    it is and nothing is computed: the store is left as it was and the
    all-pairs search is not called. When it has none, the call does what the
    computation of the distances does: if that returns an array, the call
    returns, the array is stored in a fresh object, the cache holds it under
    that key, the search was called once, and a second call with the same
    cache, on any arguments, returns the same object and changes nothing; if
    it raises, the call raises the same and nothing is cached. On a connected
    graph given by a square array with [num_nodes] rows the computation
    returns, and the array holds the shortest distances. *)
Theorem compute_graphormer_distances_cache adj num_nodes cache s d :
  heap s !! cache = Some (ODict d) →
  (∀ dist, d !! graphormer_key = Some dist →
     compute_graphormer_distances adj num_nodes cache s
     = (Ok (dist, "pair"%string, cache), s)) ∧
  (d !! graphormer_key = None →
   (∀ rows, distance_matrix adj num_nodes = Ok rows →
      ∃ dist s',
        compute_graphormer_distances adj num_nodes cache s
        = (Ok (dist, "pair"%string, cache), s') ∧
        heap s !! dist = None ∧
        heap s' !! dist = Some (ONdarray rows) ∧
        heap s' !! cache = Some (ODict (<[graphormer_key := dist]> d)) ∧
        sp_calls s' = S (sp_calls s) ∧
        ∀ adj' num_nodes',
          compute_graphormer_distances adj' num_nodes' cache s'
          = (Ok (dist, "pair"%string, cache), s')) ∧
   (∀ e, distance_matrix adj num_nodes = Raise e →
      ∃ s', compute_graphormer_distances adj num_nodes cache s = (Raise e, s') ∧
            heap s' = heap s) ∧
   (square adj → num_nodes = Z.of_nat (length adj) → connected adj →
      ∃ rows, distance_matrix adj num_nodes = Ok rows ∧
        length rows = length adj ∧
        ∀ i j, i < length adj → j < length adj →
          ∃ k, at2 rows i j = Some (Z.of_nat k) ∧ adj_shortest adj i j k)).
Proof.
  intros Hc. split.
  - intros dist Hd. by apply compute_hit with d.
  - intros Hd.
    pose proof (compute_miss_matrix adj num_nodes cache s d Hc Hd) as Hrun.
    split_and!.
    + intros rows Hrows. rewrite Hrows in Hrun.
      exists (length (heap s)), (filled cache d rows s). split_and!.
      * done.
      * by apply lookup_ge_None.
      * by apply filled_dist.
      * by apply filled_cache.
      * done.
      * intros adj' num_nodes'.
        apply compute_hit with (<[graphormer_key := length (heap s)]> d).
        -- by apply filled_cache.
        -- apply lookup_insert_eq.
    + intros e He. by rewrite He in Hrun.
    + intros Hsq -> Hconn.
      destruct (from_numpy_array_square adj Hsq) as [G HG].
      eexists. split; [by apply (distance_matrix_connected adj G)|]. split.
      * by rewrite length_fmap, length_seq.
      * intros i j Hi Hj. destruct (Hconn i j Hi Hj) as [k Hk].
        destruct (hops_shortest adj G HG i j k Hk) as (dd & Hdd & Hsh).
        exists dd. split; [|done]. by rewrite at2_tabulate, Hdd.
Qed.

(** The distances on the cycle 0-1-2-3-0, and a store whose cache holds
    them already. *)
Definition cycle4_rows : matrix :=
  [[0; 1; 2; 1]; [1; 0; 1; 2]; [2; 1; 0; 1]; [1; 2; 1; 0]]%Z.
Definition cached_state : state := filled 0 ∅ cycle4_rows empty_cache_state.

Lemma compute_graphormer_distances_cache_witness :
  compute_graphormer_distances path2 2 0 cached_state
  = (Ok (1, "pair"%string, 0), cached_state) ∧
  (∃ dist s',
     compute_graphormer_distances cycle4 4 0 empty_cache_state
     = (Ok (dist, "pair"%string, 0), s') ∧
     heap empty_cache_state !! dist = None ∧
     heap s' !! dist = Some (ONdarray cycle4_rows) ∧
     heap s' !! 0 = Some (ODict (<[graphormer_key := dist]> ∅)) ∧
     sp_calls s' = S (sp_calls empty_cache_state) ∧
     ∀ adj' num_nodes',
       compute_graphormer_distances adj' num_nodes' 0 s'
       = (Ok (dist, "pair"%string, 0), s')) ∧
  (∃ s', compute_graphormer_distances path2 3 0 empty_cache_state
         = (Raise KeyError, s') ∧
         heap s' = heap empty_cache_state) ∧
  (∃ rows, distance_matrix cycle4 4 = Ok rows ∧
     length rows = length cycle4 ∧
     ∀ i j, i < length cycle4 → j < length cycle4 →
       ∃ k, at2 rows i j = Some (Z.of_nat k) ∧ adj_shortest cycle4 i j k).
Proof.
  split_and!.
  - destruct (compute_graphormer_distances_cache path2 2 0 cached_state
                (<[graphormer_key := 1]> ∅) eq_refl) as [Hhit _].
    apply Hhit. reflexivity.
  - destruct (compute_graphormer_distances_cache cycle4 4 0 empty_cache_state
                ∅ eq_refl) as [_ Hmiss].
    destruct (Hmiss eq_refl) as (Hok & _ & _).
    apply Hok. vm_compute. reflexivity.
  - destruct (compute_graphormer_distances_cache path2 3 0 empty_cache_state
                ∅ eq_refl) as [_ Hmiss].
    destruct (Hmiss eq_refl) as (_ & Hraise & _).
    apply Hraise. vm_compute. reflexivity.
  - destruct (compute_graphormer_distances_cache cycle4 4 0 empty_cache_state
                ∅ eq_refl) as [_ Hmiss].
    destruct (Hmiss eq_refl) as (_ & _ & Hconn).
    apply Hconn.
    + repeat constructor.
    + reflexivity.
    + apply connectedb_sound. vm_compute. reflexivity.
Defined.

(** C3. On a connected graph given by a [num_nodes]-by-[num_nodes] adjacency
    matrix (the graph built from it is undirected), and a cache that has no
    entry yet, the call returns an array of [num_nodes] rows of [num_nodes]
    integers whose entry [(i, j)] is the number of edges on a shortest path
    between node [i] and node [j]; so the array is symmetric and its diagonal
    is zero. *)
Theorem compute_graphormer_distances_shortest adj num_nodes cache s d :
  heap s !! cache = Some (ODict d) →
  d !! graphormer_key = None →
  square adj →
  num_nodes = Z.of_nat (length adj) →
  connected adj →
  ∃ dist m s',
    compute_graphormer_distances adj num_nodes cache s
    = (Ok (dist, "pair"%string, cache), s') ∧
    heap s' !! dist = Some (ONdarray m) ∧
    length m = length adj ∧
    Forall (λ row, length row = length adj) m ∧
    (∀ i j, i < length adj → j < length adj →
       ∃ k, at2 m i j = Some (Z.of_nat k) ∧ adj_shortest adj i j k) ∧
    (∀ i j, i < length adj → j < length adj → at2 m i j = at2 m j i) ∧
    (∀ i, i < length adj → at2 m i i = Some 0%Z).
Proof.
  intros Hc Hd Hsq -> Hconn.
  destruct (from_numpy_array_square adj Hsq) as [G HG].
  set (m := (λ i, (λ j, hops G i j) <$> seq 0 (length adj)) <$> seq 0 (length adj)).
  assert (∀ i j, i < length adj → j < length adj →
            ∃ k, at2 m i j = Some (Z.of_nat k) ∧ adj_shortest adj i j k) as Hent.
  { intros i j Hi Hj. destruct (Hconn i j Hi Hj) as [k Hk].
    destruct (hops_shortest adj G HG i j k Hk) as (dd & Hdd & Hsh).
    exists dd. split; [|done]. unfold m. by rewrite at2_tabulate, Hdd. }
  exists (length (heap s)), m, (filled cache d m s). split_and!.
  - rewrite (compute_miss _ _ _ _ d), HG by done.
    rewrite (all_pairs_shortest_path_total adj G HG). simpl.
    by rewrite (dist_rows_connected adj G HG Hconn).
  - by apply filled_dist.
  - unfold m. by rewrite length_fmap, length_seq.
  - apply Forall_forall. intros row (i & -> & _)%list_elem_of_fmap.
    by rewrite length_fmap, length_seq.
  - done.
  - intros i j Hi Hj.
    destruct (Hent i j Hi Hj) as (k & -> & Hk).
    destruct (Hent j i Hj Hi) as (k' & -> & Hk').
    apply adj_shortest_sym in Hk'.
    by rewrite (shortest_unique _ _ _ _ _ _ Hk Hk').
  - intros i Hi. destruct (Hent i i Hi Hi) as (k & -> & Hk).
    by rewrite (shortest_unique _ _ _ _ _ _ Hk (adj_shortest_refl adj i Hi)).
Qed.

Lemma compute_graphormer_distances_shortest_witness :
  ∃ dist m s',
    compute_graphormer_distances cycle4 4 0 empty_cache_state
    = (Ok (dist, "pair"%string, 0), s') ∧
    heap s' !! dist = Some (ONdarray m) ∧
    length m = length cycle4 ∧
    Forall (λ row, length row = length cycle4) m ∧
    (∀ i j, i < length cycle4 → j < length cycle4 →
       ∃ k, at2 m i j = Some (Z.of_nat k) ∧ adj_shortest cycle4 i j k) ∧
    (∀ i j, i < length cycle4 → j < length cycle4 → at2 m i j = at2 m j i) ∧
    (∀ i, i < length cycle4 → at2 m i i = Some 0%Z).
Proof.
  apply (compute_graphormer_distances_shortest cycle4 4 0 empty_cache_state ∅).
  - reflexivity.
  - reflexivity.
  - repeat constructor.
  - reflexivity.
  - apply connectedb_sound. vm_compute. reflexivity.
Defined.

(** The example of the specification: on the cycle 0-1-2-3-0 the distances
    are 1 between neighbours, 2 across, and 0 on the diagonal. *)
Example cycle4_distances :
  ∃ s', compute_graphormer_distances cycle4 4 0 empty_cache_state
        = (Ok (1, "pair"%string, 0), s') ∧
        heap s' !! 1 = Some (ONdarray [[0;1;2;1];[1;0;1;2];[2;1;0;1];[1;2;1;0]]%Z).
Proof. eexists. split; vm_compute; reflexivity. Qed.

(** A graph in two pieces: the lookup of a distance that was never recorded
    raises [KeyError], and nothing is cached. *)
Example disconnected_raises :
  compute_graphormer_distances [[0;0];[0;0]]%Z 2 0 empty_cache_state
  = (Raise KeyError, mkState [ODict ∅] 1).
Proof. vm_compute. reflexivity. Qed.

(** C9, as stated, fails: the array handed back is the object the cache
    holds, so a write into it by the caller is read back through the cache. *)
Lemma never_aliases_cache_fails : ¬ never_aliases_cache.
Proof.
  intros Hclaim.
  pose (s' := filled 0 ∅ path2 empty_cache_state).
  pose (s'' := (ndarray_setitem 1 0 1 7 s').2).
  assert (cached 0 s'' = cached 0 s') as Heq.
  { apply (Hclaim path2 2%Z 0 empty_cache_state 1 "pair"%string 0 s' 0 1 7%Z s'');
      vm_compute; reflexivity. }
  vm_compute in Heq. discriminate Heq.
Qed.

(** C9, amended. When the call returns, the reference it returns is the one
    the cache holds under ["graphormer"], on a hit and on a miss alike; every
    object the store already held, the cache apart, is left as it was; and
    after a caller writes [v] at [(i, j)] of the returned array, reading the
    entry of the cache gives that very array, with [v] at [(i, j)]. *)
Theorem returned_array_is_cached adj num_nodes cache s dist lvl c' s' :
  compute_graphormer_distances adj num_nodes cache s = (Ok (dist, lvl, c'), s') →
  c' = cache ∧
  (∃ d', heap s' !! cache = Some (ODict d') ∧ d' !! graphormer_key = Some dist) ∧
  (∀ l, l ≠ cache → l < length (heap s) → heap s' !! l = heap s !! l) ∧
  (∀ i j v s'', ndarray_setitem dist i j v s' = (Ok tt, s'') →
     ∃ m, heap s'' !! dist = Some (ONdarray m) ∧
          cached cache s'' = Some (ONdarray m) ∧
          at2 m i j = Some v).
Proof.
  intros Hrun.
  destruct (compute_ok_inv _ _ _ _ _ _ Hrun) as (d & Hc & Hcases).
  assert (c' = cache ∧ ∃ d', heap s' !! cache = Some (ODict d') ∧
            d' !! graphormer_key = Some dist) as [-> (d' & Hc' & Hd')].
  { destruct Hcases as [(dist' & Hd & [= -> -> ->] & ->)
                       |(rows & Hd & [= -> -> ->] & ->)].
    - eauto.
    - split; [done|]. eexists. split; [by apply filled_cache|].
      apply lookup_insert_eq. }
  split_and!; [done|by eauto| |].
  - destruct Hcases as [(? & _ & _ & ->)|(rows & _ & _ & ->)]; [done|].
    intros l ? ?. by apply filled_frame.
  - intros i j v s'' Hset. unfold ndarray_setitem in Hset.
    destruct (heap s' !! dist) as [[?|m]|] eqn:Hdist; try done.
    destruct (m !! i) as [row|] eqn:Hrow; [|done].
    case_decide as Hj; [|done]. injection Hset as <-.
    assert (dist ≠ cache) as Hne by congruence.
    exists (<[i := <[j := v]> row]> m). simpl. split_and!.
    + apply list_lookup_insert_eq. by eapply lookup_lt_Some.
    + unfold cached. simpl. rewrite list_lookup_insert_ne by done.
      rewrite Hc', Hd'. simpl.
      apply list_lookup_insert_eq. by eapply lookup_lt_Some.
    + unfold at2. rewrite list_lookup_insert_eq by (by eapply lookup_lt_Some).
      simpl. by apply list_lookup_insert_eq.
Qed.

Lemma returned_array_is_cached_witness :
  0 = 0 ∧
  (∃ d', heap (filled 0 ∅ path2 empty_cache_state) !! 0 = Some (ODict d') ∧
         d' !! graphormer_key = Some 1) ∧
  (∀ l, l ≠ 0 → l < length (heap empty_cache_state) →
        heap (filled 0 ∅ path2 empty_cache_state) !! l = heap empty_cache_state !! l) ∧
  (∀ i j v s'',
     ndarray_setitem 1 i j v (filled 0 ∅ path2 empty_cache_state) = (Ok tt, s'') →
     ∃ m, heap s'' !! 1 = Some (ONdarray m) ∧
          cached 0 s'' = Some (ONdarray m) ∧
          at2 m i j = Some v).
Proof.
  apply (returned_array_is_cached path2 2 0 empty_cache_state 1 "pair"%string 0).
  vm_compute. reflexivity.
Defined.

(** ** Further properties *)

Lemma res_mapM_raise {A B} (f : A → res B) (xs : list A) e :
  (∀ x, x ∈ xs → (∃ y, f x = Ok y) ∨ f x = Raise e) →
  (∃ x, x ∈ xs ∧ f x = Raise e) →
  res_mapM f xs = Raise e.
Proof.
  induction xs as [|x xs IH]; intros Hall [x0 [Hin Hx0]].
  - by apply not_elem_of_nil in Hin.
  - simpl. destruct (Hall x) as [[y Hy]|Hx]; [by left| |by rewrite Hx].
    rewrite Hy. simpl. rewrite IH; [done| |].
    + intros z Hz. apply Hall. by right.
    + apply elem_of_cons in Hin as [->|Hin]; [congruence|eauto].
Qed.

Lemma res_mapM_ok_or_raise {A B} (f : A → res B) (xs : list A) e :
  (∀ x, x ∈ xs → (∃ y, f x = Ok y) ∨ f x = Raise e) →
  (∃ ys, res_mapM f xs = Ok ys) ∨ res_mapM f xs = Raise e.
Proof.
  induction xs as [|x xs IH]; intros Hall; [left; by eexists|].
  simpl. destruct (Hall x) as [[y Hy]|Hx]; [by left| |right; by rewrite Hx].
  rewrite Hy. simpl.
  destruct IH as [[ys Hys]|Hr]; [intros z Hz; apply Hall; by right| |].
  - left. rewrite Hys. by eexists.
  - right. by rewrite Hr.
Qed.

(** The searches never run out of rounds: on the graph of a square array,
    the all-pairs search returns the paths of one search per node. *)
Theorem all_pairs_search_returns adj G :
  from_numpy_array adj = Ok G →
  ∃ paths, all_pairs_shortest_path G = Ok paths ∧
           length paths = length adj.
Proof.
  intros HG. eexists. split; [by apply all_pairs_shortest_path_total with adj|].
  by rewrite length_fmap, length_seq, (from_numpy_array_length adj G).
Qed.

Lemma all_pairs_search_returns_witness :
  ∃ paths,
    all_pairs_shortest_path [[1; 3]; [0; 2]; [1; 3]; [0; 2]] = Ok paths ∧
    length paths = length cycle4.
Proof.
  apply (all_pairs_search_returns cycle4). reflexivity.
Defined.

Lemma cell_lookup (dd : gmap nat (gmap nat Z)) i j :
  (di ← getitem dd i; getitem di j)
  = match dd !! i ≫= λ di, di !! j with
    | Some x => Ok x
    | None => Raise KeyError
    end.
Proof. unfold getitem. by destruct (dd !! i). Qed.

(** When some node cannot be reached from some node, the lookup of their
    distance fails: the call raises [KeyError], and the store is left as it
    was (nothing is cached). *)
Theorem compute_graphormer_distances_disconnected adj num_nodes cache s d u v :
  heap s !! cache = Some (ODict d) →
  d !! graphormer_key = None →
  square adj →
  num_nodes = Z.of_nat (length adj) →
  u < length adj → v < length adj →
  (∀ k, ¬ adj_walk adj u v k) →
  ∃ s', compute_graphormer_distances adj num_nodes cache s = (Raise KeyError, s') ∧
        heap s' = heap s.
Proof.
  intros Hc Hd Hsq -> Hu Hv Hnone.
  destruct (from_numpy_array_square adj Hsq) as [G HG].
  eexists. rewrite (compute_miss _ _ _ _ d), HG by done.
  rewrite (all_pairs_shortest_path_total adj G HG). simpl.
  assert (dist_rows
            (dist_dict_of ((λ u, (u, paths_from G u)) <$> seq 0 (length G)))
            (Z.of_nat (length adj)) = Raise KeyError) as ->; [|done].
  unfold dist_rows, range. rewrite Nat2Z.id.
  apply res_mapM_raise.
  - intros i Hi. apply res_mapM_ok_or_raise. intros j _.
    rewrite cell_lookup. destruct (_ ≫= _); eauto.
  - exists u. split; [apply elem_of_seq; lia|].
    apply res_mapM_raise.
    + intros j _. rewrite cell_lookup. destruct (_ ≫= _); eauto.
    + exists v. split; [apply elem_of_seq; lia|].
      rewrite cell_lookup, (dist_dict_lookup G).
      rewrite decide_True by (by rewrite (from_numpy_array_length _ _ HG)).
      simpl. rewrite lookup_fmap.
      destruct (paths_from G u !! v) as [p|] eqn:Hp; [|done].
      exfalso.
      assert (u < length G) as HuG
        by (by rewrite (from_numpy_array_length _ _ HG)).
      destruct (paths_from_result adj G HG u HuG) as [_ [Hlen _]].
      destruct (Hlen v p Hp) as (k & _ & Hwalk & _).
      apply (Hnone k). by apply (walk_G adj G HG).
Qed.

(** Two nodes and no edge. *)
Definition two_isolated : matrix := [[0; 0]; [0; 0]]%Z.

Lemma two_isolated_no_walk k : ¬ adj_walk two_isolated 0 1 k.
Proof.
  assert (∀ v k, adj_walk two_isolated 0 v k → v = 0) as Hstay.
  { intros v k'. induction 1 as [|x y k'' _ IH Hxy]; [done|].
    subst x. destruct Hxy as (_ & Hy & Hedge).
    destruct y as [|[|y]]; [done|done|simpl in Hy; lia]. }
  intros Hw. by apply Hstay in Hw.
Qed.

Lemma compute_graphormer_distances_disconnected_witness :
  ∃ s', compute_graphormer_distances two_isolated 2 0 empty_cache_state
        = (Raise KeyError, s') ∧
        heap s' = heap empty_cache_state.
Proof.
  apply (compute_graphormer_distances_disconnected two_isolated 2 0
           empty_cache_state ∅ 0 1).
  - reflexivity.
  - reflexivity.
  - repeat constructor.
  - reflexivity.
  - simpl. lia.
  - simpl. lia.
  - exact two_isolated_no_walk.
Defined.

(** *** Arguments that do not fit each other *)

Lemma from_numpy_array_not_square adj :
  ¬ square adj → from_numpy_array adj = Raise NetworkXError.
Proof.
  intros Hsq. unfold from_numpy_array.
  destruct (forallb _ adj) eqn:Hall; [|done].
  exfalso. apply Hsq, Forall_forall. intros row Hrow%list_elem_of_In.
  rewrite forallb_forall in Hall. by apply Nat.eqb_eq, Hall.
Qed.

(** An array that is not square is refused by [nx.from_numpy_array]: on a
    miss the call raises [NetworkXError] before any search is made, and the
    store, the cache with it, is left exactly as it was. *)
Theorem compute_graphormer_distances_not_square adj num_nodes cache s d :
  heap s !! cache = Some (ODict d) →
  d !! graphormer_key = None →
  ¬ square adj →
  compute_graphormer_distances adj num_nodes cache s = (Raise NetworkXError, s).
Proof.
  intros Hc Hd Hsq.
  by rewrite (compute_miss _ _ _ _ d), from_numpy_array_not_square.
Qed.

Lemma paths_from_key adj G u v :
  from_numpy_array adj = Ok G → u < length G →
  is_Some (paths_from G u !! v) → v < length adj.
Proof.
  intros HG Hu [p Hp].
  destruct (paths_from_result adj G HG u Hu) as [_ [Hlen _]].
  destruct (Hlen v p Hp) as (k & _ & Hwalk & _).
  apply (walk_G adj G HG) in Hwalk.
  eapply walk_end_lt; [|exact Hwalk]. intros a b. apply edge_lt.
Qed.

(** A node count larger than the array: the distance of node [0] to the
    first node that is not in the graph is looked up and not found. The call
    raises [KeyError] and caches nothing. *)
Theorem compute_graphormer_distances_too_many_nodes adj num_nodes cache s d :
  heap s !! cache = Some (ODict d) →
  d !! graphormer_key = None →
  square adj →
  (Z.of_nat (length adj) < num_nodes)%Z →
  ∃ s', compute_graphormer_distances adj num_nodes cache s = (Raise KeyError, s') ∧
        heap s' = heap s.
Proof.
  intros Hc Hd Hsq Hnum.
  destruct (from_numpy_array_square adj Hsq) as [G HG].
  eexists. rewrite (compute_miss _ _ _ _ d), HG by done.
  rewrite (all_pairs_shortest_path_total adj G HG). simpl.
  assert (dist_rows
            (dist_dict_of ((λ u, (u, paths_from G u)) <$> seq 0 (length G)))
            num_nodes = Raise KeyError) as ->; [|done].
  unfold dist_rows, range.
  apply res_mapM_raise.
  - intros i Hi. apply res_mapM_ok_or_raise. intros j _.
    rewrite cell_lookup. destruct (_ ≫= _); eauto.
  - exists 0. split; [apply elem_of_seq; lia|].
    apply res_mapM_raise.
    + intros j _. rewrite cell_lookup. destruct (_ ≫= _); eauto.
    + exists (length adj). split; [apply elem_of_seq; lia|].
      rewrite cell_lookup, (dist_dict_lookup G).
      case_decide as H0; [|done]. simpl. rewrite lookup_fmap.
      destruct (paths_from G 0 !! length adj) as [p|] eqn:Hp; [|done].
      exfalso. assert (length adj < length adj); [|lia].
      eapply (paths_from_key adj G 0); [done|done|]. by rewrite Hp.
Qed.

(** *** A node count smaller than the array *)

(** The first [m] rows and columns of the distances the searches found. *)
Definition leading_block (G : graph) (m : nat) : matrix :=
  (λ i, (λ j, hops G i j) <$> seq 0 m) <$> seq 0 m.

(** The first [m] nodes can reach one another (through any nodes). *)
Definition block_connected (adj : matrix) (m : nat) : Prop :=
  ∀ i j, i < m → j < m → ∃ k, adj_walk adj i j k.

Definition block_connectedb (adj : matrix) (m : nat) : bool :=
  match from_numpy_array adj with
  | Ok G =>
      forallb (λ u, forallb (λ v, bool_decide (is_Some (paths_from G u !! v)))
                      (seq 0 m))
              (seq 0 m)
      && (m <=? length adj)
  | Raise _ => false
  end.

Lemma block_connectedb_sound adj m :
  block_connectedb adj m = true → block_connected adj m.
Proof.
  unfold block_connectedb. destruct (from_numpy_array adj) as [G|e] eqn:HG; [|done].
  intros [Hall Hm%Nat.leb_le]%andb_true_iff u v Hu Hv.
  rewrite forallb_forall in Hall.
  specialize (Hall u). rewrite forallb_forall in Hall.
  assert (is_Some (paths_from G u !! v)) as [p Hp].
  { eapply bool_decide_eq_true_1, Hall; apply in_seq; lia. }
  assert (u < length G) as HuG by (rewrite (from_numpy_array_length _ _ HG); lia).
  destruct (paths_from_result adj G HG u HuG) as [_ [Hlen _]].
  destruct (Hlen v p Hp) as (k & _ & Hwalk & _).
  exists k. by apply (walk_G adj G HG).
Qed.

Lemma leading_block_shape G m :
  length (leading_block G m) = m ∧
  Forall (λ row, length row = m) (leading_block G m).
Proof.
  unfold leading_block. split; [by rewrite length_fmap, length_seq|].
  apply Forall_forall. intros row (i & -> & _)%list_elem_of_fmap.
  by rewrite length_fmap, length_seq.
Qed.

Lemma leading_block_entry adj G m i j :
  from_numpy_array adj = Ok G → block_connected adj m → i < m → j < m →
  ∃ k, at2 (leading_block G m) i j = Some (Z.of_nat k) ∧ adj_shortest adj i j k.
Proof.
  intros HG Hconn Hi Hj. destruct (Hconn i j Hi Hj) as [k Hk].
  destruct (hops_shortest adj G HG i j k Hk) as (dd & Hdd & Hsh).
  exists dd. split; [|done]. unfold leading_block. by rewrite at2_tabulate, Hdd.
Qed.

Lemma dist_rows_block adj G num_nodes :
  from_numpy_array adj = Ok G →
  block_connected adj (Z.to_nat num_nodes) →
  Z.to_nat num_nodes ≤ length adj →
  dist_rows (dist_dict_of ((λ u, (u, paths_from G u)) <$> seq 0 (length G)))
            num_nodes
  = Ok (leading_block G (Z.to_nat num_nodes)).
Proof.
  intros HG Hconn Hm. unfold dist_rows, range, leading_block.
  apply res_mapM_fmap. intros i [_ Hi]%elem_of_seq. simpl in Hi.
  apply res_mapM_fmap. intros j [_ Hj]%elem_of_seq. simpl in Hj.
  unfold getitem. rewrite dist_dict_lookup.
  rewrite decide_True by (rewrite (from_numpy_array_length _ _ HG); lia).
  simpl. rewrite lookup_fmap.
  destruct (Hconn i j Hi Hj) as [k Hk].
  destruct (paths_from_reached adj G HG i j k Hk) as [p Hp].
  unfold hops. by rewrite Hp.
Qed.

Lemma compute_block_run adj G num_nodes cache s d :
  heap s !! cache = Some (ODict d) →
  d !! graphormer_key = None →
  from_numpy_array adj = Ok G →
  block_connected adj (Z.to_nat num_nodes) →
  Z.to_nat num_nodes ≤ length adj →
  compute_graphormer_distances adj num_nodes cache s
  = (Ok (length (heap s), "pair"%string, cache),
     filled cache d (leading_block G (Z.to_nat num_nodes)) s).
Proof.
  intros Hc Hd HG Hconn Hm.
  rewrite (compute_miss _ _ _ _ d), HG by done.
  rewrite (all_pairs_shortest_path_total adj G HG). simpl.
  by rewrite (dist_rows_block adj G num_nodes HG Hconn Hm).
Qed.

Lemma filled_cached cache d rows s :
  heap s !! cache = Some (ODict d) →
  cached cache (filled cache d rows s) = Some (ONdarray rows).
Proof.
  intros Hc. unfold cached. rewrite (filled_cache _ _ _ _ Hc).
  rewrite lookup_insert_eq. simpl. by apply filled_dist.
Qed.

(** A node count smaller than the array (padding nodes at the end, say): as
    long as the first [num_nodes] nodes can reach one another, the call
    returns and caches the [num_nodes]-by-[num_nodes] leading block of the
    distances in the whole graph; the nodes left out may be on the shortest
    paths, and need not be reachable. A count of zero or less gives an empty
    array, which is cached like any other. *)
Theorem compute_graphormer_distances_leading_block adj num_nodes cache s d :
  heap s !! cache = Some (ODict d) →
  d !! graphormer_key = None →
  square adj →
  (num_nodes ≤ Z.of_nat (length adj))%Z →
  block_connected adj (Z.to_nat num_nodes) →
  ∃ dist m s',
    compute_graphormer_distances adj num_nodes cache s
    = (Ok (dist, "pair"%string, cache), s') ∧
    cached cache s' = Some (ONdarray m) ∧
    heap s' !! dist = Some (ONdarray m) ∧
    length m = Z.to_nat num_nodes ∧
    Forall (λ row, length row = Z.to_nat num_nodes) m ∧
    (∀ i j, i < Z.to_nat num_nodes → j < Z.to_nat num_nodes →
       ∃ k, at2 m i j = Some (Z.of_nat k) ∧ adj_shortest adj i j k) ∧
    ((num_nodes ≤ 0)%Z → m = []).
Proof.
  intros Hc Hd Hsq Hnum Hconn.
  destruct (from_numpy_array_square adj Hsq) as [G HG].
  assert (Z.to_nat num_nodes ≤ length adj) as Hm by lia.
  exists (length (heap s)), (leading_block G (Z.to_nat num_nodes)),
    (filled cache d (leading_block G (Z.to_nat num_nodes)) s).
  destruct (leading_block_shape G (Z.to_nat num_nodes)) as [Hlen Hrows].
  split_and!.
  - by apply compute_block_run.
  - by apply filled_cached.
  - by apply filled_dist.
  - done.
  - done.
  - intros i j. by apply leading_block_entry.
  - intros Hle. apply nil_length_inv. rewrite Hlen. lia.
Qed.

(** *** The array of distances is a metric *)

Lemma edgeb_true adj u v :
  edgeb adj u v = true ↔ (entry adj u v ≠ 0 ∨ entry adj v u ≠ 0)%Z.
Proof.
  unfold edgeb. rewrite orb_true_iff, !negb_true_iff, !Z.eqb_neq. done.
Qed.

Lemma adj_shortest_zero adj u v :
  u < length adj → adj_shortest adj u v 0 ↔ u = v.
Proof.
  intros Hu. split.
  - intros [Hw _]. by apply walk_zero_inv in Hw.
  - intros <-. by apply adj_shortest_refl.
Qed.

Lemma adj_shortest_one adj u v :
  adj_shortest adj u v 1 ↔ u ≠ v ∧ edge adj u v.
Proof.
  split.
  - intros [Hw Hmin].
    apply walk_succ_inv in Hw as (x & Hx & Hxv).
    pose proof (walk_start_lt _ _ _ _ _ Hx) as Hu.
    apply walk_zero_inv in Hx as ->. split; [|done].
    intros <-. specialize (Hmin 0 (walk_here _ _ _ Hu)). lia.
  - intros [Hne Hedge]. split.
    + eapply walk_step; [|exact Hedge]. constructor. apply Hedge.
    + intros [|k] Hk; [|lia]. by apply walk_zero_inv in Hk.
Qed.

Lemma adj_shortest_triangle adj u v w a b c :
  adj_shortest adj u v a → adj_shortest adj v w b → adj_shortest adj u w c →
  c ≤ a + b.
Proof. intros [Ha _] [Hb _] [_ Hc]. by eapply Hc, walk_app. Qed.

(** The array the call returns measures the graph as a metric does: an entry
    is 0 exactly on the diagonal, it is 1 exactly between two distinct nodes
    with a nonzero entry of [adj] between them (in either direction), and no
    entry exceeds the sum of the entries along a detour through a third
    node. *)
Theorem distances_form_a_metric adj num_nodes cache s d :
  heap s !! cache = Some (ODict d) →
  d !! graphormer_key = None →
  square adj →
  (num_nodes ≤ Z.of_nat (length adj))%Z →
  block_connected adj (Z.to_nat num_nodes) →
  ∃ dist m s',
    compute_graphormer_distances adj num_nodes cache s
    = (Ok (dist, "pair"%string, cache), s') ∧
    heap s' !! dist = Some (ONdarray m) ∧
    (∀ i j, i < Z.to_nat num_nodes → j < Z.to_nat num_nodes →
       (at2 m i j = Some 0%Z ↔ i = j) ∧
       (at2 m i j = Some 1%Z ↔
          i ≠ j ∧ (entry adj i j ≠ 0 ∨ entry adj j i ≠ 0)%Z)) ∧
    (∀ i j k a b c,
       i < Z.to_nat num_nodes → j < Z.to_nat num_nodes → k < Z.to_nat num_nodes →
       at2 m i j = Some a → at2 m j k = Some b → at2 m i k = Some c →
       (c ≤ a + b)%Z).
Proof.
  intros Hc Hd Hsq Hnum Hconn.
  destruct (from_numpy_array_square adj Hsq) as [G HG].
  assert (Z.to_nat num_nodes ≤ length adj) as Hm by lia.
  exists (length (heap s)), (leading_block G (Z.to_nat num_nodes)),
    (filled cache d (leading_block G (Z.to_nat num_nodes)) s).
  split_and!.
  - by apply compute_block_run.
  - by apply filled_dist.
  - intros i j Hi Hj.
    destruct (leading_block_entry adj G _ i j HG Hconn Hi Hj) as (k & -> & Hk).
    split.
    + rewrite <-(adj_shortest_zero adj i j) by lia. split.
      * intros [= H0]. by assert (k = 0) as -> by lia.
      * intros H0. by rewrite (shortest_unique _ _ _ _ _ _ Hk H0).
    + rewrite <-edgeb_true.
      assert (i ≠ j ∧ edgeb adj i j = true ↔ adj_shortest adj i j 1) as ->.
      { rewrite adj_shortest_one. unfold edge. intuition lia. }
      split.
      * intros [= H1]. by assert (k = 1) as -> by lia.
      * intros H1. by rewrite (shortest_unique _ _ _ _ _ _ Hk H1).
  - intros i j k a b c Hi Hj Hk.
    destruct (leading_block_entry adj G _ i j HG Hconn Hi Hj) as (x & -> & Hx).
    destruct (leading_block_entry adj G _ j k HG Hconn Hj Hk) as (y & -> & Hy).
    destruct (leading_block_entry adj G _ i k HG Hconn Hi Hk) as (z & -> & Hz).
    intros [= <-] [= <-] [= <-].
    pose proof (adj_shortest_triangle _ _ _ _ _ _ _ Hx Hy Hz). lia.
Qed.

(** *** No distance reaches the number of nodes *)

Section bfs_bound.
Variable G : graph.
Variable source : nat.
Hypothesis G_closed : ∀ v w, w ∈ G_adj G v → w < length G.
Hypothesis source_lt : source < length G.

(** Every round of the search adds a node, so after [L] rounds at least
    [L] nodes besides those of the level have their paths; and no path is
    longer than the number of rounds. *)
Lemma single_shortest_path_short fuel : ∀ L F P P',
  bfs_inv G source L F P → L + length F ≤ size P →
  single_shortest_path fuel G F P = Some P' →
  ∀ w p, P' !! w = Some p → length p ≤ length G.
Proof.
  assert (∀ fuel L P P', bfs_inv G source L [] P → L ≤ size P →
    single_shortest_path fuel G [] P = Some P' →
    ∀ w p, P' !! w = Some p → length p ≤ length G) as Hdone.
  { intros f L P P' Hinv Hsz Hrun w p Hp.
    assert (P' = P) as -> by (destruct f; simpl in Hrun; congruence).
    assert (size P ≤ length G) as Hsize by (by eapply bfs_inv_size).
    destruct Hinv as (I1 & _ & I3).
    destruct (I1 w p Hp) as (k & Hk & HkL & _).
    destruct (decide (k = L)) as [->|Hne]; [|lia].
    exfalso. eapply not_elem_of_nil, I3. eauto. }
  induction fuel as [|fuel IH]; intros L F P P' Hinv Hsz Hrun.
  - destruct F as [|v F]; [|done].
    eapply Hdone; [done| |done]. simpl in Hsz. lia.
  - destruct F as [|v F].
    { eapply Hdone; [done| |done]. simpl in Hsz. lia. }
    simpl in Hrun.
    destruct (bfs_inv_step G source source_lt L (v :: F) P Hinv) as [Hinv' Hsize].
    apply (IH (S L) _ _ _ Hinv'); [|done].
    simpl in Hsz. lia.
Qed.

Lemma single_source_shortest_path_short P w p :
  single_source_shortest_path G source = Some P →
  P !! w = Some p → length p ≤ length G.
Proof.
  intros Hrun. eapply (single_shortest_path_short _ 0); [|  |exact Hrun].
  - by apply bfs_inv_init.
  - rewrite map_size_singleton. simpl. lia.
Qed.

End bfs_bound.

Lemma hops_bound adj G u v k :
  from_numpy_array adj = Ok G → adj_walk adj u v k →
  (0 ≤ hops G u v < Z.of_nat (length adj))%Z.
Proof.
  intros HG Hk. assert (u < length G) as Hu.
  { rewrite (from_numpy_array_length _ _ HG). by eapply walk_start_lt. }
  destruct (paths_from_result adj G HG u Hu) as [Hrun [Hlen _]].
  destruct (paths_from_reached adj G HG u v k Hk) as [p Hp].
  destruct (Hlen v p Hp) as (x & Hx & _).
  pose proof (single_source_shortest_path_short G u (G_closed adj G HG) Hu
                _ v p Hrun Hp) as Hle.
  rewrite (from_numpy_array_length _ _ HG) in Hle.
  unfold hops. rewrite Hp. simpl. lia.
Qed.

(** Every entry of the array the call returns is at least 0 and at most the
    number of rows of [adj] less one: a table with one row per node is
    enough to index by distance. *)
Theorem distances_are_below_the_number_of_nodes adj num_nodes cache s d :
  heap s !! cache = Some (ODict d) →
  d !! graphormer_key = None →
  square adj →
  (num_nodes ≤ Z.of_nat (length adj))%Z →
  block_connected adj (Z.to_nat num_nodes) →
  ∃ dist m s',
    compute_graphormer_distances adj num_nodes cache s
    = (Ok (dist, "pair"%string, cache), s') ∧
    heap s' !! dist = Some (ONdarray m) ∧
    ∀ i j, i < Z.to_nat num_nodes → j < Z.to_nat num_nodes →
      ∃ z, at2 m i j = Some z ∧ (0 ≤ z < Z.of_nat (length adj))%Z.
Proof.
  intros Hc Hd Hsq Hnum Hconn.
  destruct (from_numpy_array_square adj Hsq) as [G HG].
  assert (Z.to_nat num_nodes ≤ length adj) as Hm by lia.
  exists (length (heap s)), (leading_block G (Z.to_nat num_nodes)),
    (filled cache d (leading_block G (Z.to_nat num_nodes)) s).
  split_and!.
  - by apply compute_block_run.
  - by apply filled_dist.
  - intros i j Hi Hj. exists (hops G i j). split.
    + unfold leading_block. by rewrite at2_tabulate.
    + destruct (Hconn i j Hi Hj) as [k Hk]. by eapply hops_bound.
Qed.

(** *** Only the pattern of nonzero entries counts *)

Lemma from_numpy_array_pattern adj adj' :
  length adj = length adj' → square adj → square adj' →
  (∀ u v, edgeb adj u v = edgeb adj' u v) →
  from_numpy_array adj = from_numpy_array adj'.
Proof.
  intros Hlen Hsq Hsq' Hpat.
  destruct (from_numpy_array_square adj Hsq) as [G HG].
  destruct (from_numpy_array_square adj' Hsq') as [G' HG'].
  rewrite HG, HG'. f_equal.
  unfold from_numpy_array in HG, HG'.
  case_match; [|done]. case_match; [|done].
  injection HG as <-. injection HG' as <-. rewrite <-Hlen.
  apply list_fmap_ext. intros _ u _.
  apply list_filter_iff. intros v. by rewrite Hpat.
Qed.

(** The weights in [adj] and the direction of its entries play no part: two
    square arrays of the same size that are nonzero between the same pairs
    of nodes (in one direction or the other) give the same result, in the
    same store. *)
Theorem compute_graphormer_distances_ignores_weights
    adj adj' num_nodes cache s :
  length adj = length adj' → square adj → square adj' →
  (∀ u v, (entry adj u v ≠ 0 ∨ entry adj v u ≠ 0)%Z
          ↔ (entry adj' u v ≠ 0 ∨ entry adj' v u ≠ 0)%Z) →
  compute_graphormer_distances adj num_nodes cache s
  = compute_graphormer_distances adj' num_nodes cache s.
Proof.
  intros Hlen Hsq Hsq' Hpat.
  assert (from_numpy_array adj = from_numpy_array adj') as HG.
  { apply from_numpy_array_pattern; [done..|]. intros u v.
    apply eq_true_iff_eq. rewrite !edgeb_true. apply Hpat. }
  unfold compute_graphormer_distances, mbind, eff_bind, lift.
  destruct (get_dict cache s) as [[dd|e] s1]; [|done].
  destruct (dd !! graphormer_key); [done|]. by rewrite HG.
Qed.

(** *** The further properties, on small graphs *)

(** One row of two entries; the path 0 - 2 - 1, whose first two nodes are
    joined through the third only; and an arc from 0 to 1 of weight 5. *)
Definition one_row : matrix := [[0; 1]]%Z.
Definition detour3 : matrix := [[0; 0; 1]; [0; 0; 1]; [1; 1; 0]]%Z.
Definition arc2 : matrix := [[0; 5]; [0; 0]]%Z.

Lemma compute_graphormer_distances_not_square_witness :
  compute_graphormer_distances one_row 2 0 empty_cache_state
  = (Raise NetworkXError, empty_cache_state).
Proof.
  apply (compute_graphormer_distances_not_square one_row 2 0 empty_cache_state ∅).
  - reflexivity.
  - reflexivity.
  - intros H. apply Forall_inv in H. simpl in H. lia.
Defined.

Lemma compute_graphormer_distances_too_many_nodes_witness :
  ∃ s', compute_graphormer_distances path2 3 0 empty_cache_state
        = (Raise KeyError, s') ∧
        heap s' = heap empty_cache_state.
Proof.
  apply (compute_graphormer_distances_too_many_nodes path2 3 0
           empty_cache_state ∅).
  - reflexivity.
  - reflexivity.
  - repeat constructor.
  - simpl. lia.
Defined.

Lemma compute_graphormer_distances_leading_block_witness :
  ∃ dist m s',
    compute_graphormer_distances detour3 2 0 empty_cache_state
    = (Ok (dist, "pair"%string, 0), s') ∧
    cached 0 s' = Some (ONdarray m) ∧
    heap s' !! dist = Some (ONdarray m) ∧
    length m = Z.to_nat 2 ∧
    Forall (λ row, length row = Z.to_nat 2) m ∧
    (∀ i j, i < Z.to_nat 2 → j < Z.to_nat 2 →
       ∃ k, at2 m i j = Some (Z.of_nat k) ∧ adj_shortest detour3 i j k) ∧
    ((2 ≤ 0)%Z → m = []).
Proof.
  apply (compute_graphormer_distances_leading_block detour3 2 0
           empty_cache_state ∅).
  - reflexivity.
  - reflexivity.
  - repeat constructor.
  - simpl. lia.
  - apply block_connectedb_sound. vm_compute. reflexivity.
Defined.

(** The two end nodes of the path are two edges apart, through the node that
    the count leaves out. *)
Example detour3_distances :
  ∃ s', compute_graphormer_distances detour3 2 0 empty_cache_state
        = (Ok (1, "pair"%string, 0), s') ∧
        heap s' !! 1 = Some (ONdarray [[0; 2]; [2; 0]]%Z).
Proof. eexists. split; vm_compute; reflexivity. Qed.

Lemma distances_form_a_metric_witness :
  ∃ dist m s',
    compute_graphormer_distances cycle4 4 0 empty_cache_state
    = (Ok (dist, "pair"%string, 0), s') ∧
    heap s' !! dist = Some (ONdarray m) ∧
    (∀ i j, i < Z.to_nat 4 → j < Z.to_nat 4 →
       (at2 m i j = Some 0%Z ↔ i = j) ∧
       (at2 m i j = Some 1%Z ↔
          i ≠ j ∧ (entry cycle4 i j ≠ 0 ∨ entry cycle4 j i ≠ 0)%Z)) ∧
    (∀ i j k a b c,
       i < Z.to_nat 4 → j < Z.to_nat 4 → k < Z.to_nat 4 →
       at2 m i j = Some a → at2 m j k = Some b → at2 m i k = Some c →
       (c ≤ a + b)%Z).
Proof.
  apply (distances_form_a_metric cycle4 4 0 empty_cache_state ∅).
  - reflexivity.
  - reflexivity.
  - repeat constructor.
  - simpl. lia.
  - apply block_connectedb_sound. vm_compute. reflexivity.
Defined.

Lemma distances_are_below_the_number_of_nodes_witness :
  ∃ dist m s',
    compute_graphormer_distances detour3 2 0 empty_cache_state
    = (Ok (dist, "pair"%string, 0), s') ∧
    heap s' !! dist = Some (ONdarray m) ∧
    ∀ i j, i < Z.to_nat 2 → j < Z.to_nat 2 →
      ∃ z, at2 m i j = Some z ∧ (0 ≤ z < Z.of_nat (length detour3))%Z.
Proof.
  apply (distances_are_below_the_number_of_nodes detour3 2 0
           empty_cache_state ∅).
  - reflexivity.
  - reflexivity.
  - repeat constructor.
  - simpl. lia.
  - apply block_connectedb_sound. vm_compute. reflexivity.
Defined.

Lemma compute_graphormer_distances_ignores_weights_witness :
  compute_graphormer_distances path2 2 0 empty_cache_state
  = compute_graphormer_distances arc2 2 0 empty_cache_state.
Proof.
  apply (compute_graphormer_distances_ignores_weights path2 arc2 2 0
           empty_cache_state).
  - reflexivity.
  - repeat constructor.
  - repeat constructor.
  - intros [|[|u]] [|[|v]]; vm_compute; intuition congruence.
Defined.

End Graphormer.


(** * Part II: [goli/ipu/ipu_metrics.py] *)

Module IpuMetrics.

(** ** Tensor elements

    A tensor element is a number, an infinity or NaN. The numbers are
    rationals, which every value of a floating-point format is, and the
    operations below compute with them exactly: the rounding and the overflow
    of a format are not modelled, nor is the sign of zero. The special values
    behave as in IEEE 754, which is what the code relies on: NaN marks a
    missing label, and a division by a zero count gives NaN or an infinity.

    What the theorems of this part state is true of the rounded operations as
    well. Of
    the arithmetic it uses the order of the numbers and these facts only:
    [0 - 0], [0 * 0] and the absolute value of 0 are zero; a number times 0 is
    zero, and times 1 it is itself; a sum, a mean or a product of values that
    are zero or NaN is zero or NaN. No law that rounding breaks, such as the
    associativity of a sum or a multiplication undone by a division, is used
    or stated. (The values in the examples are those of the exact
    operations.) *)

Inductive fval :=
| Num (q : Q)
| Inf (neg : bool)
| NaN.

#[global] Instance fval_equiv : Equiv fval := λ a b,
  match a, b with
  | Num p, Num q => (p == q)%Q
  | Inf s, Inf t => s = t
  | NaN, NaN => True
  | _, _ => False
  end.

Definition of_nat (n : nat) : fval := Num (inject_Z (Z.of_nat n)).

Definition isnan (a : fval) : bool :=
  match a with NaN => true | _ => false end.

(** The infinity of sign [neg], multiplied by the sign of [q]. *)
Definition inf_signed (neg : bool) (q : Q) : fval :=
  match (q ?= 0)%Q with
  | Eq => NaN
  | Gt => Inf neg
  | Lt => Inf (negb neg)
  end.

Definition fopp (a : fval) : fval :=
  match a with
  | Num q => Num (- q)
  | Inf s => Inf (negb s)
  | NaN => NaN
  end.

Definition fadd (a b : fval) : fval :=
  match a, b with
  | Num p, Num q => Num (p + q)
  | Num _, Inf s | Inf s, Num _ => Inf s
  | Inf s, Inf t => if Bool.eqb s t then Inf s else NaN
  | _, _ => NaN
  end.

Definition fsub (a b : fval) : fval := fadd a (fopp b).

Definition fmul (a b : fval) : fval :=
  match a, b with
  | Num p, Num q => Num (p * q)
  | Num p, Inf s => inf_signed s p
  | Inf s, Num q => inf_signed s q
  | Inf s, Inf t => Inf (xorb s t)
  | _, _ => NaN
  end.

Definition fdiv (a b : fval) : fval :=
  match a, b with
  | Num p, Num q =>
      match (q ?= 0)%Q with
      | Eq => inf_signed false p
      | _ => Num (p / q)
      end
  | Num _, Inf _ => Num 0
  | Inf s, Num q =>
      match (q ?= 0)%Q with
      | Lt => Inf (negb s)
      | _ => Inf s
      end
  | _, _ => NaN
  end.

Definition fabs (a : fval) : fval :=
  match a with
  | Num q => Num (Qabs q)
  | Inf _ => Inf false
  | NaN => NaN
  end.

(** [a < b]; false as soon as one side is NaN. *)
Definition flt (a b : fval) : bool :=
  match a, b with
  | Num p, Num q => match (p ?= q)%Q with Lt => true | _ => false end
  | Num _, Inf s => negb s
  | Inf s, Num _ => s
  | Inf s, Inf t => s && negb t
  | _, _ => false
  end.

(** [a <= b]; false as soon as one side is NaN. *)
Definition fle (a b : fval) : bool :=
  match a, b with
  | Num p, Num q => match (p ?= q)%Q with Gt => false | _ => true end
  | Num _, Inf s => negb s
  | Inf s, Num _ => s
  | Inf s, Inf t => s || negb t
  | _, _ => false
  end.

Definition fge (a b : fval) : bool := fle b a.

(** [std::max(a, b)], as the kernel of the cross-entropy clamps with. *)
Definition fmax (a b : fval) : fval := if flt a b then b else a.

(** [t.sum()], adding from left to right; the order [torch] adds in is not
    modelled, and in exact arithmetic it plays no part. *)
Definition fsum (xs : list fval) : fval := fold_left fadd xs (Num 0).

(** ** Facts about the arithmetic *)

#[global] Instance fval_equivalence : Equivalence (≡@{fval}).
Proof.
  split.
  - intros [q|s|]; unfold equiv, fval_equiv; first [done|reflexivity].
  - intros [p|s|] [q|t|]; unfold equiv, fval_equiv; try done.
  - intros [p|s|] [q|t|] [r|u|]; unfold equiv, fval_equiv; try done.
    + intros H1 H2. by rewrite H1.
    + congruence.
Qed.

#[global] Instance Num_proper : Proper (Qeq ==> (≡)) Num.
Proof. intros p q H. done. Qed.

#[global] Instance inf_signed_proper s : Proper (Qeq ==> (≡)) (inf_signed s).
Proof. intros p q H. unfold inf_signed. rewrite H. by destruct (q ?= 0)%Q. Qed.

#[global] Instance fopp_proper : Proper ((≡) ==> (≡)) fopp.
Proof.
  intros [p|s|] [q|t|]; unfold equiv, fval_equiv; simpl; try done.
  - intros H. by rewrite H.
  - congruence.
Qed.

#[global] Instance fadd_proper : Proper ((≡) ==> (≡) ==> (≡)) fadd.
Proof.
  intros [p|s|] [q|t|] H1 [p'|s'|] [q'|t'|] H2;
    unfold equiv, fval_equiv in *; simpl; try done.
  - by rewrite H1, H2.
  - subst. by destruct (Bool.eqb t t').
Qed.

#[global] Instance fsub_proper : Proper ((≡) ==> (≡) ==> (≡)) fsub.
Proof. intros a b H1 c d H2. unfold fsub. by rewrite H1, H2. Qed.

#[global] Instance fmul_proper : Proper ((≡) ==> (≡) ==> (≡)) fmul.
Proof.
  intros [p|s|] [q|t|] H1 [p'|s'|] [q'|t'|] H2; try done;
    unfold equiv, fval_equiv in H1, H2; simpl.
  - apply Num_proper. by rewrite H1, H2.
  - subst. by apply inf_signed_proper.
  - subst. by apply inf_signed_proper.
  - by subst.
Qed.

#[global] Instance fdiv_proper : Proper ((≡) ==> (≡) ==> (≡)) fdiv.
Proof.
  intros [p|s|] [q|t|] H1 [p'|s'|] [q'|t'|] H2; try done;
    unfold equiv, fval_equiv in H1, H2; simpl.
  - rewrite H2.
    destruct (q' ?= 0)%Q; [by apply inf_signed_proper|apply Num_proper..];
      by rewrite H1, H2.
  - subst. rewrite H2. by destruct (q' ?= 0)%Q.
Qed.

#[global] Instance fabs_proper : Proper ((≡) ==> (≡)) fabs.
Proof.
  intros [p|s|] [q|t|] H; try done; unfold equiv, fval_equiv in H; simpl.
  apply Num_proper. by rewrite H.
Qed.

(** Counts, as tensor elements. *)
Lemma of_nat_compare n :
  (inject_Z (Z.of_nat n) ?= 0)%Q = if decide (n = 0) then Eq else Gt.
Proof.
  case_decide as Hn.
  - by subst.
  - apply Qgt_alt. change 0%Q with (inject_Z 0). rewrite <-Zlt_Qlt. lia.
Qed.

Lemma Qcompare_eq0 q : (q == 0)%Q → (q ?= 0)%Q = Eq.
Proof. intros H. by apply Qeq_alt. Qed.

(** A value that is zero or NaN: what a position of weight zero adds. *)
Definition zero_or_nan (a : fval) : Prop := a ≡ Num 0 ∨ a = NaN.

Lemma zero_or_nan_add a b : zero_or_nan a → zero_or_nan b → zero_or_nan (fadd a b).
Proof.
  intros [Ha| ->] [Hb| ->]; [left|right..].
  - rewrite Ha, Hb. simpl. apply Num_proper. ring.
  - by destruct a.
  - done.
  - done.
Qed.

Lemma zero_or_nan_sum (xs : list fval) :
  Forall zero_or_nan xs → zero_or_nan (fsum xs).
Proof.
  unfold fsum. assert (zero_or_nan (Num 0)) as H0 by (by left).
  revert H0. generalize (Num 0). induction xs as [|x xs IH]; intros a Ha Hxs.
  - done.
  - inversion_clear Hxs. simpl. apply IH; [|done]. by apply zero_or_nan_add.
Qed.

Lemma zero_or_nan_mean a n : zero_or_nan a → zero_or_nan (fdiv a (of_nat n)).
Proof.
  intros [Ha| ->]; [|by right].
  destruct a as [p| |]; try done. unfold equiv, fval_equiv in Ha. simpl.
  rewrite of_nat_compare. case_decide.
  - right. unfold inf_signed. by rewrite Ha.
  - left. apply Num_proper. rewrite Ha. unfold Qdiv. ring.
Qed.

(** Rescaling by a count of zero turns it into NaN. *)
Lemma zero_or_nan_rescale a n :
  zero_or_nan a → fdiv (fmul a (of_nat n)) (of_nat 0) = NaN.
Proof.
  intros [Ha| ->]; [|done].
  destruct a as [p| |]; try done. unfold equiv, fval_equiv in Ha. simpl.
  unfold inf_signed. rewrite Qcompare_eq0; [done|]. rewrite Ha. ring.
Qed.

(** ** Tensors and the [torch] functions the layers build on

    Tensors are one-dimensional here, and a shape is a length: what is
    proved in this part is proved of the code on one-dimensional tensors. On
    tensors of more dimensions the code compares and broadcasts shapes
    dimension by dimension: a boolean mask may index the leading dimensions
    of a larger tensor, [_infer_size] fits a weight of shape [(2,)] to a
    target of shape [(2, 2)], and the default weights of [auroc_ipu] and
    [average_precision_ipu], [torch.ones(target.shape[0])], have one element
    per row, so that the masked assignment to them raises [IndexError]. *)

Abbreviation tensor := (list fval).
Abbreviation mask := (list bool).
Abbreviation loc := nat (only parsing).

(** The [reduction] attribute of a loss layer; ['mean'] is the default. *)
Inductive reduction := RNone | RMean | RSum.

(** What a loss returns: a 0-dimensional tensor, or one value per element. *)
Inductive out :=
| Scalar (v : fval)
| Vector (vs : tensor).

Definition out_map (f : fval → fval) (o : out) : out :=
  match o with
  | Scalar v => Scalar (f v)
  | Vector vs => Vector (f <$> vs)
  end.

#[global] Instance out_equiv : Equiv out := λ a b,
  match a, b with
  | Scalar v, Scalar w => v ≡ w
  | Vector vs, Vector ws => vs ≡ ws
  | _, _ => False
  end.

#[global] Instance res_equiv `{Equiv A} : Equiv (res A) := λ a b,
  match a, b with
  | Ok x, Ok y => x ≡ y
  | Raise e, Raise e' => e = e'
  | _, _ => False
  end.

Definition reduce (r : reduction) (ls : tensor) : out :=
  match r with
  | RNone => Vector ls
  | RMean => Scalar (fdiv (fsum ls) (of_nat (length ls)))
  | RSum => Scalar (fsum ls)
  end.

(** [torch._C._infer_size] on the shapes of two one-dimensional tensors: the
    length two lengths broadcast to. *)
Definition infer_size (a b : nat) : res nat :=
  if decide (a = b) then Ok a
  else if decide (a = 1) then Ok b
  else if decide (b = 1) then Ok a
  else Raise RuntimeError.

(** [t.expand(n)] *)
Definition expand {A} (xs : list A) (n : nat) : res (list A) :=
  if decide (length xs = n) then Ok xs
  else match xs with
       | [x] => Ok (replicate n x)
       | _ => Raise RuntimeError
       end.

(** [torch.broadcast_tensors(a, b)] *)
Definition broadcast_tensors {A B} (xs : list A) (ys : list B)
  : res (list A * list B) :=
  n ← infer_size (length xs) (length ys);
  xs' ← expand xs n;
  ys' ← expand ys n;
  Ok (xs', ys').

(** [a & b] on boolean tensors. *)
Definition mask_and (a b : mask) : res mask :=
  ab ← broadcast_tensors a b; Ok (zip_with andb ab.1 ab.2).

(** [t[m] = v], as a value: the shape of the mask has to be that of [t]. *)
Definition masked_fill (t : tensor) (m : mask) (v : fval) : res tensor :=
  if decide (length m = length t)
  then Ok (zip_with (λ x (b : bool), if b then v else x) t m)
  else Raise IndexError.

(** [m.sum()] of a boolean tensor, [m.numel()] is its length. *)
Definition mask_sum (m : mask) : nat := length (filter (λ b, b = true) m).

Definition sq_err (x y : fval) : fval := let d := fsub x y in fmul d d.
Definition abs_err (x y : fval) : fval := fabs (fsub x y).

(** [F.mse_loss(input, target, reduction)] *)
Definition mse_loss (r : reduction) (xs ys : tensor) : res out :=
  xy ← broadcast_tensors xs ys; Ok (reduce r (zip_with sq_err xy.1 xy.2)).

(** [F.l1_loss(input, target, reduction)] *)
Definition l1_loss (r : reduction) (xs ys : tensor) : res out :=
  xy ← broadcast_tensors xs ys; Ok (reduce r (zip_with abs_err xy.1 xy.2)).

(** [loss * numel / count], on every element of the loss. *)
Definition rescale (loss : out) (numel count : nat) : out :=
  out_map (λ l, fdiv (fmul l (of_nat numel)) (of_nat count)) loss.

(** [t.to(int)]: truncation towards zero to a 64-bit integer; what has no
    such value (a number beyond the range, an infinity, NaN) converts to the
    least 64-bit integer, as the conversion instruction of x86 processors
    gives it. *)
Definition to_int (a : fval) : Z :=
  match a with
  | Num q =>
      let z := Z.quot (Qnum q) (Zpos (Qden q)) in
      if ((- 2 ^ 63 <=? z) && (z <? 2 ^ 63))%Z then z else (- 2 ^ 63)%Z
  | _ => (- 2 ^ 63)%Z
  end.

Section cross_entropy.
(** The natural logarithm, of which nothing is needed but its values. *)
Variable flog : fval → fval.

(** One element of the cross-entropy, with both logarithms clamped at -100. *)
Definition bce_elem (x y : fval) : fval :=
  fsub (fmul (fsub y (Num 1)) (fmax (flog (fsub (Num 1) x)) (Num (-100))))
       (fmul y (fmax (flog x) (Num (-100)))).

Definition in_unit (x : fval) : bool := fge x (Num 0) && fle x (Num 1).

(** [F.binary_cross_entropy(input, target, weight, reduction)]: the shapes
    have to agree, the weight is expanded to them, every input has to lie in
    [[0, 1]], and the weight multiplies the loss element by element before
    the reduction. *)
Definition binary_cross_entropy (weight : option tensor) (r : reduction)
  (xs ys : tensor) : res out :=
  if decide (length ys = length xs) then
    w ← match weight with
        | None => Ok None
        | Some w =>
            n ← infer_size (length ys) (length w); w' ← expand w n; Ok (Some w')
        end;
    if forallb in_unit xs then
      ls ← match w with
           | None => Ok (zip_with bce_elem xs ys)
           | Some w =>
               if decide (length w = length xs)
               then Ok (zip_with fmul (zip_with bce_elem xs ys) w)
               else Raise RuntimeError
           end;
      Ok (reduce r ls)
    else Raise RuntimeError
  else Raise ValueError.

End cross_entropy.

(** ** The store: tensors, and the [weight] attribute of the layer *)

(** [self_weight] is the [weight] attribute of the [BCELossIPU] layer the
    calls are made on (the other layers have none). *)
Record state := mkState { heap : list tensor; self_weight : option loc }.

Abbreviation M := (eff state).

Definition read (l : loc) : M tensor :=
  λ s, match heap s !! l with
       | Some t => (Ok t, s)
       | None => (Raise BadReference, s)
       end.

Definition alloc (t : tensor) : M loc :=
  λ s, (Ok (length (heap s)), mkState (heap s ++ [t]) (self_weight s)).

Definition write (l : loc) (t : tensor) : M unit :=
  λ s, (Ok tt, mkState (<[l := t]> (heap s)) (self_weight s)).

(** [t.clone()] *)
Definition clone (l : loc) : M loc := t ← read l; alloc t.

(** [t[m] = v], in place. *)
Definition setitem_mask (l : loc) (m : mask) (v : fval) : M unit :=
  t ← read l; t' ← lift (masked_fill t m v); write l t'.

(** [self.weight] and [self.weight = w] *)
Definition get_weight : M (option loc) := λ s, (Ok (self_weight s), s).
Definition set_weight (w : option loc) : M unit :=
  λ s, (Ok tt, mkState (heap s) w).

(** ** The loss layers *)

Definition one_half : fval := Num (1 # 2).

Section losses.
Variable flog : fval → fval.

(** [BCELoss.forward(input, target)]: reads [self.weight]. *)
Definition BCELoss_forward (r : reduction) (input target : loc) : M out :=
  x ← read input;
  y ← read target;
  w ← get_weight;
  wv ← match w with
       | Some l => t ← read l; mret (Some t)
       | None => mret None
       end;
  lift (binary_cross_entropy flog wv r x y).

Definition MSELoss_forward (r : reduction) (input target : loc) : M out :=
  x ← read input; y ← read target; lift (mse_loss r x y).

Definition L1Loss_forward (r : reduction) (input target : loc) : M out :=
  x ← read input; y ← read target; lift (l1_loss r x y).

(** [BCELossIPU.forward] up to the call of [super().forward]: the clone of the
    target with its missing entries replaced, the weight with zeros at the
    missing entries installed as [self.weight]. Returns the new [target],
    [nan_targets] and [prev_weight]. *)
Definition BCELossIPU_prepare (input target : loc)
  : M (loc * mask * option loc) :=
  target ← clone target;
  weight ← get_weight;
  pw ← match weight with
       | Some w =>
           prev_weight ← clone w;
           t ← read target;
           wv ← read w;
           new_size ← lift (infer_size (length t) (length wv));
           we ← lift (expand wv new_size);
           weight ← alloc we;
           mret (Some prev_weight, weight)
       | None =>
           t ← read target;
           weight ← alloc (replicate (length t) (Num 1));
           mret (None, weight)
       end;
  let prev_weight := pw.1 in
  let weight := pw.2 in
  t ← read target;
  x ← read input;
  let nan_targets := isnan <$> t in
  nan_targets_0 ← lift (mask_and ((λ v, flt v one_half) <$> x) nan_targets);
  nan_targets_1 ← lift (mask_and ((λ v, fge v one_half) <$> x) nan_targets);
  setitem_mask target nan_targets_0 (Num 0);;
  setitem_mask target nan_targets_1 (Num 1);;
  setitem_mask weight nan_targets (Num 0);;
  set_weight (Some weight);;
  mret (target, nan_targets, prev_weight).

Definition BCELossIPU_forward (r : reduction) (input target : loc) : M out :=
  p ← BCELossIPU_prepare input target;
  let '(target, nan_targets, prev_weight) := p in
  loss ← BCELoss_forward r input target;
  let loss := rescale loss (length nan_targets) (mask_sum (negb <$> nan_targets)) in
  set_weight prev_weight;;
  mret loss.

Definition MSELossIPU_forward (r : reduction) (input target : loc) : M out :=
  target ← clone target;
  input ← clone input;
  t ← read target;
  let nan_targets := isnan <$> t in
  setitem_mask input nan_targets (Num 0);;
  setitem_mask target nan_targets (Num 0);;
  loss ← MSELoss_forward r input target;
  mret (rescale loss (length nan_targets) (mask_sum (negb <$> nan_targets))).

Definition L1LossIPU_forward (r : reduction) (input target : loc) : M out :=
  target ← clone target;
  input ← clone input;
  t ← read target;
  let nan_targets := isnan <$> t in
  setitem_mask input nan_targets (Num 0);;
  setitem_mask target nan_targets (Num 0);;
  loss ← L1Loss_forward r input target;
  mret (rescale loss (length nan_targets) (mask_sum (negb <$> nan_targets))).

End losses.

(** ** The metrics

    The statistics of [torchmetrics] are taken as they come: functions of the
    values they are passed. *)

(** The keyword arguments handed through unchanged. *)
Record auroc_kwargs := mkAurocKw {
  au_num_classes : option Z; au_pos_label : option Z;
  au_average : option string; au_max_fpr : option Q }.

Record average_precision_kwargs := mkApKw {
  ap_num_classes : option Z; ap_pos_label : option Z;
  ap_average : option string }.

Record stat_kwargs := mkStatKw {
  average : option string; mdmc_average : option string;
  ignore_index : option Z; num_classes : option Z; threshold : Q;
  top_k : option Z; multiclass : option bool }.

Section metrics.
(** [auroc(preds, target, **kwargs, sample_weights)] and so on. *)
Variable auroc : tensor → list Z → auroc_kwargs → tensor → res out.
Variable average_precision :
  tensor → list Z → average_precision_kwargs → tensor → res out.
Variable precision : tensor → list Z → stat_kwargs → res out.
Variable accuracy : tensor → list Z → stat_kwargs → bool → res out.
Variable recall : tensor → list Z → stat_kwargs → res out.

(** The default weights, [torch.ones(target.shape[0])], are one weight per
    element of a one-dimensional target. *)
Definition auroc_ipu (preds target : loc) (kw : auroc_kwargs)
  (sample_weights : option loc) : M out :=
  target ← clone target;
  preds ← clone preds;
  t ← read target;
  let nan_targets := isnan <$> t in
  setitem_mask preds nan_targets (Num 0);;
  setitem_mask target nan_targets (Num 0);;
  sample_weights ← match sample_weights with
                   | None => alloc (replicate (length t) (Num 1))
                   | Some w => mret w
                   end;
  setitem_mask sample_weights nan_targets (Num 0);;
  p ← read preds;
  t ← read target;
  w ← read sample_weights;
  lift (auroc p (to_int <$> t) kw w).

(** The same default weights as in [auroc_ipu]. *)
Definition average_precision_ipu (preds target : loc)
  (kw : average_precision_kwargs) (sample_weights : option loc) : M out :=
  target ← clone target;
  preds ← clone preds;
  t ← read target;
  let nan_targets := isnan <$> t in
  setitem_mask preds nan_targets (Num 0);;
  setitem_mask target nan_targets (Num 0);;
  sample_weights ← match sample_weights with
                   | None => alloc (replicate (length t) (Num 1))
                   | Some w => mret w
                   end;
  setitem_mask sample_weights nan_targets (Num 0);;
  p ← read preds;
  t ← read target;
  w ← read sample_weights;
  lift (average_precision p (to_int <$> t) kw w).

Definition precision_ipu (preds target : loc) (kw : stat_kwargs) : M out :=
  target ← clone target;
  preds ← clone preds;
  t ← read target;
  let nans := isnan <$> t in
  setitem_mask target nans (Num 1);;
  setitem_mask preds nans (Num 0);;
  p ← read preds;
  t ← read target;
  lift (precision p (to_int <$> t) kw).

Definition accuracy_ipu (preds target : loc) (kw : stat_kwargs)
  (subset_accuracy : bool) : M out :=
  target ← clone target;
  preds ← clone preds;
  t ← read target;
  let nans := isnan <$> t in
  setitem_mask target nans (Num 1);;
  setitem_mask preds nans (Num 0);;
  p ← read preds;
  t ← read target;
  lift (accuracy p (to_int <$> t) kw subset_accuracy).

Definition recall_ipu (preds target : loc) (kw : stat_kwargs) : M out :=
  target ← clone target;
  preds ← clone preds;
  t ← read target;
  let nans := isnan <$> t in
  setitem_mask target nans (Num 1);;
  setitem_mask preds nans (Num 0);;
  p ← read preds;
  t ← read target;
  lift (recall p (to_int <$> t) kw).

End metrics.

(** ** What the specification speaks of *)

(** A tensor with the positions of the missing targets removed. *)
Fixpoint observed {A} (ys : tensor) (zs : list A) : list A :=
  match ys, zs with
  | y :: ys', z :: zs' =>
      if isnan y then observed ys' zs' else z :: observed ys' zs'
  | _, _ => []
  end.

(** A tensor with [v] at the positions of the missing targets. *)
Definition neutral (v : fval) (ys zs : tensor) : tensor :=
  zip_with (λ z y, if isnan y then v else z) zs ys.

(** The targets the cross-entropy is given: at a missing position, 0 when
    the prediction is below one half and 1 when it is at least one half. *)
Definition nearest_class (xs ys : tensor) : tensor :=
  zip_with (λ x y, if isnan y
                   then if flt x one_half then Num 0
                        else if fge x one_half then Num 1 else y
                   else y) xs ys.

(** The number of targets that are not missing. *)
Definition count_observed (ys : tensor) : nat :=
  length (filter (λ y, isnan y = false) ys).

(** The weight a layer's [weight] attribute stands for on [n] elements. *)
Definition weight_on (n : nat) (w : option tensor) : res tensor :=
  match w with
  | None => Ok (replicate n (Num 1))
  | Some w => m ← infer_size n (length w); expand w m
  end.

(** ** Running the primitives

    While a call runs, the store is the caller's store [h] followed by what
    the call has allocated so far, [ext]; the lemmas below run one step of a
    program on a store of this shape. *)

#[global] Instance res_fmap : FMap res := λ A B f r,
  match r with Ok a => Ok (f a) | Raise e => Raise e end.

Lemma from_nil (P : state → Prop) h w :
  P (mkState (h ++ []) w) → P (mkState h w).
Proof. by rewrite app_nil_r. Qed.

Section steps.
Context {B : Type}.
Implicit Types (h ext : list tensor) (w : option loc) (t : tensor).

Lemma bind_read_old h ext w l t (k : tensor → M B) :
  h !! l = Some t →
  (read l ≫= k) (mkState (h ++ ext) w) = k t (mkState (h ++ ext) w).
Proof.
  intros Hl. unfold mbind, eff_bind, read. simpl.
  by rewrite (lookup_app_l_Some _ _ _ _ Hl).
Qed.

Lemma bind_read_new h ext w i t (k : tensor → M B) :
  ext !! i = Some t →
  (read (length h + i) ≫= k) (mkState (h ++ ext) w)
  = k t (mkState (h ++ ext) w).
Proof.
  intros Hi. unfold mbind, eff_bind, read. simpl.
  by rewrite lookup_app_r, Nat.add_comm, Nat.add_sub, Hi by lia.
Qed.

Lemma bind_alloc h ext w t (k : loc → M B) :
  (alloc t ≫= k) (mkState (h ++ ext) w)
  = k (length h + length ext) (mkState (h ++ (ext ++ [t])) w).
Proof.
  unfold mbind, eff_bind, alloc. simpl. by rewrite length_app, <-(assoc (++)).
Qed.

Lemma bind_clone_old h ext w l t (k : loc → M B) :
  h !! l = Some t →
  (clone l ≫= k) (mkState (h ++ ext) w)
  = k (length h + length ext) (mkState (h ++ (ext ++ [t])) w).
Proof.
  intros Hl. unfold clone, mbind, eff_bind, read, alloc. simpl.
  rewrite (lookup_app_l_Some _ _ _ _ Hl). simpl.
  by rewrite length_app, <-(assoc (++)).
Qed.

Lemma bind_setitem_new h ext w i t m v (k : unit → M B) :
  ext !! i = Some t →
  (setitem_mask (length h + i) m v ≫= k) (mkState (h ++ ext) w)
  = match masked_fill t m v with
    | Ok t' => k tt (mkState (h ++ <[i := t']> ext) w)
    | Raise e => (Raise e, mkState (h ++ ext) w)
    end.
Proof.
  intros Hi. unfold setitem_mask, mbind, eff_bind, read, lift, write. simpl.
  rewrite lookup_app_r, Nat.add_comm, Nat.add_sub, Hi by lia.
  destruct (masked_fill t m v) as [t'|e]; [|done].
  simpl. by rewrite (Nat.add_comm i), insert_app_r.
Qed.

Lemma bind_setitem_old h ext w l t m v (k : unit → M B) :
  h !! l = Some t →
  (setitem_mask l m v ≫= k) (mkState (h ++ ext) w)
  = match masked_fill t m v with
    | Ok t' => k tt (mkState (<[l := t']> h ++ ext) w)
    | Raise e => (Raise e, mkState (h ++ ext) w)
    end.
Proof.
  intros Hl. unfold setitem_mask, mbind, eff_bind, read, lift, write. simpl.
  rewrite (lookup_app_l_Some _ _ _ _ Hl).
  destruct (masked_fill t m v) as [t'|e]; [|done].
  simpl. by rewrite insert_app_l by (by eapply lookup_lt_Some).
Qed.

Lemma bind_lift {A} (r : res A) (k : A → M B) (s : state) :
  (lift r ≫= k) s = match r with Ok a => k a s | Raise e => (Raise e, s) end.
Proof. unfold mbind, eff_bind, lift. by destruct r. Qed.

Lemma bind_get_weight (k : option loc → M B) (s : state) :
  (get_weight ≫= k) s = k (self_weight s) s.
Proof. done. Qed.

Lemma bind_set_weight w' (k : unit → M B) (s : state) :
  (set_weight w' ≫= k) s = k tt (mkState (heap s) w').
Proof. done. Qed.

Lemma bind_mret {A} (a : A) (k : A → M B) (s : state) :
  (mret a ≫= k) s = k a s.
Proof. done. Qed.

Lemma bind_assoc {A C} (m : M A) (f : A → M C) (k : C → M B) (s : state) :
  ((m ≫= f) ≫= k) s = (m ≫= λ a, f a ≫= k) s.
Proof. unfold mbind, eff_bind. by destruct (m s) as [[a|e] s']. Qed.

End steps.

(** ** Masks and neutralised tensors *)

Lemma masked_fill_isnan (zs ys : tensor) v :
  length zs = length ys →
  masked_fill zs (isnan <$> ys) v = Ok (neutral v ys zs).
Proof.
  intros Hlen. unfold masked_fill, neutral.
  rewrite decide_True by (by rewrite length_fmap).
  by rewrite zip_with_fmap_r.
Qed.

Lemma masked_fill_length_ne (zs : tensor) m v :
  length m ≠ length zs → masked_fill zs m v = Raise IndexError.
Proof. intros Hne. unfold masked_fill. by rewrite decide_False. Qed.

Lemma neutral_length v (ys zs : tensor) :
  length zs = length ys → length (neutral v ys zs) = length ys.
Proof. intros Hlen. unfold neutral. rewrite length_zip_with. lia. Qed.

Lemma mask_sum_observed (ys : tensor) :
  mask_sum (negb <$> (isnan <$> ys)) = count_observed ys.
Proof.
  unfold mask_sum, count_observed. induction ys as [|y ys IH]; [done|].
  rewrite !fmap_cons, !filter_cons.
  destruct (isnan y); simpl; repeat case_decide; try done; simpl; by rewrite IH.
Qed.

Lemma observed_length {A} (ys : tensor) (zs : list A) :
  length zs = length ys → length (observed ys zs) = count_observed ys.
Proof.
  unfold count_observed. revert zs.
  induction ys as [|y ys IH]; intros [|z zs] Hlen; try done. simpl in *.
  rewrite filter_cons. destruct (isnan y); simpl; rewrite IH; done || lia.
Qed.

(** ** Running the squared-error and absolute-error layers *)

(** The two layers have the same body; [loss] is the loss of the parent
    class on the values of its arguments. *)
Definition zero_masked_forward (loss : tensor → tensor → res out)
  (input target : loc) : M out :=
  target ← clone target;
  input ← clone input;
  t ← read target;
  let nan_targets := isnan <$> t in
  setitem_mask input nan_targets (Num 0);;
  setitem_mask target nan_targets (Num 0);;
  loss ← (x ← read input; y ← read target; lift (loss x y));
  mret (rescale loss (length nan_targets) (mask_sum (negb <$> nan_targets))).

Lemma MSELossIPU_forward_unfold r input target :
  MSELossIPU_forward r input target = zero_masked_forward (mse_loss r) input target.
Proof. reflexivity. Qed.

Lemma L1LossIPU_forward_unfold r input target :
  L1LossIPU_forward r input target = zero_masked_forward (l1_loss r) input target.
Proof. reflexivity. Qed.

(** With tensors of one shape the call allocates the two neutralised clones
    and returns the rescaled loss of the parent class on them; with tensors
    of different shapes the masked assignment to the input fails. *)
Lemma zero_masked_run loss s input target xs ys :
  heap s !! input = Some xs → heap s !! target = Some ys →
  zero_masked_forward loss input target s
  = if decide (length xs = length ys)
    then ((λ l, rescale l (length ys) (count_observed ys))
            <$> loss (neutral (Num 0) ys xs) (neutral (Num 0) ys ys),
          mkState (heap s ++ [neutral (Num 0) ys ys; neutral (Num 0) ys xs])
                  (self_weight s))
    else (Raise IndexError, mkState (heap s ++ [ys; xs]) (self_weight s)).
Proof.
  destruct s as [h w]. simpl. intros Hi Ht.
  pattern (mkState h w). apply from_nil.
  unfold zero_masked_forward.
  rewrite (bind_clone_old _ _ _ _ ys) by done. cbn [length app].
  rewrite (bind_clone_old _ _ _ _ xs) by done. cbn [length app].
  rewrite (bind_read_new _ _ _ 0 ys) by done.
  rewrite (bind_setitem_new _ _ _ 1 xs) by done.
  case_decide as Hlen.
  - rewrite masked_fill_isnan by done. cbn [insert list_insert].
    rewrite (bind_setitem_new _ _ _ 0 ys) by done.
    rewrite masked_fill_isnan by done. cbn [insert list_insert].
    rewrite bind_assoc.
    rewrite (bind_read_new _ _ _ 1 (neutral (Num 0) ys xs)) by done.
    rewrite bind_assoc.
    rewrite (bind_read_new _ _ _ 0 (neutral (Num 0) ys ys)) by done.
    rewrite bind_lift, length_fmap, mask_sum_observed.
    by destruct (loss _ _).
  - by rewrite masked_fill_length_ne by (by rewrite length_fmap).
Qed.

(** ** Equal losses *)

#[global] Instance out_equivalence : Equivalence (≡@{out}).
Proof.
  split.
  - by intros [v|vs]; unfold equiv, out_equiv.
  - intros [v|vs] [v'|vs']; unfold equiv, out_equiv; try done; by symmetry.
  - intros [v|vs] [v'|vs'] [v''|vs'']; unfold equiv, out_equiv; try done;
      intros H1 H2; by rewrite H1.
Qed.

#[global] Instance res_equivalence `{Equiv A} `{!Equivalence (≡@{A})} :
  Equivalence (≡@{res A}).
Proof.
  split.
  - by intros [a|e]; unfold equiv, res_equiv.
  - intros [a|e] [a'|e']; unfold equiv, res_equiv; try done; by symmetry.
  - intros [a|e] [a'|e'] [a''|e'']; unfold equiv, res_equiv; try done;
      intros H1 H2; [by rewrite H1|congruence].
Qed.

#[global] Instance fsum_proper : Proper ((≡) ==> (≡)) fsum.
Proof.
  intros xs ys Hxy. unfold fsum.
  assert (Num 0 ≡ Num 0) as Hacc by done.
  revert Hacc. generalize (Num 0) at 1 3. generalize (Num 0).
  induction Hxy as [|x y xs ys Hx _ IH]; intros a b Hab; [done|].
  simpl. apply IH. by rewrite Hab, Hx.
Qed.

#[global] Instance reduce_proper r : Proper ((≡) ==> (≡)) (reduce r).
Proof.
  intros xs ys Hxy. destruct r; unfold reduce, equiv, out_equiv.
  - done.
  - by rewrite Hxy.
  - by rewrite Hxy.
Qed.

(** ** Broadcasting tensors of one shape changes nothing *)

Lemma infer_size_same n : infer_size n n = Ok n.
Proof. unfold infer_size. by rewrite decide_True. Qed.

Lemma expand_same {A} (xs : list A) : expand xs (length xs) = Ok xs.
Proof. unfold expand. by rewrite decide_True. Qed.

Lemma broadcast_tensors_same {A B} (xs : list A) (ys : list B) :
  length xs = length ys → broadcast_tensors xs ys = Ok (xs, ys).
Proof.
  intros Hlen. unfold broadcast_tensors.
  rewrite Hlen, infer_size_same. simpl.
  rewrite <-Hlen at 1. rewrite expand_same. simpl.
  by rewrite expand_same.
Qed.

(** The losses that work element by element: [f] is the error of one pair. *)
Definition elem_loss (f : fval → fval → fval) (r : reduction)
  (xs ys : tensor) : res out :=
  xy ← broadcast_tensors xs ys; Ok (reduce r (zip_with f xy.1 xy.2)).

Lemma elem_loss_same f r (xs ys : tensor) :
  length xs = length ys → elem_loss f r xs ys = Ok (reduce r (zip_with f xs ys)).
Proof. intros Hlen. unfold elem_loss. by rewrite broadcast_tensors_same. Qed.

(** ** Neutralised and trimmed tensors *)

Lemma neutral_cons v y (ys : tensor) z (zs : tensor) :
  neutral v (y :: ys) (z :: zs) = (if isnan y then v else z) :: neutral v ys zs.
Proof. done. Qed.

(** With no target missing nothing is neutralised and nothing trimmed. *)
Lemma count_observed_all (ys : tensor) :
  count_observed ys = length ys → Forall (λ y, isnan y = false) ys.
Proof.
  unfold count_observed. intros Hlen.
  induction ys as [|y ys IH]; [done|].
  rewrite filter_cons in Hlen. case_decide as Hy; simpl in Hlen.
  - constructor; [done|]. apply IH. lia.
  - pose proof (length_filter (λ y, isnan y = false) ys). lia.
Qed.

Lemma neutral_none v (ys zs : tensor) :
  Forall (λ y, isnan y = false) ys → length zs = length ys →
  neutral v ys zs = zs.
Proof.
  intros Hall. revert zs.
  induction Hall as [|y ys Hy _ IH]; intros [|z zs] Hlen; try done.
  rewrite neutral_cons, Hy, IH; [done|]. simpl in Hlen. lia.
Qed.

(** With every target missing everything is neutralised. *)
Lemma count_observed_none (ys : tensor) :
  Forall (λ y, isnan y = true) ys → count_observed ys = 0.
Proof.
  unfold count_observed. induction 1 as [|y ys Hy _ IH]; [done|].
  rewrite filter_cons, decide_False; [done|]. by rewrite Hy.
Qed.

Lemma sq_err_zero : sq_err (Num 0) (Num 0) ≡ Num 0.
Proof. unfold sq_err. simpl. apply Num_proper. ring. Qed.

Lemma abs_err_zero : abs_err (Num 0) (Num 0) ≡ Num 0.
Proof. unfold abs_err. simpl. by apply Num_proper. Qed.

(** ** Running the cross-entropy layer *)

Lemma mask_and_same (a b : mask) :
  length a = length b → mask_and a b = Ok (zip_with andb a b).
Proof. intros Hlen. unfold mask_and. by rewrite broadcast_tensors_same. Qed.

Lemma flt_fge_excl x c : flt x c = true → fge x c = false.
Proof.
  unfold fge. destruct x as [p|[]|], c as [q|[]|]; simpl; try done.
  rewrite <-(Qcompare_antisym p q). by destruct (p ?= q)%Q.
Qed.

(** The two masked assignments to the target give [nearest_class]. *)
Lemma nearest_class_fill (xs ys : tensor) :
  length xs = length ys →
  zip_with (λ y (b : bool), if b then Num 1 else y)
    (zip_with (λ y (b : bool), if b then Num 0 else y) ys
       (zip_with andb ((λ v, flt v one_half) <$> xs) (isnan <$> ys)))
    (zip_with andb ((λ v, fge v one_half) <$> xs) (isnan <$> ys))
  = nearest_class xs ys.
Proof.
  revert ys. induction xs as [|x xs IH]; intros [|y ys] Hlen; try done.
  unfold nearest_class. cbn [zip_with fmap list_fmap].
  f_equal; [|apply IH; simpl in Hlen; lia].
  destruct (isnan y); [|by rewrite !andb_false_r].
  rewrite !andb_true_r. destruct (flt x one_half) eqn:Hlt.
  - by rewrite (flt_fge_excl _ _ Hlt).
  - by destruct (fge x one_half).
Qed.

Lemma nearest_class_length (xs ys : tensor) :
  length xs = length ys → length (nearest_class xs ys) = length ys.
Proof. intros Hlen. unfold nearest_class. rewrite length_zip_with. lia. Qed.

(** The values of the layer's [weight] attribute. *)
Definition weight_tensor (s : state) (w : option tensor) : Prop :=
  match self_weight s, w with
  | None, None => True
  | Some l, Some t => heap s !! l = Some t
  | _, _ => False
  end.

(** What the call allocates before the masked weight: the clone of the
    previous weight, when there is one. *)
Definition prev_ext (w : option tensor) : list tensor :=
  match w with None => [] | Some wv => [wv] end.

Definition prev_loc (n : nat) (w : option tensor) : option loc :=
  match w with None => None | Some _ => Some (n + 1) end.

(** The state in which [super().forward] is called. *)
Definition prepared (s : state) (xs ys : tensor) (w : option tensor)
  (we : tensor) : state :=
  mkState (heap s ++ [nearest_class xs ys] ++ prev_ext w
             ++ [neutral (Num 0) ys we])
          (Some (length (heap s) + 1 + length (prev_ext w))).

Lemma BCELossIPU_prepare_run s input target xs ys w we :
  heap s !! input = Some xs → heap s !! target = Some ys →
  weight_tensor s w →
  length xs = length ys →
  weight_on (length ys) w = Ok we → length we = length ys →
  BCELossIPU_prepare input target s
  = (Ok (length (heap s) + 0, isnan <$> ys, prev_loc (length (heap s)) w),
     prepared s xs ys w we).
Proof.
  destruct s as [h sw]. unfold weight_tensor, prepared. simpl.
  intros Hi Ht Hw Hlen Hwe Hwlen.
  pattern (mkState h sw) at 1. apply from_nil.
  unfold BCELossIPU_prepare.
  rewrite (bind_clone_old _ _ _ _ ys) by done. cbn [length app].
  rewrite bind_get_weight. cbn [self_weight].
  destruct sw as [l|], w as [wv|]; try done.
  - rewrite bind_assoc, (bind_clone_old _ _ _ _ wv) by done. cbn [length app].
    rewrite bind_assoc, (bind_read_new _ _ _ 0 ys) by done.
    rewrite bind_assoc, (bind_read_old _ _ _ _ wv) by done.
    simpl in Hwe. unfold mbind at 1, res_bind in Hwe.
    destruct (infer_size (length ys) (length wv)) as [n|e] eqn:Hn; [|done].
    rewrite bind_assoc, bind_lift.
    rewrite bind_assoc, bind_lift, Hwe.
    rewrite bind_assoc, bind_alloc. cbn [length app].
    rewrite bind_mret. cbn [fst snd].
    rewrite (bind_read_new _ _ _ 0 ys) by done.
    rewrite (bind_read_old _ _ _ _ xs) by done.
    rewrite bind_lift, mask_and_same by (by rewrite !length_fmap).
    rewrite bind_lift, mask_and_same by (by rewrite !length_fmap).
    rewrite (bind_setitem_new _ _ _ 0 ys) by done.
    unfold masked_fill at 1.
    rewrite decide_True by (rewrite length_zip_with, !length_fmap; lia).
    cbn [insert list_insert].
    rewrite (bind_setitem_new _ _ _ 0 _) by done.
    unfold masked_fill at 1.
    rewrite decide_True by (rewrite !length_zip_with, !length_fmap; lia).
    cbn [insert list_insert]. rewrite nearest_class_fill by done.
    rewrite (bind_setitem_new _ _ _ 2 we) by done.
    rewrite masked_fill_isnan by done. cbn [insert list_insert].
    rewrite bind_set_weight. unfold mret, eff_ret. simpl.
    do 3 f_equal; lia.
  - simpl in Hwe. injection Hwe as <-.
    rewrite bind_assoc, (bind_read_new _ _ _ 0 ys) by done.
    rewrite bind_assoc, bind_alloc. cbn [length app].
    rewrite bind_mret. cbn [fst snd].
    rewrite (bind_read_new _ _ _ 0 ys) by done.
    rewrite (bind_read_old _ _ _ _ xs) by done.
    rewrite bind_lift, mask_and_same by (by rewrite !length_fmap).
    rewrite bind_lift, mask_and_same by (by rewrite !length_fmap).
    rewrite (bind_setitem_new _ _ _ 0 ys) by done.
    unfold masked_fill at 1.
    rewrite decide_True by (rewrite length_zip_with, !length_fmap; lia).
    cbn [insert list_insert].
    rewrite (bind_setitem_new _ _ _ 0 _) by done.
    unfold masked_fill at 1.
    rewrite decide_True by (rewrite !length_zip_with, !length_fmap; lia).
    cbn [insert list_insert]. rewrite nearest_class_fill by done.
    rewrite (bind_setitem_new _ _ _ 1 (replicate (length ys) (Num 1))) by done.
    rewrite masked_fill_isnan by done. cbn [insert list_insert].
    rewrite bind_set_weight. unfold mret, eff_ret. simpl.
    do 3 f_equal; lia.
Qed.

Lemma bind_ok {A B} (m : M A) (k : A → M B) (s s' : state) a :
  m s = (Ok a, s') → (m ≫= k) s = k a s'.
Proof. intros Hm. unfold mbind, eff_bind. by rewrite Hm. Qed.

Section bce_run.
Variable flog : fval → fval.

(** The loss of the parent class, on what the layer hands it. *)
Definition bce_neutral (r : reduction) (xs ys we : tensor) : res out :=
  binary_cross_entropy flog (Some (neutral (Num 0) ys we)) r xs
    (nearest_class xs ys).

(** The state the call ends in: [self.weight] is reset only when the loss of
    the parent class was computed. *)
Definition finished (s : state) (xs ys : tensor) (w : option tensor)
  (we : tensor) (ok : bool) : state :=
  if ok
  then mkState (heap (prepared s xs ys w we)) (prev_loc (length (heap s)) w)
  else prepared s xs ys w we.

Lemma BCELossIPU_forward_run r s input target xs ys w we :
  heap s !! input = Some xs → heap s !! target = Some ys →
  weight_tensor s w →
  length xs = length ys →
  weight_on (length ys) w = Ok we → length we = length ys →
  BCELossIPU_forward flog r input target s
  = ((λ o, rescale o (length ys) (count_observed ys)) <$> bce_neutral r xs ys we,
     finished s xs ys w we
       (if bce_neutral r xs ys we is Ok _ then true else false)).
Proof.
  intros Hi Ht Hw Hlen Hwe Hwlen. unfold BCELossIPU_forward.
  rewrite (bind_ok _ _ _ _ _
    (BCELossIPU_prepare_run s input target xs ys w we Hi Ht Hw Hlen Hwe Hwlen)).
  unfold finished, bce_neutral, prepared. destruct s as [h sw]. simpl in *.
  unfold BCELoss_forward.
  rewrite bind_assoc, (bind_read_old _ _ _ _ xs) by done.
  rewrite bind_assoc.
  rewrite (bind_read_new _ _ _ 0 (nearest_class xs ys)) by done.
  rewrite bind_assoc, bind_get_weight. cbn [self_weight].
  rewrite bind_assoc, bind_assoc.
  rewrite <-(Nat.add_assoc (length h)).
  rewrite (bind_read_new _ _ _ _ (neutral (Num 0) ys we))
    by (by destruct w).
  rewrite bind_mret, bind_lift, length_fmap, mask_sum_observed.
  by destruct (binary_cross_entropy _ _ _ _ _).
Qed.

End bce_run.

(** ** What a call that returns tells about its arguments *)

Lemma masked_fill_ok_inv (t : tensor) m v t' :
  masked_fill t m v = Ok t' → length m = length t ∧ length t' = length t.
Proof.
  unfold masked_fill. case_decide as Hlen; [|done]. intros [= <-].
  split; [done|]. rewrite length_zip_with. lia.
Qed.

Lemma binary_cross_entropy_ok_inv flog w r (xs ys : tensor) o :
  binary_cross_entropy flog w r xs ys = Ok o → length ys = length xs.
Proof. unfold binary_cross_entropy. by case_decide. Qed.

(** One step of a run that is known to return: [lem] runs the step. *)
Tactic Notation "step_in" hyp(H) uconstr(lem) :=
  rewrite ?bind_assoc in H; rewrite lem in H by done;
  cbn [length app insert list_insert self_weight heap fst snd] in H.

(** The same for a step that may raise: it did not. *)
Ltac case_in H E :=
  match type of H with
  | match ?r with _ => _ end = _ => destruct r eqn:E; [|discriminate H]
  end;
  cbn [length app insert list_insert self_weight heap fst snd] in H.

Ltac fill_in H :=
  let E := fresh "E" in
  case_in H E; apply masked_fill_ok_inv in E as [? ?].

Ltac bce_tail H h xs ys we i :=
  step_in H (bind_read_new (B:=out) h _ _ 0 ys);
  step_in H (bind_read_old (B:=out) h _ _ _ xs);
  step_in H (bind_lift (B:=out)); (let E := fresh "E" in case_in H E);
  step_in H (bind_lift (B:=out)); (let E := fresh "E" in case_in H E);
  step_in H (bind_setitem_new (B:=out) h _ _ 0 ys); fill_in H;
  rewrite ?bind_assoc in H;
  erewrite (bind_setitem_new (B:=out) h _ _ 0) in H by done;
  fill_in H;
  step_in H (bind_setitem_new (B:=out) h _ _ i we); fill_in H;
  step_in H (bind_set_weight (B:=out));
  unfold BCELoss_forward in H;
  step_in H (bind_mret (B:=out));
  step_in H (bind_read_old (B:=out) h _ _ _ xs);
  rewrite ?bind_assoc in H;
  erewrite (bind_read_new (B:=out) h _ _ 0) in H by done;
  step_in H (bind_get_weight (B:=out));
  rewrite ?bind_assoc in H;
  erewrite (bind_read_new (B:=out) h _ _ i) in H by done;
  step_in H (bind_mret (B:=out));
  step_in H (bind_lift (B:=out));
  (let E := fresh "E" in
   case_in H E; apply binary_cross_entropy_ok_inv in E);
  rewrite ?length_fmap in *.

Lemma BCELossIPU_forward_ok_inv flog r s input target xs ys w o s' :
  heap s !! input = Some xs → heap s !! target = Some ys →
  weight_tensor s w →
  BCELossIPU_forward flog r input target s = (Ok o, s') →
  length xs = length ys ∧
  ∃ we, weight_on (length ys) w = Ok we ∧ length we = length ys.
Proof.
  destruct s as [h sw]. unfold weight_tensor. simpl.
  intros Hi Ht Hw. pattern (mkState h sw). apply from_nil. intros H.
  unfold BCELossIPU_forward, BCELossIPU_prepare in H.
  step_in H (bind_clone_old (B:=out) h _ _ _ ys).
  step_in H (bind_get_weight (B:=out)).
  destruct sw as [l|], w as [wv|]; try done.
  - step_in H (bind_clone_old (B:=out) h _ _ _ wv).
    step_in H (bind_read_new (B:=out) h _ _ 0 ys).
    step_in H (bind_read_old (B:=out) h _ _ _ wv).
    step_in H (bind_lift (B:=out)).
    destruct (infer_size (length ys) (length wv)) as [n|] eqn:E1; [|done].
    step_in H (bind_lift (B:=out)).
    destruct (expand wv n) as [we|] eqn:E2; [|done].
    step_in H (bind_alloc (B:=out)).
    step_in H (bind_mret (B:=out)).
    bce_tail H h xs ys we 2.
    split; [lia|].
    exists we. split; [|lia]. simpl. by rewrite E1.
  - step_in H (bind_read_new (B:=out) h _ _ 0 ys).
    step_in H (bind_alloc (B:=out)).
    step_in H (bind_mret (B:=out)).
    bce_tail H h xs ys (replicate (length ys) (Num 1)) 1.
    split; [lia|]. eexists. split; [done|]. by rewrite length_replicate.
Qed.

(** ** The cross-entropy on neutralised and on trimmed tensors *)

(** What is asked of the logarithm: on [[0, 1]] it is a number or minus
    infinity. *)
Definition log_on_unit (flog : fval → fval) : Prop :=
  ∀ q, (0 <= q)%Q → (q <= 1)%Q →
    flog (Num q) = Inf true ∨ ∃ r, flog (Num q) = Num r.

Lemma in_unit_inv x :
  in_unit x = true → ∃ p, x = Num p ∧ (0 <= p)%Q ∧ (p <= 1)%Q.
Proof.
  unfold in_unit, fge. destruct x as [p|[]|]; simpl; try done.
  intros [H0 H1]%andb_true_iff. exists p. split; [done|]. split.
  - apply Qle_alt. by destruct (0 ?= p)%Q.
  - apply Qle_alt. by destruct (p ?= 1)%Q.
Qed.

Lemma fmul_one_r a : fmul a (Num 1) ≡ a.
Proof.
  destruct a as [p|s|]; simpl; try done.
  apply Num_proper. ring.
Qed.

Lemma fmul_zero_r a : zero_or_nan (fmul a (Num 0)).
Proof.
  destruct a as [p|s|]; simpl.
  - left. apply Num_proper. ring.
  - by right.
  - by right.
Qed.

Lemma zip_with_fmul_ones (ls : tensor) :
  zip_with fmul ls (replicate (length ls) (Num 1)) ≡ ls.
Proof.
  induction ls as [|l ls IH]; [done|]. simpl.
  f_equiv; [apply fmul_one_r|done].
Qed.

Lemma nearest_class_none (xs ys : tensor) :
  Forall (λ y, isnan y = false) ys → length xs = length ys →
  nearest_class xs ys = ys.
Proof.
  intros Hall. revert xs.
  induction Hall as [|y ys Hy _ IH]; intros [|x xs] Hlen; try done.
  unfold nearest_class. cbn [zip_with]. rewrite Hy. f_equal.
  apply IH. simpl in Hlen. lia.
Qed.

Section bce_facts.
Variable flog : fval → fval.

Lemma clamped_log_finite q :
  log_on_unit flog → (0 <= q)%Q → (q <= 1)%Q →
  ∃ r, fmax (flog (Num q)) (Num (-100)) = Num r.
Proof.
  intros Hlog H0 H1. destruct (Hlog q H0 H1) as [->|[r ->]].
  - by exists (-100)%Q.
  - unfold fmax. destruct (flt _ _); eauto.
Qed.

(** With the target at 0 or 1 and the prediction in [[0, 1]], one element
    of the cross-entropy is a number. *)
Lemma bce_elem_finite x y :
  log_on_unit flog → in_unit x = true → y = Num 0 ∨ y = Num 1 →
  ∃ e, bce_elem flog x y = Num e.
Proof.
  intros Hlog (p & -> & H0 & H1)%in_unit_inv Hy. unfold bce_elem.
  destruct (clamped_log_finite p Hlog H0 H1) as [b ->].
  assert (fsub (Num 1) (Num p) = Num (1 + - p)) as -> by done.
  destruct (clamped_log_finite (1 + - p) Hlog) as [a ->]; [lra|lra|].
  destruct Hy as [-> | ->]; simpl; eauto.
Qed.

(** The target put in the place of a missing one is 0 or 1, for a
    prediction that is a number. *)
Lemma nearest_class_num p :
  (if flt (Num p) one_half then Num 0
   else if fge (Num p) one_half then Num 1 else NaN)
  = if Qlt_le_dec p (1 # 2) then Num 0 else Num 1.
Proof.
  unfold fge, one_half, flt, fle.
  rewrite <-(Qcompare_antisym p (1 # 2)).
  destruct (Qlt_le_dec p (1 # 2)) as [Hlt|Hle].
  - by rewrite (proj1 (Qlt_alt _ _) Hlt).
  - destruct (Qcompare_spec p (1 # 2)) as [?|Hlt|?]; try done.
    by apply Qlt_not_le in Hlt.
Qed.

Lemma bce_weighted_same w r (xs ys : tensor) :
  length ys = length xs → length w = length xs →
  binary_cross_entropy flog (Some w) r xs ys
  = if forallb in_unit xs
    then Ok (reduce r (zip_with fmul (zip_with (bce_elem flog) xs ys) w))
    else Raise RuntimeError.
Proof.
  intros Hy Hw. unfold binary_cross_entropy.
  rewrite decide_True by done.
  rewrite Hy, <-Hw, infer_size_same. simpl. rewrite expand_same. simpl.
  destruct (forallb in_unit xs); [|done].
  by rewrite decide_True.
Qed.

Lemma bce_unweighted_same r (xs ys : tensor) :
  length ys = length xs →
  binary_cross_entropy flog None r xs ys
  = if forallb in_unit xs
    then Ok (reduce r (zip_with (bce_elem flog) xs ys))
    else Raise RuntimeError.
Proof.
  intros Hy. unfold binary_cross_entropy.
  rewrite decide_True by done. simpl.
  by destruct (forallb in_unit xs).
Qed.

(** The weight of the layer and its expansion give the same loss. *)
Lemma bce_expanded_weight wv we r (xs ys : tensor) :
  weight_on (length ys) (Some wv) = Ok we → length we = length ys →
  binary_cross_entropy flog (Some wv) r xs ys
  = binary_cross_entropy flog (Some we) r xs ys.
Proof.
  intros Hwe Hlen. unfold binary_cross_entropy.
  case_decide as Hxy; [|done]. simpl in Hwe.
  destruct (infer_size (length ys) (length wv)) as [n|e] eqn:Hn; [|done].
  simpl in *. rewrite Hwe. simpl.
  by rewrite <-Hlen, infer_size_same; simpl; rewrite expand_same.
Qed.

End bce_facts.

Lemma nearest_class_lookup (xs ys : tensor) i x y :
  xs !! i = Some x → ys !! i = Some y →
  nearest_class xs ys !! i
  = Some (if isnan y
          then if flt x one_half then Num 0
               else if fge x one_half then Num 1 else y
          else y).
Proof.
  intros Hx Hy. unfold nearest_class. by rewrite lookup_zip_with, Hx, Hy.
Qed.

Lemma neutral_lookup v (ys zs : tensor) i y z :
  zs !! i = Some z → ys !! i = Some y →
  neutral v ys zs !! i = Some (if isnan y then v else z).
Proof.
  intros Hz Hy. unfold neutral. by rewrite lookup_zip_with, Hz, Hy.
Qed.

(** ** Masking is exclusion, element by element *)

(** Without the positions of the missing targets, the losses of the
    neutralised tensors are the losses of the trimmed tensors. *)
Lemma observed_zip_neutral (f : fval → fval → fval) (xs ys : tensor) :
  length xs = length ys →
  observed ys (zip_with f (neutral (Num 0) ys xs) (neutral (Num 0) ys ys))
  = zip_with f (observed ys xs) (observed ys ys).
Proof.
  revert xs. induction ys as [|y ys IH]; intros [|x xs] Hlen; try done.
  rewrite !neutral_cons. cbn [zip_with observed]. simpl in Hlen.
  destruct (isnan y); cbn [zip_with]; rewrite IH by lia; done.
Qed.

Lemma missing_zip_neutral (f : fval → fval → fval) (xs ys : tensor) i :
  f (Num 0) (Num 0) ≡ Num 0 → length xs = length ys →
  ys !! i = Some NaN →
  ∃ z, zip_with f (neutral (Num 0) ys xs) (neutral (Num 0) ys ys) !! i = Some z ∧
       z ≡ Num 0.
Proof.
  intros Hf Hlen Hy.
  destruct (lookup_lt_is_Some_2 xs i) as [x Hx].
  { rewrite Hlen. by eapply lookup_lt_Some. }
  exists (f (Num 0) (Num 0)). split; [|done].
  rewrite lookup_zip_with.
  by rewrite (neutral_lookup _ ys xs i NaN x), (neutral_lookup _ ys ys i NaN NaN).
Qed.

Section bce_elementwise.
Variable flog : fval → fval.

Lemma observed_bce_neutral (xs ys we : tensor) :
  length xs = length ys → length we = length ys →
  observed ys (zip_with fmul (zip_with (bce_elem flog) xs (nearest_class xs ys))
                             (neutral (Num 0) ys we))
  = zip_with fmul (zip_with (bce_elem flog) (observed ys xs) (observed ys ys))
                  (observed ys we).
Proof.
  revert xs we.
  induction ys as [|y ys IH]; intros [|x xs] [|v we] Hlen Hwlen; try done.
  unfold nearest_class. rewrite neutral_cons. cbn [zip_with observed].
  fold (nearest_class xs ys). simpl in Hlen, Hwlen.
  destruct (isnan y); cbn [zip_with]; rewrite IH by lia; done.
Qed.

Lemma missing_bce_neutral (xs ys we : tensor) i :
  log_on_unit flog → Forall (λ x, in_unit x = true) xs →
  length xs = length ys → length we = length ys →
  ys !! i = Some NaN →
  ∃ z, zip_with fmul (zip_with (bce_elem flog) xs (nearest_class xs ys))
                     (neutral (Num 0) ys we) !! i = Some z ∧
       z ≡ Num 0.
Proof.
  intros Hlog Hunit Hlen Hwlen Hy.
  destruct (lookup_lt_is_Some_2 xs i) as [x Hx].
  { rewrite Hlen. by eapply lookup_lt_Some. }
  destruct (lookup_lt_is_Some_2 we i) as [v Hv].
  { rewrite Hwlen. by eapply lookup_lt_Some. }
  pose proof (proj1 (Forall_lookup _ _) Hunit i x Hx) as Hxu. simpl in Hxu.
  destruct (in_unit_inv x Hxu) as (p & -> & _).
  rewrite !lookup_zip_with, Hx.
  rewrite (nearest_class_lookup xs ys i (Num p) NaN) by done.
  rewrite (neutral_lookup _ ys we i NaN v) by done.
  cbn [isnan]. rewrite nearest_class_num. simpl.
  destruct (bce_elem_finite flog (Num p)
              (if Qlt_le_dec p (1 # 2) then Num 0 else Num 1) Hlog Hxu)
    as [e ->]; [by destruct (Qlt_le_dec _ _); eauto|].
  eexists. split; [done|]. simpl. apply Num_proper. ring.
Qed.

End bce_elementwise.

#[global] Instance rescale_proper n k :
  Proper ((≡) ==> (≡)) (λ o, rescale o n k).
Proof.
  intros [v|vs] [v'|vs']; unfold rescale, equiv, out_equiv; simpl; try done.
  - intros Hv. by rewrite Hv.
  - intros Hvs. induction Hvs as [|x y xs ys Hx _ IH]; [done|].
    rewrite !fmap_cons. f_equiv; [by rewrite Hx|done].
Qed.

Lemma res_rescale_proper (x y : res out) n k :
  x ≡ y → (λ o, rescale o n k) <$> x ≡ (λ o, rescale o n k) <$> y.
Proof.
  destruct x as [o|e], y as [o'|e']; try done.
  intros Ho. by apply rescale_proper.
Qed.

(** ** The properties of the loss layers *)

Lemma forallb_observed (xs ys : tensor) :
  Forall (λ x, in_unit x = true) xs → forallb in_unit (observed ys xs) = true.
Proof.
  intros Hall. revert ys. induction Hall as [|x xs Hx _ IH]; intros [|y ys];
    try done.
  simpl. destruct (isnan y); [done|]. simpl. by rewrite Hx, IH.
Qed.

Lemma Forall_forallb_in_unit (xs : tensor) :
  Forall (λ x, in_unit x = true) xs → forallb in_unit xs = true.
Proof. induction 1 as [|x xs Hx _ IH]; [done|]. simpl. by rewrite Hx, IH. Qed.

(** Every element of the loss is NaN. *)
Definition all_nan (o : out) : Prop :=
  match o with
  | Scalar v => v = NaN
  | Vector vs => Forall (λ v, v = NaN) vs
  end.

(** A call that raises, or returns nothing but NaN. *)
Definition raises_or_nan (x : res out) : Prop :=
  match x with
  | Raise _ => True
  | Ok o => all_nan o
  end.

Lemma rescale_zero_count r (ls : tensor) n :
  Forall zero_or_nan ls → all_nan (rescale (reduce r ls) n 0).
Proof.
  intros Hls. destruct r; simpl.
  - induction Hls as [|l ls Hl _ IH]; constructor; [|done].
    by apply zero_or_nan_rescale.
  - by apply zero_or_nan_rescale, zero_or_nan_mean, zero_or_nan_sum.
  - by apply zero_or_nan_rescale, zero_or_nan_sum.
Qed.

Lemma all_missing_zero f (xs ys : tensor) :
  f (Num 0) (Num 0) ≡ Num 0 → Forall (λ y, isnan y = true) ys →
  Forall zero_or_nan (zip_with f (neutral (Num 0) ys xs) (neutral (Num 0) ys ys)).
Proof.
  intros Hf Hall. revert xs.
  induction Hall as [|y ys Hy _ IH]; intros [|x xs]; try by constructor.
  rewrite !neutral_cons, Hy. cbn [zip_with]. constructor; [by left|done].
Qed.

Lemma all_missing_weight_zero (ls ys we : tensor) :
  Forall (λ y, isnan y = true) ys →
  Forall zero_or_nan (zip_with fmul ls (neutral (Num 0) ys we)).
Proof.
  intros Hall. revert ls we.
  induction Hall as [|y ys Hy _ IH]; intros [|l ls] [|v we]; try by constructor.
  rewrite neutral_cons, Hy. cbn [zip_with]. constructor; [apply fmul_zero_r|done].
Qed.

(** The claim that masking is exclusion whatever the layer's reduction,
    for the squared error. *)
Definition masking_is_exclusion_claim : Prop :=
  ∀ r s input target xs ys,
    heap s !! input = Some xs → heap s !! target = Some ys →
    length xs = length ys → 0 < count_observed ys →
    (MSELossIPU_forward r input target s).1
    ≡ mse_loss r (observed ys xs) (observed ys ys).

Section loss_properties.
Variable flog : fval → fval.

(** C4. For each of the three layers and each reduction, on a prediction and
    a target of one shape, the value returned is the loss of the parent class
    on the neutralised tensors, multiplied by the number of elements, then
    divided by the number of targets that are not missing, in this order, as
    [loss * nan_targets.numel() / ((~nan_targets).sum())] reads. For the
    cross-entropy the neutralised tensors are the prediction, the target with
    0 or 1 in the place of the missing entries, and the weight with zeros
    there. *)
Theorem masked_loss_is_rescaled_loss r s input target xs ys :
  heap s !! input = Some xs → heap s !! target = Some ys →
  length xs = length ys →
  let scale := out_map (λ l, fdiv (fmul l (of_nat (length ys)))
                                  (of_nat (count_observed ys))) in
  (MSELossIPU_forward r input target s).1
  = scale <$> mse_loss r (neutral (Num 0) ys xs) (neutral (Num 0) ys ys) ∧
  (L1LossIPU_forward r input target s).1
  = scale <$> l1_loss r (neutral (Num 0) ys xs) (neutral (Num 0) ys ys) ∧
  (∀ w we,
     weight_tensor s w →
     weight_on (length ys) w = Ok we → length we = length ys →
     (BCELossIPU_forward flog r input target s).1
     = scale <$> binary_cross_entropy flog (Some (neutral (Num 0) ys we)) r xs
                   (nearest_class xs ys)).
Proof.
  intros Hi Ht Hlen scale. split_and!.
  - rewrite MSELossIPU_forward_unfold, (zero_masked_run _ _ _ _ xs ys) by done.
    by rewrite decide_True by done.
  - rewrite L1LossIPU_forward_unfold, (zero_masked_run _ _ _ _ xs ys) by done.
    by rewrite decide_True by done.
  - intros w we Hw Hwe Hwlen.
    by rewrite (BCELossIPU_forward_run flog r s input target xs ys w we) by done.
Qed.

(** C1, amended. On a prediction and a target of one shape, each of the
    three layers reduces a tensor [ls] of losses, one per element, and
    returns that reduction multiplied by the number of elements and divided
    by the number of targets that are not missing. Masking is exclusion
    element by element: without the positions of the missing targets, [ls] is
    the unreduced loss of the parent class on the tensors without those
    positions; at those positions it is zero. (For the cross-entropy: with
    predictions in [[0, 1]], a logarithm that is a number or minus infinity
    there, and the weight of the layer expanded to the shape of the target,
    ones when it has none.) When no target is missing, what is returned is
    the loss of the parent class multiplied and then divided by the number of
    elements. *)
Theorem masking_is_exclusion_elementwise s input target xs ys :
  heap s !! input = Some xs → heap s !! target = Some ys →
  length xs = length ys →
  let n := length ys in
  let k := count_observed ys in
  (∃ ls,
     (∀ r, (MSELossIPU_forward r input target s).1
           = Ok (rescale (reduce r ls) n k)) ∧
     length ls = n ∧
     mse_loss RNone (observed ys xs) (observed ys ys)
     = Ok (Vector (observed ys ls)) ∧
     (∀ i, ys !! i = Some NaN → ∃ z, ls !! i = Some z ∧ z ≡ Num 0)) ∧
  (∃ ls,
     (∀ r, (L1LossIPU_forward r input target s).1
           = Ok (rescale (reduce r ls) n k)) ∧
     length ls = n ∧
     l1_loss RNone (observed ys xs) (observed ys ys)
     = Ok (Vector (observed ys ls)) ∧
     (∀ i, ys !! i = Some NaN → ∃ z, ls !! i = Some z ∧ z ≡ Num 0)) ∧
  (∀ w we,
     log_on_unit flog → Forall (λ x, in_unit x = true) xs →
     weight_tensor s w →
     weight_on n w = Ok we → length we = n →
     ∃ ls,
       (∀ r, (BCELossIPU_forward flog r input target s).1
             = Ok (rescale (reduce r ls) n k)) ∧
       length ls = n ∧
       binary_cross_entropy flog (Some (observed ys we)) RNone
         (observed ys xs) (observed ys ys)
       = Ok (Vector (observed ys ls)) ∧
       (∀ i, ys !! i = Some NaN → ∃ z, ls !! i = Some z ∧ z ≡ Num 0)) ∧
  (count_observed ys = length ys →
   ∀ r,
     (MSELossIPU_forward r input target s).1
     = (λ o, rescale o n n) <$> mse_loss r xs ys ∧
     (L1LossIPU_forward r input target s).1
     = (λ o, rescale o n n) <$> l1_loss r xs ys ∧
     (∀ w we,
        weight_tensor s w →
        weight_on n w = Ok we → length we = n →
        (BCELossIPU_forward flog r input target s).1
        ≡ (λ o, rescale o n n) <$> binary_cross_entropy flog w r xs ys)).
Proof.
  intros Hi Ht Hlen n k. subst n k.
  assert (∀ f, f (Num 0) (Num 0) ≡ Num 0 →
    ∃ ls,
      (∀ r, (zero_masked_forward (elem_loss f r) input target s).1
            = Ok (rescale (reduce r ls) (length ys) (count_observed ys))) ∧
      length ls = length ys ∧
      elem_loss f RNone (observed ys xs) (observed ys ys)
      = Ok (Vector (observed ys ls)) ∧
      (∀ i, ys !! i = Some NaN → ∃ z, ls !! i = Some z ∧ z ≡ Num 0)) as Hz.
  { intros f Hf.
    exists (zip_with f (neutral (Num 0) ys xs) (neutral (Num 0) ys ys)).
    split_and!.
    - intros r. rewrite (zero_masked_run _ _ _ _ xs ys) by done.
      rewrite decide_True by done. simpl.
      by rewrite elem_loss_same by (by rewrite !neutral_length by done).
    - rewrite length_zip_with, !neutral_length by done. apply Nat.min_id.
    - rewrite elem_loss_same by (by rewrite !observed_length by done).
      by rewrite observed_zip_neutral.
    - intros i Hy. by apply missing_zip_neutral. }
  assert (∀ f r, count_observed ys = length ys →
    (zero_masked_forward (elem_loss f r) input target s).1
    = (λ o, rescale o (length ys) (length ys)) <$> elem_loss f r xs ys) as Hnone.
  { intros f r Hall. rewrite (zero_masked_run _ _ _ _ xs ys) by done.
    rewrite decide_True by done. simpl.
    rewrite !neutral_none by (done || by apply count_observed_all).
    by rewrite Hall. }
  split_and!.
  - apply (Hz sq_err), sq_err_zero.
  - apply (Hz abs_err), abs_err_zero.
  - intros w we Hlog Hunit Hw Hwe Hwlen.
    exists (zip_with fmul (zip_with (bce_elem flog) xs (nearest_class xs ys))
                          (neutral (Num 0) ys we)).
    split_and!.
    + intros r.
      rewrite (BCELossIPU_forward_run flog r s input target xs ys w we) by done.
      simpl. unfold bce_neutral.
      rewrite bce_weighted_same
        by (by rewrite ?nearest_class_length, ?neutral_length by done).
      by rewrite Forall_forallb_in_unit by done.
    + rewrite !length_zip_with, nearest_class_length, neutral_length by done.
      lia.
    + rewrite bce_weighted_same by (by rewrite !observed_length by done).
      rewrite forallb_observed by done.
      by rewrite observed_bce_neutral.
    + intros i Hy. by apply missing_bce_neutral.
  - intros Hall r. split_and!.
    + by apply (Hnone sq_err).
    + by apply (Hnone abs_err).
    + intros w we Hw Hwe Hwlen.
      pose proof (count_observed_all ys Hall) as Hnn.
      rewrite (BCELossIPU_forward_run flog r s input target xs ys w we) by done.
      simpl. unfold bce_neutral.
      rewrite nearest_class_none, neutral_none by done.
      rewrite Hall.
      apply res_rescale_proper.
      destruct w as [wv|].
      * by rewrite (bce_expanded_weight flog wv we).
      * injection Hwe as <-.
        rewrite bce_weighted_same, bce_unweighted_same
          by (by rewrite ?length_replicate).
        destruct (forallb in_unit xs); [|done].
        change (Ok ?a ≡ Ok ?b) with (a ≡ b). apply reduce_proper.
        rewrite <-Hlen.
        assert (length xs = length (zip_with (bce_elem flog) xs ys))
          as -> by (rewrite length_zip_with; lia).
        apply zip_with_fmul_ones.
Qed.

(** C6. For each of the three layers and each reduction: when every target
    is missing, the call raises or returns NaN (for the reduction ['none'],
    NaN at every element). *)
Theorem all_missing_raises_or_nan r s input target xs ys w :
  heap s !! input = Some xs → heap s !! target = Some ys →
  weight_tensor s w →
  Forall (λ y, isnan y = true) ys →
  raises_or_nan (MSELossIPU_forward r input target s).1 ∧
  raises_or_nan (L1LossIPU_forward r input target s).1 ∧
  raises_or_nan (BCELossIPU_forward flog r input target s).1.
Proof.
  intros Hi Ht Hw Hall.
  pose proof (count_observed_none ys Hall) as Hzero.
  assert (∀ f, f (Num 0) (Num 0) ≡ Num 0 →
    raises_or_nan (zero_masked_forward (elem_loss f r) input target s).1) as Hz.
  { intros f Hf. rewrite (zero_masked_run _ _ _ _ xs ys) by done.
    case_decide as Hlen; [|done]. simpl.
    rewrite elem_loss_same by (by rewrite !neutral_length by done).
    simpl. rewrite Hzero. by apply rescale_zero_count, all_missing_zero. }
  split_and!.
  - apply (Hz sq_err), sq_err_zero.
  - apply (Hz abs_err), abs_err_zero.
  - destruct (BCELossIPU_forward flog r input target s) as [[o|e] s'] eqn:Hrun;
      [|done].
    destruct (BCELossIPU_forward_ok_inv _ _ _ _ _ xs ys w _ _ Hi Ht Hw Hrun)
      as (Hlen & we & Hwe & Hwlen).
    rewrite (BCELossIPU_forward_run flog r s input target xs ys w we) in Hrun
      by done.
    unfold bce_neutral in Hrun.
    rewrite bce_weighted_same in Hrun
      by (by rewrite ?nearest_class_length, ?neutral_length by done).
    destruct (forallb in_unit xs); [|done].
    injection Hrun as <- _. simpl. rewrite Hzero.
    by apply rescale_zero_count, all_missing_weight_zero.
Qed.

End loss_properties.

Section weight_properties.
Variable flog : fval → fval.

(** C5. In the cross-entropy layer, called on a prediction and a target of
    one shape (and a weight that fits them): the parent class computes the
    loss in a state where the target it is given holds, at every position
    whose target is missing, 0 when the prediction there is below one half
    and 1 when it is at least one half (so, for a prediction that is a
    number, 0 below one half and 1 otherwise), and where [self.weight] holds
    0 at that position. *)
Theorem nan_targets_take_nearest_class r s input target xs ys w we :
  heap s !! input = Some xs → heap s !! target = Some ys →
  weight_tensor s w →
  length xs = length ys →
  weight_on (length ys) w = Ok we → length we = length ys →
  ∃ target' weight' nan_targets prev_weight s1 used_target used_weight,
    BCELossIPU_prepare input target s
    = (Ok (target', nan_targets, prev_weight), s1) ∧
    BCELossIPU_forward flog r input target s
    = (loss ← BCELoss_forward flog r input target';
       set_weight prev_weight;;
       mret (rescale loss (length nan_targets)
                     (mask_sum (negb <$> nan_targets)))) s1 ∧
    heap s1 !! target' = Some used_target ∧
    self_weight s1 = Some weight' ∧
    heap s1 !! weight' = Some used_weight ∧
    ∀ i x, ys !! i = Some NaN → xs !! i = Some x →
      (flt x one_half = true → used_target !! i = Some (Num 0)) ∧
      (fge x one_half = true → used_target !! i = Some (Num 1)) ∧
      (∀ p, x = Num p →
         used_target !! i
         = Some (if Qlt_le_dec p (1 # 2) then Num 0 else Num 1)) ∧
      used_weight !! i = Some (Num 0).
Proof.
  intros Hi Ht Hw Hlen Hwe Hwlen.
  pose proof (BCELossIPU_prepare_run s input target xs ys w we
                Hi Ht Hw Hlen Hwe Hwlen) as Hprep.
  exists (length (heap s) + 0), (length (heap s) + 1 + length (prev_ext w)),
    (isnan <$> ys), (prev_loc (length (heap s)) w), (prepared s xs ys w we),
    (nearest_class xs ys), (neutral (Num 0) ys we).
  split_and!.
  - done.
  - unfold BCELossIPU_forward. by rewrite (bind_ok _ _ _ _ _ Hprep).
  - simpl. by rewrite lookup_app_r, Nat.add_comm, Nat.add_sub by lia.
  - done.
  - simpl. rewrite lookup_app_r by lia.
    replace (length (heap s) + 1 + length (prev_ext w) - length (heap s))
      with (1 + length (prev_ext w)) by lia.
    simpl. by rewrite list_lookup_middle.
  - intros i x Hy Hx.
    rewrite (nearest_class_lookup xs ys i x NaN) by done. cbn [isnan].
    destruct (lookup_lt_is_Some_2 we i) as [v Hv].
    { rewrite Hwlen. by eapply lookup_lt_Some. }
    rewrite (neutral_lookup _ ys we i NaN v) by done. cbn [isnan].
    split_and!; [| | |done].
    + by intros ->.
    + intros Hge. destruct (flt x one_half) eqn:Hlt; [|by rewrite Hge].
      by rewrite (flt_fge_excl _ _ Hlt) in Hge.
    + intros p ->. by rewrite nearest_class_num.
Qed.

(** C10. After a call of the cross-entropy layer that returns, the layer's
    [weight] holds the values it held before the call ([None] when there was
    none), the prediction and the target are as they were, and the same call
    again returns the same loss. *)
Theorem BCELossIPU_forward_restores_weight r s input target xs ys w o s' :
  heap s !! input = Some xs → heap s !! target = Some ys →
  weight_tensor s w →
  BCELossIPU_forward flog r input target s = (Ok o, s') →
  weight_tensor s' w ∧
  heap s' !! input = Some xs ∧ heap s' !! target = Some ys ∧
  ∃ s'', BCELossIPU_forward flog r input target s' = (Ok o, s'').
Proof.
  intros Hi Ht Hw Hrun.
  destruct (BCELossIPU_forward_ok_inv _ _ _ _ _ xs ys w _ _ Hi Ht Hw Hrun)
    as (Hlen & we & Hwe & Hwlen).
  rewrite (BCELossIPU_forward_run flog r s input target xs ys w we) in Hrun
    by done.
  destruct (bce_neutral flog r xs ys we) as [o0|e] eqn:Hloss; [|done].
  injection Hrun as <- <-. unfold finished, prepared.
  assert (weight_tensor
            (mkState (heap s ++ [nearest_class xs ys] ++ prev_ext w
                        ++ [neutral (Num 0) ys we])
                     (prev_loc (length (heap s)) w)) w) as Hw'.
  { unfold weight_tensor. destruct w as [wv|]; simpl; [|done].
    by rewrite lookup_app_r, Nat.add_comm, Nat.add_sub by lia. }
  assert (∀ l t, heap s !! l = Some t →
            (heap s ++ [nearest_class xs ys] ++ prev_ext w
               ++ [neutral (Num 0) ys we]) !! l = Some t) as Hold.
  { intros l t Hl. by apply lookup_app_l_Some. }
  split_and!; simpl; [done|by apply Hold|by apply Hold|].
  eexists.
  rewrite (BCELossIPU_forward_run flog r _ input target xs ys w we)
    by (done || by apply Hold).
  by rewrite Hloss.
Qed.

End weight_properties.

(** ** Running the metrics *)

(** [precision_ipu], [accuracy_ipu] and [recall_ipu] have one body; [stat]
    is the statistic with its keyword arguments filled in. *)
Definition class_masked (stat : tensor → list Z → res out)
  (preds target : loc) : M out :=
  target ← clone target;
  preds ← clone preds;
  t ← read target;
  let nans := isnan <$> t in
  setitem_mask target nans (Num 1);;
  setitem_mask preds nans (Num 0);;
  p ← read preds;
  t ← read target;
  lift (stat p (to_int <$> t)).

(** So have [auroc_ipu] and [average_precision_ipu]. *)
Definition rank_masked (stat : tensor → list Z → tensor → res out)
  (preds target : loc) (sample_weights : option loc) : M out :=
  target ← clone target;
  preds ← clone preds;
  t ← read target;
  let nan_targets := isnan <$> t in
  setitem_mask preds nan_targets (Num 0);;
  setitem_mask target nan_targets (Num 0);;
  sample_weights ← match sample_weights with
                   | None => alloc (replicate (length t) (Num 1))
                   | Some w => mret w
                   end;
  setitem_mask sample_weights nan_targets (Num 0);;
  p ← read preds;
  t ← read target;
  w ← read sample_weights;
  lift (stat p (to_int <$> t) w).

Lemma precision_ipu_unfold precision preds target kw :
  precision_ipu precision preds target kw
  = class_masked (λ p t, precision p t kw) preds target.
Proof. reflexivity. Qed.

Lemma accuracy_ipu_unfold accuracy preds target kw subset_accuracy :
  accuracy_ipu accuracy preds target kw subset_accuracy
  = class_masked (λ p t, accuracy p t kw subset_accuracy) preds target.
Proof. reflexivity. Qed.

Lemma recall_ipu_unfold recall preds target kw :
  recall_ipu recall preds target kw
  = class_masked (λ p t, recall p t kw) preds target.
Proof. reflexivity. Qed.

Lemma auroc_ipu_unfold auroc preds target kw sample_weights :
  auroc_ipu auroc preds target kw sample_weights
  = rank_masked (λ p t w, auroc p t kw w) preds target sample_weights.
Proof. reflexivity. Qed.

Lemma average_precision_ipu_unfold average_precision preds target kw sample_weights :
  average_precision_ipu average_precision preds target kw sample_weights
  = rank_masked (λ p t w, average_precision p t kw w) preds target sample_weights.
Proof. reflexivity. Qed.

Lemma class_masked_run stat s preds target xs ys :
  heap s !! preds = Some xs → heap s !! target = Some ys →
  length xs = length ys →
  class_masked stat preds target s
  = (stat (neutral (Num 0) ys xs) (to_int <$> neutral (Num 1) ys ys),
     mkState (heap s ++ [neutral (Num 1) ys ys; neutral (Num 0) ys xs])
             (self_weight s)).
Proof.
  destruct s as [h w]. simpl. intros Hp Ht Hlen.
  pattern (mkState h w) at 1. apply from_nil.
  unfold class_masked.
  rewrite (bind_clone_old _ _ _ _ ys) by done. cbn [length app].
  rewrite (bind_clone_old _ _ _ _ xs) by done. cbn [length app].
  rewrite (bind_read_new _ _ _ 0 ys) by done.
  rewrite (bind_setitem_new _ _ _ 0 ys) by done.
  rewrite masked_fill_isnan by done. cbn [insert list_insert].
  rewrite (bind_setitem_new _ _ _ 1 xs) by done.
  rewrite masked_fill_isnan by done. cbn [insert list_insert].
  rewrite (bind_read_new _ _ _ 1 (neutral (Num 0) ys xs)) by done.
  rewrite (bind_read_new _ _ _ 0 (neutral (Num 1) ys ys)) by done.
  done.
Qed.

(** With the weights supplied by the caller, the zeros are written into the
    caller's tensor. *)
Lemma rank_masked_run_supplied stat s preds target lw xs ys ws :
  heap s !! preds = Some xs → heap s !! target = Some ys →
  heap s !! lw = Some ws →
  length xs = length ys → length ws = length ys →
  rank_masked stat preds target (Some lw) s
  = (stat (neutral (Num 0) ys xs) (to_int <$> neutral (Num 0) ys ys)
          (neutral (Num 0) ys ws),
     mkState (<[lw := neutral (Num 0) ys ws]> (heap s)
                ++ [neutral (Num 0) ys ys; neutral (Num 0) ys xs])
             (self_weight s)).
Proof.
  destruct s as [h w]. simpl. intros Hp Ht Hw Hlen Hwlen.
  pattern (mkState h w) at 1. apply from_nil.
  unfold rank_masked.
  rewrite (bind_clone_old _ _ _ _ ys) by done. cbn [length app].
  rewrite (bind_clone_old _ _ _ _ xs) by done. cbn [length app].
  rewrite (bind_read_new _ _ _ 0 ys) by done.
  rewrite (bind_setitem_new _ _ _ 1 xs) by done.
  rewrite masked_fill_isnan by done. cbn [insert list_insert].
  rewrite (bind_setitem_new _ _ _ 0 ys) by done.
  rewrite masked_fill_isnan by done. cbn [insert list_insert].
  rewrite bind_mret.
  rewrite (bind_setitem_old _ _ _ _ ws) by done.
  rewrite masked_fill_isnan by done.
  rewrite <-(length_insert h lw (neutral (Num 0) ys ws)).
  rewrite (bind_read_new _ _ _ 1 (neutral (Num 0) ys xs)) by done.
  rewrite (bind_read_new _ _ _ 0 (neutral (Num 0) ys ys)) by done.
  rewrite (bind_read_old _ _ _ _ (neutral (Num 0) ys ws)); [done|].
  apply list_lookup_insert_eq. by eapply lookup_lt_Some.
Qed.

Lemma rank_masked_run_default stat s preds target xs ys :
  heap s !! preds = Some xs → heap s !! target = Some ys →
  length xs = length ys →
  rank_masked stat preds target None s
  = (stat (neutral (Num 0) ys xs) (to_int <$> neutral (Num 0) ys ys)
          (neutral (Num 0) ys (replicate (length ys) (Num 1))),
     mkState (heap s ++ [neutral (Num 0) ys ys; neutral (Num 0) ys xs;
                         neutral (Num 0) ys (replicate (length ys) (Num 1))])
             (self_weight s)).
Proof.
  destruct s as [h w]. simpl. intros Hp Ht Hlen.
  pattern (mkState h w) at 1. apply from_nil.
  unfold rank_masked.
  rewrite (bind_clone_old _ _ _ _ ys) by done. cbn [length app].
  rewrite (bind_clone_old _ _ _ _ xs) by done. cbn [length app].
  rewrite (bind_read_new _ _ _ 0 ys) by done.
  rewrite (bind_setitem_new _ _ _ 1 xs) by done.
  rewrite masked_fill_isnan by done. cbn [insert list_insert].
  rewrite (bind_setitem_new _ _ _ 0 ys) by done.
  rewrite masked_fill_isnan by done. cbn [insert list_insert].
  rewrite bind_alloc. cbn [length app].
  rewrite (bind_setitem_new _ _ _ 2 (replicate (length ys) (Num 1))) by done.
  rewrite masked_fill_isnan by (by rewrite length_replicate).
  cbn [insert list_insert].
  rewrite (bind_read_new _ _ _ 1 (neutral (Num 0) ys xs)) by done.
  rewrite (bind_read_new _ _ _ 0 (neutral (Num 0) ys ys)) by done.
  rewrite (bind_read_new _ _ _ 2 _) by done.
  done.
Qed.

(** ** The properties of the metrics *)

(** C7. In [precision_ipu], [accuracy_ipu] and [recall_ipu], called on a
    prediction and a target of one shape: the statistic is passed the
    prediction with 0 and the target with class 1 at every position whose
    target is missing, the other positions as they are, and its keyword
    arguments; it is passed no weight, so none is zeroed there. *)
Theorem missing_targets_get_fixed_classes
  (precision : tensor → list Z → stat_kwargs → res out)
  (accuracy : tensor → list Z → stat_kwargs → bool → res out)
  (recall : tensor → list Z → stat_kwargs → res out)
  s preds target xs ys kw subset_accuracy :
  heap s !! preds = Some xs → heap s !! target = Some ys →
  length xs = length ys →
  ∃ passed_preds passed_target,
    (precision_ipu precision preds target kw s).1
    = precision passed_preds passed_target kw ∧
    (accuracy_ipu accuracy preds target kw subset_accuracy s).1
    = accuracy passed_preds passed_target kw subset_accuracy ∧
    (recall_ipu recall preds target kw s).1
    = recall passed_preds passed_target kw ∧
    (∀ i, ys !! i = Some NaN →
       passed_target !! i = Some 1%Z ∧ passed_preds !! i = Some (Num 0)) ∧
    (∀ i x y, xs !! i = Some x → ys !! i = Some y → isnan y = false →
       passed_target !! i = Some (to_int y) ∧ passed_preds !! i = Some x).
Proof.
  intros Hp Ht Hlen.
  exists (neutral (Num 0) ys xs), (to_int <$> neutral (Num 1) ys ys).
  split_and!.
  - by rewrite precision_ipu_unfold, (class_masked_run _ _ _ _ xs ys).
  - by rewrite accuracy_ipu_unfold, (class_masked_run _ _ _ _ xs ys).
  - by rewrite recall_ipu_unfold, (class_masked_run _ _ _ _ xs ys).
  - intros i Hy.
    destruct (lookup_lt_is_Some_2 xs i) as [x Hx].
    { rewrite Hlen. by eapply lookup_lt_Some. }
    rewrite list_lookup_fmap.
    by rewrite (neutral_lookup _ ys ys i NaN NaN),
      (neutral_lookup _ ys xs i NaN x).
  - intros i x y Hx Hy Hnan.
    rewrite list_lookup_fmap.
    by rewrite (neutral_lookup _ ys ys i y y), (neutral_lookup _ ys xs i y x),
      Hnan.
Qed.

(** The caller's tensors of the example below: predictions, targets with
    the second one missing, and sample weights. *)
Definition weighted_batch : state :=
  mkState [[Num (9 # 10); Num (2 # 10); Num (4 # 10)];
           [Num 1; NaN; Num 0];
           [Num 1; Num 1; Num 1]] None.

(** C8 fails on the code: [auroc_ipu] and [average_precision_ipu] write the
    zeros into the [sample_weights] the caller supplied, which are cloned
    nowhere. Here the caller's weights (all 1) end with a 0 at the position
    of the missing target. *)
Theorem rank_metrics_overwrite_sample_weights
  (auroc : tensor → list Z → auroc_kwargs → tensor → res out)
  (average_precision :
     tensor → list Z → average_precision_kwargs → tensor → res out)
  kw kw' :
  heap weighted_batch !! 2 = Some [Num 1; Num 1; Num 1] ∧
  heap (auroc_ipu auroc 0 1 kw (Some 2) weighted_batch).2 !! 2
  = Some [Num 1; Num 0; Num 1] ∧
  heap (average_precision_ipu average_precision 0 1 kw' (Some 2) weighted_batch).2 !! 2
  = Some [Num 1; Num 0; Num 1].
Proof.
  split_and!; [done| |].
  - rewrite auroc_ipu_unfold.
    by rewrite (rank_masked_run_supplied _ _ _ _ _
                  [Num (9 # 10); Num (2 # 10); Num (4 # 10)]
                  [Num 1; NaN; Num 0] [Num 1; Num 1; Num 1]).
  - rewrite average_precision_ipu_unfold.
    by rewrite (rank_masked_run_supplied _ _ _ _ _
                  [Num (9 # 10); Num (2 # 10); Num (4 # 10)]
                  [Num 1; NaN; Num 0] [Num 1; Num 1; Num 1]).
Qed.

(** ** Further properties *)

(** The shape of a loss: none for a 0-dimensional tensor. *)
Definition shape (o : out) : option nat :=
  match o with
  | Scalar _ => None
  | Vector vs => Some (length vs)
  end.

Definition shape_for (r : reduction) (n : nat) : option nat :=
  match r with RNone => Some n | _ => None end.

Lemma shape_rescale o n k : shape (rescale o n k) = shape o.
Proof. destruct o; simpl; [done|]. by rewrite length_fmap. Qed.

Lemma shape_reduce r (ls : tensor) : shape (reduce r ls) = shape_for r (length ls).
Proof. by destruct r. Qed.

Section further.
Variable flog : fval → fval.

(** The shape of what the three layers return depends on the reduction and
    on the shape of the tensors only, not on which targets are missing. *)
Theorem loss_shape_is_fixed r s input target xs ys :
  heap s !! input = Some xs → heap s !! target = Some ys →
  length xs = length ys →
  (∃ o, (MSELossIPU_forward r input target s).1 = Ok o ∧
        shape o = shape_for r (length ys)) ∧
  (∃ o, (L1LossIPU_forward r input target s).1 = Ok o ∧
        shape o = shape_for r (length ys)) ∧
  (∀ w we,
     Forall (λ x, in_unit x = true) xs →
     weight_tensor s w →
     weight_on (length ys) w = Ok we → length we = length ys →
     ∃ o, (BCELossIPU_forward flog r input target s).1 = Ok o ∧
          shape o = shape_for r (length ys)).
Proof.
  intros Hi Ht Hlen.
  assert (∀ f, ∃ o,
    (zero_masked_forward (elem_loss f r) input target s).1 = Ok o ∧
    shape o = shape_for r (length ys)) as Hz.
  { intros f. rewrite (zero_masked_run _ _ _ _ xs ys) by done.
    rewrite decide_True by done. simpl.
    rewrite elem_loss_same by (by rewrite !neutral_length by done).
    eexists. split; [done|].
    rewrite shape_rescale, shape_reduce, length_zip_with, !neutral_length by done.
    by rewrite Nat.min_id. }
  split_and!; [apply (Hz sq_err)|apply (Hz abs_err)|].
  intros w we Hunit Hw Hwe Hwlen.
  rewrite (BCELossIPU_forward_run flog r s input target xs ys w we) by done.
  simpl. unfold bce_neutral.
  rewrite bce_weighted_same
    by (by rewrite ?nearest_class_length, ?neutral_length by done).
  rewrite Forall_forallb_in_unit by done.
  eexists. split; [done|].
  rewrite shape_rescale, shape_reduce, !length_zip_with,
    nearest_class_length, neutral_length by done.
  f_equal. lia.
Qed.

(** Called on tensors of one shape (and, for the cross-entropy, with a
    weight that fits them), the three layers and the three classification
    metrics leave every tensor of the caller's store as it was, whether
    they return or raise. *)
Theorem losses_leave_the_store
  (precision : tensor → list Z → stat_kwargs → res out)
  (accuracy : tensor → list Z → stat_kwargs → bool → res out)
  (recall : tensor → list Z → stat_kwargs → res out)
  r s input target xs ys kw subset_accuracy :
  heap s !! input = Some xs → heap s !! target = Some ys →
  length xs = length ys →
  ∀ l t, heap s !! l = Some t →
    heap (MSELossIPU_forward r input target s).2 !! l = Some t ∧
    heap (L1LossIPU_forward r input target s).2 !! l = Some t ∧
    heap (precision_ipu precision input target kw s).2 !! l = Some t ∧
    heap (accuracy_ipu accuracy input target kw subset_accuracy s).2 !! l = Some t ∧
    heap (recall_ipu recall input target kw s).2 !! l = Some t ∧
    (∀ w we,
       weight_tensor s w →
       weight_on (length ys) w = Ok we → length we = length ys →
       heap (BCELossIPU_forward flog r input target s).2 !! l = Some t).
Proof.
  intros Hi Ht Hlen l t Hl.
  rewrite MSELossIPU_forward_unfold, L1LossIPU_forward_unfold,
    precision_ipu_unfold, accuracy_ipu_unfold, recall_ipu_unfold.
  rewrite !(zero_masked_run _ _ _ _ xs ys), !(class_masked_run _ _ _ _ xs ys)
    by done.
  rewrite !decide_True by done. simpl.
  split_and!; try by apply lookup_app_l_Some.
  intros w we Hw Hwe Hwlen.
  rewrite (BCELossIPU_forward_run flog r s input target xs ys w we) by done.
  simpl. unfold finished, prepared.
  destruct (bce_neutral _ _ _ _ _); simpl; by apply lookup_app_l_Some.
Qed.


End further.

(** *** Tensors of different lengths *)

Lemma class_masked_mismatch stat s preds target xs ys :
  heap s !! preds = Some xs → heap s !! target = Some ys →
  length xs ≠ length ys →
  (class_masked stat preds target s).1 = Raise IndexError.
Proof.
  destruct s as [h w]. simpl. intros Hp Ht Hlen.
  pattern (mkState h w). apply from_nil.
  unfold class_masked.
  rewrite (bind_clone_old _ _ _ _ ys) by done. cbn [length app].
  rewrite (bind_clone_old _ _ _ _ xs) by done. cbn [length app].
  rewrite (bind_read_new _ _ _ 0 ys) by done.
  rewrite (bind_setitem_new _ _ _ 0 ys) by done.
  rewrite masked_fill_isnan by done. cbn [insert list_insert].
  rewrite (bind_setitem_new _ _ _ 1 xs) by done.
  by rewrite masked_fill_length_ne by (rewrite length_fmap; congruence).
Qed.

Lemma rank_masked_mismatch stat s preds target sample_weights xs ys :
  heap s !! preds = Some xs → heap s !! target = Some ys →
  length xs ≠ length ys →
  (rank_masked stat preds target sample_weights s).1 = Raise IndexError.
Proof.
  destruct s as [h w]. simpl. intros Hp Ht Hlen.
  pattern (mkState h w). apply from_nil.
  unfold rank_masked.
  rewrite (bind_clone_old _ _ _ _ ys) by done. cbn [length app].
  rewrite (bind_clone_old _ _ _ _ xs) by done. cbn [length app].
  rewrite (bind_read_new _ _ _ 0 ys) by done.
  rewrite (bind_setitem_new _ _ _ 1 xs) by done.
  by rewrite masked_fill_length_ne by (rewrite length_fmap; congruence).
Qed.

(** One-dimensional predictions and targets have to be of one length, also
    where the parent class would broadcast them: the masked assignment to the
    predictions takes a mask of the shape of the targets. The squared-error
    and absolute-error layers and the five metrics raise [IndexError]; the
    cross-entropy layer raises too. *)
Theorem tensors_of_different_lengths_raise
  (flog : fval → fval)
  (auroc : tensor → list Z → auroc_kwargs → tensor → res out)
  (average_precision :
     tensor → list Z → average_precision_kwargs → tensor → res out)
  (precision : tensor → list Z → stat_kwargs → res out)
  (accuracy : tensor → list Z → stat_kwargs → bool → res out)
  (recall : tensor → list Z → stat_kwargs → res out)
  r s preds target xs ys w akw pkw kw subset_accuracy sample_weights :
  heap s !! preds = Some xs → heap s !! target = Some ys →
  weight_tensor s w →
  length xs ≠ length ys →
  (MSELossIPU_forward r preds target s).1 = Raise IndexError ∧
  (L1LossIPU_forward r preds target s).1 = Raise IndexError ∧
  (∃ e, (BCELossIPU_forward flog r preds target s).1 = Raise e) ∧
  (auroc_ipu auroc preds target akw sample_weights s).1 = Raise IndexError ∧
  (average_precision_ipu average_precision preds target pkw sample_weights s).1
  = Raise IndexError ∧
  (precision_ipu precision preds target kw s).1 = Raise IndexError ∧
  (accuracy_ipu accuracy preds target kw subset_accuracy s).1 = Raise IndexError ∧
  (recall_ipu recall preds target kw s).1 = Raise IndexError.
Proof.
  intros Hp Ht Hw Hlen.
  rewrite MSELossIPU_forward_unfold, L1LossIPU_forward_unfold,
    precision_ipu_unfold, accuracy_ipu_unfold, recall_ipu_unfold,
    auroc_ipu_unfold, average_precision_ipu_unfold.
  rewrite !(zero_masked_run _ _ _ _ xs ys) by done.
  rewrite !decide_False by done.
  rewrite !(class_masked_mismatch _ _ _ _ xs ys),
    !(rank_masked_mismatch _ _ _ _ _ xs ys) by done.
  split_and!; try done.
  destruct (BCELossIPU_forward flog r preds target s) as [[o|e] s'] eqn:Hrun;
    [|by eauto].
  by destruct (BCELossIPU_forward_ok_inv _ _ _ _ _ xs ys w _ _ Hp Ht Hw Hrun).
Qed.

(** *** A cross-entropy call that fails *)

Lemma prepared_weight s xs ys w we :
  weight_tensor (prepared s xs ys w we) (Some (neutral (Num 0) ys we)).
Proof.
  unfold weight_tensor, prepared. simpl.
  rewrite lookup_app_r by lia.
  replace (length (heap s) + 1 + length (prev_ext w) - length (heap s))
    with (1 + length (prev_ext w)) by lia.
  simpl. by rewrite list_lookup_middle.
Qed.

Section failure.
Variable flog : fval → fval.

(** When a prediction lies outside [[0, 1]] the parent class raises, and the
    layer's [weight] is not put back: after the call it is the working copy,
    the expanded weight (ones, for a layer that had none) with zeros at the
    missing targets. The tensors of the caller's store are as they were. *)
Theorem BCELossIPU_forward_failure_keeps_masked_weight
    r s input target xs ys w we :
  heap s !! input = Some xs → heap s !! target = Some ys →
  weight_tensor s w →
  length xs = length ys →
  weight_on (length ys) w = Ok we → length we = length ys →
  forallb in_unit xs = false →
  ∃ s', BCELossIPU_forward flog r input target s = (Raise RuntimeError, s') ∧
        weight_tensor s' (Some (neutral (Num 0) ys we)) ∧
        ∀ l t, heap s !! l = Some t → heap s' !! l = Some t.
Proof.
  intros Hi Ht Hw Hlen Hwe Hwlen Hunit.
  exists (prepared s xs ys w we).
  rewrite (BCELossIPU_forward_run flog r s input target xs ys w we) by done.
  unfold bce_neutral.
  rewrite bce_weighted_same
    by (by rewrite ?nearest_class_length, ?neutral_length by done).
  rewrite Hunit. simpl. split_and!.
  - done.
  - apply prepared_weight.
  - intros l t Hl. by apply lookup_app_l_Some.
Qed.

End failure.

(** *** Predictions at missing targets *)

(** Two tensors of predictions that differ at missing targets only. *)
Definition agree_where_observed (ys xs xs' : tensor) : Prop :=
  ∀ i y, ys !! i = Some y → isnan y = false → xs !! i = xs' !! i.

Lemma agree_where_observed_cons y ys x xs x' xs' :
  agree_where_observed (y :: ys) (x :: xs) (x' :: xs') →
  (isnan y = false → x = x') ∧ agree_where_observed ys xs xs'.
Proof.
  intros Hagree. split.
  - intros Hy. specialize (Hagree 0 y eq_refl Hy). by injection Hagree.
  - intros i y' Hi Hy'. exact (Hagree (S i) y' Hi Hy').
Qed.

Lemma neutral_agree v (ys xs xs' : tensor) :
  length xs = length ys → length xs' = length ys →
  agree_where_observed ys xs xs' →
  neutral v ys xs = neutral v ys xs'.
Proof.
  revert xs xs'.
  induction ys as [|y ys IH]; intros [|x xs] [|x' xs'] Hlen Hlen' Hagree; try done.
  apply agree_where_observed_cons in Hagree as [Hhd Htl].
  rewrite !neutral_cons. simpl in Hlen, Hlen'.
  rewrite (IH xs xs') by (done || lia).
  destruct (isnan y); [done|]. by rewrite Hhd.
Qed.

(** A weight of one element is expanded to one value per element. *)
Lemma weight_on_scalar n c we :
  weight_on n (Some [c]) = Ok we → we = replicate n c.
Proof.
  unfold weight_on, infer_size, expand. simpl.
  repeat (case_decide; simpl); intros [= <-]; subst; done || lia.
Qed.

Section ignored.
Variable flog : fval → fval.

Lemma bce_neutral_agree (ys xs xs' we : tensor) :
  log_on_unit flog →
  Forall (λ x, in_unit x = true) xs → Forall (λ x, in_unit x = true) xs' →
  length xs = length ys → length xs' = length ys → length we = length ys →
  agree_where_observed ys xs xs' →
  zip_with fmul (zip_with (bce_elem flog) xs (nearest_class xs ys))
                (neutral (Num 0) ys we)
  ≡ zip_with fmul (zip_with (bce_elem flog) xs' (nearest_class xs' ys))
                  (neutral (Num 0) ys we).
Proof.
  intros Hlog Hunit. revert ys xs' we.
  induction Hunit as [|x xs Hx _ IH];
    intros [|y ys] [|x' xs'] [|v we] Hunit' Hlen Hlen' Hwlen Hagree; try done.
  apply agree_where_observed_cons in Hagree as [Hhd Htl].
  apply Forall_cons in Hunit' as [Hx' Hunit'].
  unfold nearest_class. rewrite neutral_cons. cbn [zip_with].
  fold (nearest_class xs ys). fold (nearest_class xs' ys).
  simpl in Hlen, Hlen', Hwlen.
  f_equiv; [|apply IH; done || lia].
  destruct (isnan y) eqn:Hy; [|by rewrite Hhd].
  assert (y = NaN) as -> by (by destruct y).
  destruct (in_unit_inv x Hx) as (p & -> & _).
  destruct (in_unit_inv x' Hx') as (p' & -> & _).
  rewrite !nearest_class_num.
  destruct (bce_elem_finite flog (Num p)
              (if Qlt_le_dec p (1 # 2) then Num 0 else Num 1) Hlog Hx)
    as [e ->]; [by destruct (Qlt_le_dec _ _); eauto|].
  destruct (bce_elem_finite flog (Num p')
              (if Qlt_le_dec p' (1 # 2) then Num 0 else Num 1) Hlog Hx')
    as [e' ->]; [by destruct (Qlt_le_dec _ _); eauto|].
  simpl. apply Num_proper. ring.
Qed.

(** What is predicted where the target is missing plays no part in the loss:
    two calls whose predictions differ there only, on the same targets,
    return the same value. For the squared and the absolute error whatever
    the predictions there are, NaN and infinities too; for the cross-entropy
    as long as they lie in [[0, 1]] like the others. *)
Theorem predictions_at_missing_targets_are_ignored
    r s s' input target xs xs' ys :
  heap s !! input = Some xs → heap s' !! input = Some xs' →
  heap s !! target = Some ys → heap s' !! target = Some ys →
  length xs = length ys → length xs' = length ys →
  agree_where_observed ys xs xs' →
  (MSELossIPU_forward r input target s).1
  = (MSELossIPU_forward r input target s').1 ∧
  (L1LossIPU_forward r input target s).1
  = (L1LossIPU_forward r input target s').1 ∧
  (∀ w we,
     log_on_unit flog →
     Forall (λ x, in_unit x = true) xs → Forall (λ x, in_unit x = true) xs' →
     weight_tensor s w → weight_tensor s' w →
     weight_on (length ys) w = Ok we → length we = length ys →
     (BCELossIPU_forward flog r input target s).1
     ≡ (BCELossIPU_forward flog r input target s').1).
Proof.
  intros Hi Hi' Ht Ht' Hlen Hlen' Hagree.
  rewrite MSELossIPU_forward_unfold, L1LossIPU_forward_unfold.
  rewrite !(zero_masked_run _ s _ _ xs ys), !(zero_masked_run _ s' _ _ xs' ys)
    by done.
  rewrite !decide_True by done. simpl.
  rewrite (neutral_agree _ ys xs xs') by done.
  split_and!; [done|done|].
  intros w we Hlog Hunit Hunit' Hw Hw' Hwe Hwlen.
  rewrite (BCELossIPU_forward_run flog r s input target xs ys w we) by done.
  rewrite (BCELossIPU_forward_run flog r s' input target xs' ys w we) by done.
  simpl. apply res_rescale_proper. unfold bce_neutral.
  rewrite !bce_weighted_same
    by (by rewrite ?nearest_class_length, ?neutral_length by done).
  rewrite !Forall_forallb_in_unit by done.
  change (Ok ?a ≡ Ok ?b) with (a ≡ b). apply reduce_proper.
  by apply bce_neutral_agree.
Qed.

(** At the positions whose target is not missing, the parent class is given
    the caller's target and the layer's weight as they are (1, for a layer
    without weight). *)
Theorem observed_targets_keep_target_and_weight r s input target xs ys w we :
  heap s !! input = Some xs → heap s !! target = Some ys →
  weight_tensor s w →
  length xs = length ys →
  weight_on (length ys) w = Ok we → length we = length ys →
  ∃ target' weight' nan_targets prev_weight s1 used_target used_weight,
    BCELossIPU_prepare input target s
    = (Ok (target', nan_targets, prev_weight), s1) ∧
    BCELossIPU_forward flog r input target s
    = (loss ← BCELoss_forward flog r input target';
       set_weight prev_weight;;
       mret (rescale loss (length nan_targets)
                     (mask_sum (negb <$> nan_targets)))) s1 ∧
    heap s1 !! target' = Some used_target ∧
    self_weight s1 = Some weight' ∧
    heap s1 !! weight' = Some used_weight ∧
    length used_target = length ys ∧ length used_weight = length ys ∧
    ∀ i y, ys !! i = Some y → isnan y = false →
      used_target !! i = Some y ∧
      used_weight !! i = we !! i ∧
      (w = None → used_weight !! i = Some (Num 1)) ∧
      (∀ wv, w = Some wv → length wv = length ys → used_weight !! i = wv !! i) ∧
      (∀ c, w = Some [c] → used_weight !! i = Some c).
Proof.
  intros Hi Ht Hw Hlen Hwe Hwlen.
  pose proof (BCELossIPU_prepare_run s input target xs ys w we
                Hi Ht Hw Hlen Hwe Hwlen) as Hprep.
  exists (length (heap s) + 0), (length (heap s) + 1 + length (prev_ext w)),
    (isnan <$> ys), (prev_loc (length (heap s)) w), (prepared s xs ys w we),
    (nearest_class xs ys), (neutral (Num 0) ys we).
  split_and!.
  - done.
  - unfold BCELossIPU_forward. by rewrite (bind_ok _ _ _ _ _ Hprep).
  - simpl. by rewrite lookup_app_r, Nat.add_comm, Nat.add_sub by lia.
  - done.
  - apply (prepared_weight s xs ys w we).
  - by apply nearest_class_length.
  - by apply neutral_length.
  - intros i y Hy Hnan.
    destruct (lookup_lt_is_Some_2 xs i) as [x Hx].
    { rewrite Hlen. by eapply lookup_lt_Some. }
    destruct (lookup_lt_is_Some_2 we i) as [v Hv].
    { rewrite Hwlen. by eapply lookup_lt_Some. }
    rewrite (nearest_class_lookup xs ys i x y) by done.
    rewrite (neutral_lookup _ ys we i y v) by done.
    rewrite Hnan, Hv.
    assert (i < length ys) as Hilt by (by eapply lookup_lt_Some).
    split_and!; [done|done| | |].
    + intros ->. injection Hwe as <-.
      by rewrite lookup_replicate_2 in Hv.
    + intros wv -> Hwv. simpl in Hwe.
      rewrite <-Hwv, infer_size_same in Hwe. simpl in Hwe.
      rewrite expand_same in Hwe. injection Hwe as <-. done.
    + intros c ->. apply weight_on_scalar in Hwe as ->.
      by apply lookup_replicate in Hv as [-> _].
Qed.

End ignored.

(** *** What the metrics pass on *)

(** On one-dimensional predictions and targets of one length, [auroc_ipu]
    and [average_precision_ipu] pass the statistic the predictions, the
    targets and the weights with 0 at every position whose target is
    missing; elsewhere the prediction and the target as they are,
    and the weight the caller supplied, or 1 when none was supplied. *)
Theorem rank_metrics_zero_missing_positions
  (auroc : tensor → list Z → auroc_kwargs → tensor → res out)
  (average_precision :
     tensor → list Z → average_precision_kwargs → tensor → res out)
  s preds target xs ys kw kw' :
  heap s !! preds = Some xs → heap s !! target = Some ys →
  length xs = length ys →
  ∃ passed_preds passed_target,
    (∀ i, ys !! i = Some NaN →
       passed_preds !! i = Some (Num 0) ∧ passed_target !! i = Some 0%Z) ∧
    (∀ i x y, xs !! i = Some x → ys !! i = Some y → isnan y = false →
       passed_preds !! i = Some x ∧ passed_target !! i = Some (to_int y)) ∧
    (∃ passed_weights,
       (auroc_ipu auroc preds target kw None s).1
       = auroc passed_preds passed_target kw passed_weights ∧
       (average_precision_ipu average_precision preds target kw' None s).1
       = average_precision passed_preds passed_target kw' passed_weights ∧
       length passed_weights = length ys ∧
       ∀ i y, ys !! i = Some y →
         passed_weights !! i = Some (if isnan y then Num 0 else Num 1)) ∧
    (∀ lw ws, heap s !! lw = Some ws → length ws = length ys →
       ∃ passed_weights,
         (auroc_ipu auroc preds target kw (Some lw) s).1
         = auroc passed_preds passed_target kw passed_weights ∧
         (average_precision_ipu average_precision preds target kw' (Some lw) s).1
         = average_precision passed_preds passed_target kw' passed_weights ∧
         length passed_weights = length ys ∧
         ∀ i y v, ys !! i = Some y → ws !! i = Some v →
           passed_weights !! i = Some (if isnan y then Num 0 else v)).
Proof.
  intros Hp Ht Hlen.
  exists (neutral (Num 0) ys xs), (to_int <$> neutral (Num 0) ys ys).
  split_and!.
  - intros i Hy.
    destruct (lookup_lt_is_Some_2 xs i) as [x Hx].
    { rewrite Hlen. by eapply lookup_lt_Some. }
    rewrite list_lookup_fmap.
    by rewrite (neutral_lookup _ ys ys i NaN NaN),
      (neutral_lookup _ ys xs i NaN x).
  - intros i x y Hx Hy Hnan.
    rewrite list_lookup_fmap.
    by rewrite (neutral_lookup _ ys ys i y y), (neutral_lookup _ ys xs i y x),
      Hnan.
  - exists (neutral (Num 0) ys (replicate (length ys) (Num 1))).
    rewrite auroc_ipu_unfold, average_precision_ipu_unfold.
    rewrite !(rank_masked_run_default _ _ _ _ xs ys) by done.
    split_and!; [done|done| |].
    + apply neutral_length, length_replicate.
    + intros i y Hy.
      apply neutral_lookup; [|done].
      apply lookup_replicate_2. by eapply lookup_lt_Some.
  - intros lw ws Hw Hwlen. exists (neutral (Num 0) ys ws).
    rewrite auroc_ipu_unfold, average_precision_ipu_unfold.
    rewrite !(rank_masked_run_supplied _ _ _ _ _ xs ys ws) by done.
    split_and!; [done|done|by apply neutral_length|].
    intros i y v Hy Hv. by apply neutral_lookup.
Qed.

(** On one-dimensional predictions and targets of one length, with no target
    missing, the five metrics are the statistics of [torchmetrics] on the
    predictions and the targets converted to 64-bit integers
    (with weights 1 where the caller supplies none), and the weights a caller
    supplies are left as they were. *)
Theorem metrics_without_missing_targets
  (auroc : tensor → list Z → auroc_kwargs → tensor → res out)
  (average_precision :
     tensor → list Z → average_precision_kwargs → tensor → res out)
  (precision : tensor → list Z → stat_kwargs → res out)
  (accuracy : tensor → list Z → stat_kwargs → bool → res out)
  (recall : tensor → list Z → stat_kwargs → res out)
  s preds target xs ys akw pkw kw subset_accuracy :
  heap s !! preds = Some xs → heap s !! target = Some ys →
  length xs = length ys →
  Forall (λ y, isnan y = false) ys →
  (precision_ipu precision preds target kw s).1
  = precision xs (to_int <$> ys) kw ∧
  (accuracy_ipu accuracy preds target kw subset_accuracy s).1
  = accuracy xs (to_int <$> ys) kw subset_accuracy ∧
  (recall_ipu recall preds target kw s).1
  = recall xs (to_int <$> ys) kw ∧
  (auroc_ipu auroc preds target akw None s).1
  = auroc xs (to_int <$> ys) akw (replicate (length ys) (Num 1)) ∧
  (average_precision_ipu average_precision preds target pkw None s).1
  = average_precision xs (to_int <$> ys) pkw (replicate (length ys) (Num 1)) ∧
  (∀ lw ws, heap s !! lw = Some ws → length ws = length ys →
     (auroc_ipu auroc preds target akw (Some lw) s).1
     = auroc xs (to_int <$> ys) akw ws ∧
     (average_precision_ipu average_precision preds target pkw (Some lw) s).1
     = average_precision xs (to_int <$> ys) pkw ws ∧
     heap (auroc_ipu auroc preds target akw (Some lw) s).2 !! lw = Some ws ∧
     heap (average_precision_ipu average_precision preds target pkw
             (Some lw) s).2 !! lw = Some ws).
Proof.
  intros Hp Ht Hlen Hall.
  rewrite precision_ipu_unfold, accuracy_ipu_unfold, recall_ipu_unfold,
    auroc_ipu_unfold, average_precision_ipu_unfold.
  rewrite !(class_masked_run _ _ _ _ xs ys),
    !(rank_masked_run_default _ _ _ _ xs ys) by done.
  rewrite !neutral_none by (done || by rewrite length_replicate).
  split_and!; try done.
  intros lw ws Hw Hwlen.
  rewrite auroc_ipu_unfold, average_precision_ipu_unfold.
  rewrite !(rank_masked_run_supplied _ _ _ _ _ xs ys ws) by done.
  rewrite !neutral_none by done. simpl.
  assert ((<[lw := ws]> (heap s) ++ [ys; xs]) !! lw = Some ws) as Hlw.
  { apply lookup_app_l_Some, list_lookup_insert_eq. by eapply lookup_lt_Some. }
  done.
Qed.

(** *** A weight that does not fit the target *)

Section unfit.
Variable flog : fval → fval.

Lemma BCELossIPU_prepare_unfit s input target xs ys wv :
  heap s !! input = Some xs → heap s !! target = Some ys →
  weight_tensor s (Some wv) →
  length xs = length ys →
  length wv ≠ length ys → length wv ≠ 1 →
  ∃ ext,
    BCELossIPU_prepare input target s
    = (Raise (if decide (length ys = 1) then IndexError else RuntimeError),
       mkState (heap s ++ ext) (self_weight s)).
Proof.
  destruct s as [h sw]. unfold weight_tensor. simpl.
  intros Hi Ht Hw Hlen Hne Hne1.
  destruct sw as [lw|]; [|done].
  destruct (decide (length ys = 1)) as [H1|H1]; eexists;
    (pattern (mkState h (Some lw)) at 1; apply from_nil);
    unfold BCELossIPU_prepare;
    rewrite (bind_clone_old _ _ _ _ ys) by done; cbn [length app];
    rewrite bind_get_weight; cbn [self_weight];
    rewrite bind_assoc, (bind_clone_old _ _ _ _ wv) by done; cbn [length app];
    rewrite bind_assoc, (bind_read_new _ _ _ 0 ys) by done;
    rewrite bind_assoc, (bind_read_old _ _ _ _ wv) by done;
    rewrite bind_assoc, bind_lift;
    unfold infer_size; rewrite (decide_False (P:=length ys = length wv)) by done.
  - rewrite (decide_True (P:=length ys = 1)) by done.
    rewrite bind_assoc, bind_lift, expand_same.
    rewrite bind_assoc, bind_alloc. cbn [length app].
    rewrite bind_mret. cbn [fst snd].
    rewrite (bind_read_new _ _ _ 0 ys) by done.
    rewrite (bind_read_old _ _ _ _ xs) by done.
    rewrite bind_lift, mask_and_same by (by rewrite !length_fmap).
    rewrite bind_lift, mask_and_same by (by rewrite !length_fmap).
    rewrite (bind_setitem_new _ _ _ 0 ys) by done.
    unfold masked_fill at 1.
    rewrite decide_True by (rewrite length_zip_with, !length_fmap; lia).
    cbn [insert list_insert].
    rewrite (bind_setitem_new _ _ _ 0 _) by done.
    unfold masked_fill at 1.
    rewrite decide_True by (rewrite !length_zip_with, !length_fmap; lia).
    cbn [insert list_insert].
    rewrite (bind_setitem_new _ _ _ 2 wv) by done.
    rewrite masked_fill_length_ne by (rewrite length_fmap; congruence).
    reflexivity.
  - rewrite (decide_False (P:=length ys = 1)) by done.
    rewrite (decide_False (P:=length wv = 1)) by done.
    reflexivity.
Qed.

(** On one-dimensional tensors, a weight of the layer that has neither the
    length of the target nor length 1: the call raises before [self.weight]
    is assigned, which is left as it was. [_infer_size] raises
    [RuntimeError]; when the target has one element the weight is not
    expanded and the masked assignment to it raises [IndexError]. *)
Theorem BCELossIPU_forward_unfit_weight r s input target xs ys wv :
  heap s !! input = Some xs → heap s !! target = Some ys →
  weight_tensor s (Some wv) →
  length xs = length ys →
  length wv ≠ length ys → length wv ≠ 1 →
  ∃ s', BCELossIPU_forward flog r input target s
        = (Raise (if decide (length ys = 1) then IndexError else RuntimeError),
           s') ∧
        self_weight s' = self_weight s ∧
        weight_tensor s' (Some wv).
Proof.
  intros Hi Ht Hw Hlen Hne Hne1.
  destruct (BCELossIPU_prepare_unfit s input target xs ys wv
              Hi Ht Hw Hlen Hne Hne1) as [ext Hprep].
  eexists. unfold BCELossIPU_forward, mbind, eff_bind. rewrite Hprep.
  split_and!; [done|done|].
  unfold weight_tensor in *. simpl.
  destruct (self_weight s) as [lw|]; [|done]. by apply lookup_app_l_Some.
Qed.

End unfit.


(** ** Examples *)

(** A stand-in for the logarithm, enough to run the cross-entropy on
    examples: [x - 1] above zero, minus infinity at zero. *)
Definition log_stub (x : fval) : fval :=
  match x with
  | Num q =>
      match (q ?= 0)%Q with
      | Gt => Num (q - 1)
      | Eq => Inf true
      | Lt => NaN
      end
  | Inf false => Inf false
  | _ => NaN
  end.

Lemma log_stub_on_unit : log_on_unit log_stub.
Proof.
  intros q H0 _. unfold log_stub.
  destruct (Qcompare_spec q 0) as [?|Hlt|?]; eauto.
  by apply Qlt_not_le in Hlt.
Qed.

Definition preds0 : tensor := [Num (1 # 4); Num (3 # 4); Num (1 # 5)].
Definition targets0 : tensor := [Num 0; NaN; Num 1].

(** The caller's store: predictions, targets (the second one missing), and
    the weight of the layer, one value for all positions. *)
Definition batch : state := mkState [preds0; targets0; [Num 2]] (Some 2).

(** The same with every target missing, and a layer without weight. *)
Definition unlabelled_batch : state := mkState [preds0; [NaN; NaN; NaN]] None.

(** Targets that are all there, and sample weights. *)
Definition labelled_batch : state :=
  mkState [preds0; [Num 0; Num 1; Num 1]; [Num 2; Num 3; Num 4]] None.

(** The counterexample to C1 as stated: predictions [1, 0], targets
    [0, NaN], a squared-error layer with the reduction ['sum']. *)
Definition summed_batch : state := mkState [[Num 1; Num 0]; [Num 0; NaN]] None.

Example summed_batch_masked :
  (MSELossIPU_forward RSum 0 1 summed_batch).1 = Ok (Scalar (Num 2)).
Proof. reflexivity. Qed.

Example summed_batch_trimmed :
  mse_loss RSum (observed [Num 0; NaN] [Num 1; Num 0])
                (observed [Num 0; NaN] [Num 0; NaN])
  = Ok (Scalar (Num 1)).
Proof. reflexivity. Qed.

(** C1, as stated for every layer whatever its reduction, fails: with the
    reduction ['sum'] the masked loss is the sum over the observed positions
    multiplied by the number of elements over the number of observed ones. *)
Lemma masking_is_exclusion_fails_for_sum : ¬ masking_is_exclusion_claim.
Proof.
  intros Hclaim.
  specialize (Hclaim RSum summed_batch 0 1 [Num 1; Num 0] [Num 0; NaN]
                eq_refl eq_refl eq_refl).
  assert (0 < count_observed [Num 0; NaN]) as Hobs by (vm_compute; lia).
  specialize (Hclaim Hobs). vm_compute in Hclaim. discriminate Hclaim.
Qed.

Lemma masking_is_exclusion_elementwise_witness :
  (∃ ls,
     (∀ r, (MSELossIPU_forward r 0 1 batch).1 = Ok (rescale (reduce r ls) 3 2)) ∧
     length ls = 3 ∧
     mse_loss RNone (observed targets0 preds0) (observed targets0 targets0)
     = Ok (Vector (observed targets0 ls)) ∧
     (∀ i, targets0 !! i = Some NaN → ∃ z, ls !! i = Some z ∧ z ≡ Num 0)) ∧
  (∃ ls,
     (∀ r, (L1LossIPU_forward r 0 1 batch).1 = Ok (rescale (reduce r ls) 3 2)) ∧
     length ls = 3 ∧
     l1_loss RNone (observed targets0 preds0) (observed targets0 targets0)
     = Ok (Vector (observed targets0 ls)) ∧
     (∀ i, targets0 !! i = Some NaN → ∃ z, ls !! i = Some z ∧ z ≡ Num 0)) ∧
  (∃ ls,
     (∀ r, (BCELossIPU_forward log_stub r 0 1 batch).1
           = Ok (rescale (reduce r ls) 3 2)) ∧
     length ls = 3 ∧
     binary_cross_entropy log_stub
       (Some (observed targets0 [Num 2; Num 2; Num 2])) RNone
       (observed targets0 preds0) (observed targets0 targets0)
     = Ok (Vector (observed targets0 ls)) ∧
     (∀ i, targets0 !! i = Some NaN → ∃ z, ls !! i = Some z ∧ z ≡ Num 0)) ∧
  (∀ r,
     (MSELossIPU_forward r 0 1 labelled_batch).1
     = (λ o, rescale o 3 3) <$> mse_loss r preds0 [Num 0; Num 1; Num 1] ∧
     (L1LossIPU_forward r 0 1 labelled_batch).1
     = (λ o, rescale o 3 3) <$> l1_loss r preds0 [Num 0; Num 1; Num 1] ∧
     (BCELossIPU_forward log_stub r 0 1 labelled_batch).1
     ≡ (λ o, rescale o 3 3)
         <$> binary_cross_entropy log_stub None r preds0 [Num 0; Num 1; Num 1]).
Proof.
  destruct (masking_is_exclusion_elementwise log_stub batch 0 1 preds0 targets0
              eq_refl eq_refl eq_refl)
    as (Hmse & Hl1 & Hbce & _).
  destruct (masking_is_exclusion_elementwise log_stub labelled_batch 0 1 preds0
              [Num 0; Num 1; Num 1] eq_refl eq_refl eq_refl)
    as (_ & _ & _ & Hfull).
  split_and!; [exact Hmse|exact Hl1| |].
  - apply (Hbce (Some [Num 2]) [Num 2; Num 2; Num 2]).
    + exact log_stub_on_unit.
    + repeat constructor.
    + reflexivity.
    + reflexivity.
    + reflexivity.
  - intros r. destruct (Hfull eq_refl r) as (Hm & Hl & Hb).
    split_and!; [exact Hm|exact Hl|].
    apply (Hb None [Num 1; Num 1; Num 1]); reflexivity.
Defined.

Lemma masked_loss_is_rescaled_loss_witness :
  let scale := out_map (λ l, fdiv (fmul l (of_nat 3)) (of_nat 2)) in
  (MSELossIPU_forward RSum 0 1 batch).1
  = scale <$> mse_loss RSum (neutral (Num 0) targets0 preds0)
                (neutral (Num 0) targets0 targets0) ∧
  (L1LossIPU_forward RSum 0 1 batch).1
  = scale <$> l1_loss RSum (neutral (Num 0) targets0 preds0)
                (neutral (Num 0) targets0 targets0) ∧
  (BCELossIPU_forward log_stub RSum 0 1 batch).1
  = scale <$> binary_cross_entropy log_stub
                (Some (neutral (Num 0) targets0 [Num 2; Num 2; Num 2]))
                RSum preds0 (nearest_class preds0 targets0).
Proof.
  destruct (masked_loss_is_rescaled_loss log_stub RSum batch 0 1 preds0 targets0)
    as (Hmse & Hl1 & Hbce).
  - reflexivity.
  - reflexivity.
  - reflexivity.
  - split_and!; [exact Hmse|exact Hl1|].
    apply (Hbce (Some [Num 2]) [Num 2; Num 2; Num 2]); reflexivity.
Defined.

Lemma nan_targets_take_nearest_class_witness :
  ∃ target' weight' nan_targets prev_weight s1 used_target used_weight,
    BCELossIPU_prepare 0 1 batch
    = (Ok (target', nan_targets, prev_weight), s1) ∧
    BCELossIPU_forward log_stub RMean 0 1 batch
    = (loss ← BCELoss_forward log_stub RMean 0 target';
       set_weight prev_weight;;
       mret (rescale loss (length nan_targets)
                     (mask_sum (negb <$> nan_targets)))) s1 ∧
    heap s1 !! target' = Some used_target ∧
    self_weight s1 = Some weight' ∧
    heap s1 !! weight' = Some used_weight ∧
    ∀ i x, targets0 !! i = Some NaN → preds0 !! i = Some x →
      (flt x one_half = true → used_target !! i = Some (Num 0)) ∧
      (fge x one_half = true → used_target !! i = Some (Num 1)) ∧
      (∀ p, x = Num p →
         used_target !! i
         = Some (if Qlt_le_dec p (1 # 2) then Num 0 else Num 1)) ∧
      used_weight !! i = Some (Num 0).
Proof.
  apply (nan_targets_take_nearest_class log_stub RMean batch 0 1 preds0 targets0
           (Some [Num 2]) [Num 2; Num 2; Num 2]); reflexivity.
Defined.

Lemma all_missing_raises_or_nan_witness :
  raises_or_nan (MSELossIPU_forward RMean 0 1 unlabelled_batch).1 ∧
  raises_or_nan (L1LossIPU_forward RMean 0 1 unlabelled_batch).1 ∧
  raises_or_nan (BCELossIPU_forward log_stub RMean 0 1 unlabelled_batch).1.
Proof.
  apply (all_missing_raises_or_nan log_stub RMean unlabelled_batch 0 1 preds0
           [NaN; NaN; NaN] None).
  - reflexivity.
  - reflexivity.
  - exact I.
  - repeat constructor.
Defined.

(** All targets missing: the three layers return NaN. *)
Example unlabelled_batch_nan :
  (MSELossIPU_forward RMean 0 1 unlabelled_batch).1 = Ok (Scalar NaN) ∧
  (L1LossIPU_forward RMean 0 1 unlabelled_batch).1 = Ok (Scalar NaN) ∧
  (BCELossIPU_forward log_stub RMean 0 1 unlabelled_batch).1 = Ok (Scalar NaN).
Proof. split_and!; reflexivity. Qed.

Lemma BCELossIPU_forward_restores_weight_witness :
  weight_tensor (BCELossIPU_forward log_stub RMean 0 1 batch).2 (Some [Num 2]) ∧
  heap (BCELossIPU_forward log_stub RMean 0 1 batch).2 !! 0 = Some preds0 ∧
  heap (BCELossIPU_forward log_stub RMean 0 1 batch).2 !! 1 = Some targets0 ∧
  ∃ s'', BCELossIPU_forward log_stub RMean 0 1
           (BCELossIPU_forward log_stub RMean 0 1 batch).2
         = (Ok (Scalar (Num (40320 # 38400))), s'').
Proof.
  apply (BCELossIPU_forward_restores_weight log_stub RMean batch 0 1
           preds0 targets0 (Some [Num 2])).
  - reflexivity.
  - reflexivity.
  - reflexivity.
  - vm_compute. reflexivity.
Defined.

(** A statistic to run the metrics on examples with: the sum of the
    predictions it is passed where the target it is passed is 1. *)
Definition stat_stub (p : tensor) (t : list Z) : res out :=
  Ok (Scalar (fsum (zip_with (λ x (c : Z), if decide (c = 1%Z) then x else Num 0) p t))).

Definition no_kwargs : stat_kwargs :=
  mkStatKw None None None None (1 # 2) None None.

Lemma missing_targets_get_fixed_classes_witness :
  ∃ passed_preds passed_target,
    (precision_ipu (λ p t _, stat_stub p t) 0 1 no_kwargs batch).1
    = stat_stub passed_preds passed_target ∧
    (accuracy_ipu (λ p t _ _, stat_stub p t) 0 1 no_kwargs false batch).1
    = stat_stub passed_preds passed_target ∧
    (recall_ipu (λ p t _, stat_stub p t) 0 1 no_kwargs batch).1
    = stat_stub passed_preds passed_target ∧
    (∀ i, targets0 !! i = Some NaN →
       passed_target !! i = Some 1%Z ∧ passed_preds !! i = Some (Num 0)) ∧
    (∀ i x y, preds0 !! i = Some x → targets0 !! i = Some y → isnan y = false →
       passed_target !! i = Some (to_int y) ∧ passed_preds !! i = Some x).
Proof.
  apply (missing_targets_get_fixed_classes
           (λ p t _, stat_stub p t) (λ p t _ _, stat_stub p t)
           (λ p t _, stat_stub p t) batch 0 1 preds0 targets0 no_kwargs false);
    reflexivity.
Defined.

Lemma loss_shape_is_fixed_witness :
  (∃ o, (MSELossIPU_forward RNone 0 1 batch).1 = Ok o ∧ shape o = Some 3) ∧
  (∃ o, (L1LossIPU_forward RNone 0 1 batch).1 = Ok o ∧ shape o = Some 3) ∧
  (∃ o, (BCELossIPU_forward log_stub RNone 0 1 batch).1 = Ok o ∧
        shape o = Some 3).
Proof.
  destruct (loss_shape_is_fixed log_stub RNone batch 0 1 preds0 targets0)
    as (Hmse & Hl1 & Hbce); [reflexivity..|].
  split_and!; [exact Hmse|exact Hl1|].
  apply (Hbce (Some [Num 2]) [Num 2; Num 2; Num 2]);
    [repeat constructor|reflexivity..].
Defined.

Lemma losses_leave_the_store_witness :
  heap (MSELossIPU_forward RMean 0 1 batch).2 !! 0 = Some preds0 ∧
  heap (L1LossIPU_forward RMean 0 1 batch).2 !! 0 = Some preds0 ∧
  heap (precision_ipu (λ p t _, stat_stub p t) 0 1 no_kwargs batch).2 !! 0
  = Some preds0 ∧
  heap (accuracy_ipu (λ p t _ _, stat_stub p t) 0 1 no_kwargs false batch).2 !! 0
  = Some preds0 ∧
  heap (recall_ipu (λ p t _, stat_stub p t) 0 1 no_kwargs batch).2 !! 0
  = Some preds0 ∧
  heap (BCELossIPU_forward log_stub RMean 0 1 batch).2 !! 0 = Some preds0.
Proof.
  destruct (losses_leave_the_store log_stub
              (λ p t _, stat_stub p t) (λ p t _ _, stat_stub p t)
              (λ p t _, stat_stub p t) RMean batch 0 1 preds0 targets0
              no_kwargs false eq_refl eq_refl eq_refl 0 preds0 eq_refl)
    as (H1 & H2 & H3 & H4 & H5 & H6).
  split_and!; [exact H1|exact H2|exact H3|exact H4|exact H5|].
  apply (H6 (Some [Num 2]) [Num 2; Num 2; Num 2]); reflexivity.
Defined.



(** Predictions of three elements against targets of two; a prediction
    above 1, in a layer without weight; the predictions of [batch] with
    another value at the missing target. *)
Definition short_batch : state := mkState [preds0; [Num 0; NaN]] None.
Definition out_of_range_batch : state :=
  mkState [[Num (3 # 2); Num (1 # 2)]; [Num 1; NaN]] None.
Definition preds1 : tensor := [Num (1 # 4); Num (1 # 8); Num (1 # 5)].
Definition other_batch : state := mkState [preds1; targets0; [Num 2]] (Some 2).

Lemma tensors_of_different_lengths_raise_witness :
  (MSELossIPU_forward RMean 0 1 short_batch).1 = Raise IndexError ∧
  (L1LossIPU_forward RMean 0 1 short_batch).1 = Raise IndexError ∧
  (∃ e, (BCELossIPU_forward log_stub RMean 0 1 short_batch).1 = Raise e) ∧
  (auroc_ipu (λ p t _ _, stat_stub p t) 0 1
     (mkAurocKw None None None None) None short_batch).1 = Raise IndexError ∧
  (average_precision_ipu (λ p t _ _, stat_stub p t) 0 1
     (mkApKw None None None) None short_batch).1 = Raise IndexError ∧
  (precision_ipu (λ p t _, stat_stub p t) 0 1 no_kwargs short_batch).1
  = Raise IndexError ∧
  (accuracy_ipu (λ p t _ _, stat_stub p t) 0 1 no_kwargs false short_batch).1
  = Raise IndexError ∧
  (recall_ipu (λ p t _, stat_stub p t) 0 1 no_kwargs short_batch).1
  = Raise IndexError.
Proof.
  apply (tensors_of_different_lengths_raise log_stub
           (λ p t _ _, stat_stub p t) (λ p t _ _, stat_stub p t)
           (λ p t _, stat_stub p t) (λ p t _ _, stat_stub p t)
           (λ p t _, stat_stub p t)
           RMean short_batch 0 1 preds0 [Num 0; NaN] None).
  - reflexivity.
  - reflexivity.
  - exact I.
  - simpl. lia.
Defined.

Lemma BCELossIPU_forward_failure_keeps_masked_weight_witness :
  ∃ s', BCELossIPU_forward log_stub RMean 0 1 out_of_range_batch
        = (Raise RuntimeError, s') ∧
        weight_tensor s' (Some (neutral (Num 0) [Num 1; NaN] [Num 1; Num 1])) ∧
        ∀ l t, heap out_of_range_batch !! l = Some t → heap s' !! l = Some t.
Proof.
  apply (BCELossIPU_forward_failure_keeps_masked_weight log_stub RMean
           out_of_range_batch 0 1 [Num (3 # 2); Num (1 # 2)] [Num 1; NaN] None
           [Num 1; Num 1]).
  - reflexivity.
  - reflexivity.
  - exact I.
  - reflexivity.
  - reflexivity.
  - reflexivity.
  - reflexivity.
Defined.

(** The layer had no weight; after the failed call it has one, with a zero
    where the target was missing. *)
Example out_of_range_batch_weight :
  self_weight out_of_range_batch = None ∧
  weight_tensor (BCELossIPU_forward log_stub RMean 0 1 out_of_range_batch).2
    (Some [Num 1; Num 0]).
Proof. split; reflexivity. Qed.

Lemma preds1_agree : agree_where_observed targets0 preds0 preds1.
Proof.
  intros [|[|[|i]]] y Hy Hnan; try done.
  injection Hy as <-. discriminate Hnan.
Qed.

Lemma predictions_at_missing_targets_are_ignored_witness :
  (MSELossIPU_forward RMean 0 1 batch).1
  = (MSELossIPU_forward RMean 0 1 other_batch).1 ∧
  (L1LossIPU_forward RMean 0 1 batch).1
  = (L1LossIPU_forward RMean 0 1 other_batch).1 ∧
  (BCELossIPU_forward log_stub RMean 0 1 batch).1
  ≡ (BCELossIPU_forward log_stub RMean 0 1 other_batch).1.
Proof.
  destruct (predictions_at_missing_targets_are_ignored log_stub RMean
              batch other_batch 0 1 preds0 preds1 targets0)
    as (Hmse & Hl1 & Hbce).
  - reflexivity.
  - reflexivity.
  - reflexivity.
  - reflexivity.
  - reflexivity.
  - reflexivity.
  - exact preds1_agree.
  - split_and!; [exact Hmse|exact Hl1|].
    apply (Hbce (Some [Num 2]) [Num 2; Num 2; Num 2]).
    + exact log_stub_on_unit.
    + repeat constructor.
    + repeat constructor.
    + reflexivity.
    + reflexivity.
    + reflexivity.
    + reflexivity.
Defined.

Lemma observed_targets_keep_target_and_weight_witness :
  ∃ target' weight' nan_targets prev_weight s1 used_target used_weight,
    BCELossIPU_prepare 0 1 batch
    = (Ok (target', nan_targets, prev_weight), s1) ∧
    BCELossIPU_forward log_stub RMean 0 1 batch
    = (loss ← BCELoss_forward log_stub RMean 0 target';
       set_weight prev_weight;;
       mret (rescale loss (length nan_targets)
                     (mask_sum (negb <$> nan_targets)))) s1 ∧
    heap s1 !! target' = Some used_target ∧
    self_weight s1 = Some weight' ∧
    heap s1 !! weight' = Some used_weight ∧
    length used_target = length targets0 ∧
    length used_weight = length targets0 ∧
    ∀ i y, targets0 !! i = Some y → isnan y = false →
      used_target !! i = Some y ∧
      used_weight !! i = [Num 2; Num 2; Num 2] !! i ∧
      (Some [Num 2] = None → used_weight !! i = Some (Num 1)) ∧
      (∀ wv, Some [Num 2] = Some wv → length wv = length targets0 →
             used_weight !! i = wv !! i) ∧
      (∀ c, Some [Num 2] = Some [c] → used_weight !! i = Some c).
Proof.
  apply (observed_targets_keep_target_and_weight log_stub RMean batch 0 1
           preds0 targets0 (Some [Num 2]) [Num 2; Num 2; Num 2]); reflexivity.
Defined.

Lemma rank_metrics_zero_missing_positions_witness :
  ∃ passed_preds passed_target,
    (∀ i, [Num 1; NaN; Num 0] !! i = Some NaN →
       passed_preds !! i = Some (Num 0) ∧ passed_target !! i = Some 0%Z) ∧
    (∀ i x y,
       [Num (9 # 10); Num (2 # 10); Num (4 # 10)] !! i = Some x →
       [Num 1; NaN; Num 0] !! i = Some y → isnan y = false →
       passed_preds !! i = Some x ∧ passed_target !! i = Some (to_int y)) ∧
    (∃ passed_weights,
       (auroc_ipu (λ p t _ _, stat_stub p t) 0 1
          (mkAurocKw None None None None) None weighted_batch).1
       = stat_stub passed_preds passed_target ∧
       (average_precision_ipu (λ p t _ _, stat_stub p t) 0 1
          (mkApKw None None None) None weighted_batch).1
       = stat_stub passed_preds passed_target ∧
       length passed_weights = 3 ∧
       ∀ i y, [Num 1; NaN; Num 0] !! i = Some y →
         passed_weights !! i = Some (if isnan y then Num 0 else Num 1)) ∧
    (∀ lw ws, heap weighted_batch !! lw = Some ws → length ws = 3 →
       ∃ passed_weights,
         (auroc_ipu (λ p t _ _, stat_stub p t) 0 1
            (mkAurocKw None None None None) (Some lw) weighted_batch).1
         = stat_stub passed_preds passed_target ∧
         (average_precision_ipu (λ p t _ _, stat_stub p t) 0 1
            (mkApKw None None None) (Some lw) weighted_batch).1
         = stat_stub passed_preds passed_target ∧
         length passed_weights = 3 ∧
         ∀ i y v, [Num 1; NaN; Num 0] !! i = Some y → ws !! i = Some v →
           passed_weights !! i = Some (if isnan y then Num 0 else v)).
Proof.
  apply (rank_metrics_zero_missing_positions
           (λ p t _ _, stat_stub p t) (λ p t _ _, stat_stub p t)
           weighted_batch 0 1
           [Num (9 # 10); Num (2 # 10); Num (4 # 10)] [Num 1; NaN; Num 0]
           (mkAurocKw None None None None) (mkApKw None None None));
    reflexivity.
Defined.

Lemma metrics_without_missing_targets_witness :
  (precision_ipu (λ p t _, stat_stub p t) 0 1 no_kwargs labelled_batch).1
  = stat_stub preds0 [0; 1; 1]%Z ∧
  (accuracy_ipu (λ p t _ _, stat_stub p t) 0 1 no_kwargs false labelled_batch).1
  = stat_stub preds0 [0; 1; 1]%Z ∧
  (recall_ipu (λ p t _, stat_stub p t) 0 1 no_kwargs labelled_batch).1
  = stat_stub preds0 [0; 1; 1]%Z ∧
  (auroc_ipu (λ p t _ _, stat_stub p t) 0 1
     (mkAurocKw None None None None) None labelled_batch).1
  = stat_stub preds0 [0; 1; 1]%Z ∧
  (average_precision_ipu (λ p t _ _, stat_stub p t) 0 1
     (mkApKw None None None) None labelled_batch).1
  = stat_stub preds0 [0; 1; 1]%Z ∧
  heap (auroc_ipu (λ p t _ _, stat_stub p t) 0 1
          (mkAurocKw None None None None) (Some 2) labelled_batch).2 !! 2
  = Some [Num 2; Num 3; Num 4].
Proof.
  destruct (metrics_without_missing_targets
              (λ p t _ _, stat_stub p t) (λ p t _ _, stat_stub p t)
              (λ p t _, stat_stub p t) (λ p t _ _, stat_stub p t)
              (λ p t _, stat_stub p t)
              labelled_batch 0 1 preds0 [Num 0; Num 1; Num 1]
              (mkAurocKw None None None None) (mkApKw None None None)
              no_kwargs false)
    as (H1 & H2 & H3 & H4 & H5 & H6).
  - reflexivity.
  - reflexivity.
  - reflexivity.
  - repeat constructor.
  - split_and!; [exact H1|exact H2|exact H3|exact H4|exact H5|].
    destruct (H6 2 [Num 2; Num 3; Num 4] eq_refl eq_refl) as (_ & _ & H7 & _).
    exact H7.
Defined.

(** A weight of two elements for targets of three. *)
Definition unfit_batch : state :=
  mkState [preds0; targets0; [Num 2; Num 3]] (Some 2).

Lemma BCELossIPU_forward_unfit_weight_witness :
  ∃ s', BCELossIPU_forward log_stub RMean 0 1 unfit_batch
        = (Raise RuntimeError, s') ∧
        self_weight s' = self_weight unfit_batch ∧
        weight_tensor s' (Some [Num 2; Num 3]).
Proof.
  apply (BCELossIPU_forward_unfit_weight log_stub RMean unfit_batch 0 1
           preds0 targets0 [Num 2; Num 3]).
  - reflexivity.
  - reflexivity.
  - reflexivity.
  - reflexivity.
  - simpl. lia.
  - simpl. lia.
Defined.

End IpuMetrics.
